(** * Multi-vault manager: parsing, scanning, search and topic index

    A shallow embedding of [MultiVaultManager] (multi-vault-manager.ts).
    JavaScript strings are sequences of UTF-16 code units; the regular
    expressions of the source are kept as syntax trees and run by a small
    backtracking matcher, so that each one can be read against the literal
    it comes from.  The file system is a finite tree; console output is a
    list of log entries. *)

From Stdlib Require Import List NArith ZArith Bool String Ascii Lia.
From Stdlib Require Import Permutation Sorted DecimalString FinFun.
Import ListNotations.

Set Implicit Arguments.
Set Warnings "-register-all".

(** ** JavaScript strings *)

Module JsString.

(** A UTF-16 code unit, [0 <= c < 65536]. *)
Definition char := N.
Definition jsstring := list char.

Definition ch (a : ascii) : char := N_of_ascii a.

Fixpoint js (s : string) : jsstring :=
  match s with
  | EmptyString => []
  | String a r => ch a :: js r
  end.

Definition NL : char := 10%N.
Definition DQ : char := 34%N.

Fixpoint str_eqb (a b : jsstring) : bool :=
  match a, b with
  | [], [] => true
  | x :: a', y :: b' => N.eqb x y && str_eqb a' b'
  | _, _ => false
  end.

Fixpoint startsWith (p s : jsstring) : bool :=
  match p, s with
  | [], _ => true
  | x :: p', y :: s' => N.eqb x y && startsWith p' s'
  | _ :: _, [] => false
  end.

Definition endsWith (s suffix : jsstring) : bool :=
  startsWith (rev suffix) (rev s).

(** [s.includes(sub)] *)
Fixpoint includes (s sub : jsstring) : bool :=
  startsWith sub s ||
  match s with
  | [] => false
  | _ :: s' => includes s' sub
  end.

(** [\s] of a RegExp and the characters removed by [trim]: WhiteSpace and
    LineTerminator of ECMAScript. *)
Definition is_space (c : char) : bool :=
  ((9 <=? c) && (c <=? 13) || (c =? 32) || (c =? 160) || (c =? 5760)
   || (8192 <=? c) && (c <=? 8202) || (c =? 8232) || (c =? 8233)
   || (c =? 8239) || (c =? 8287) || (c =? 12288) || (c =? 65279))%N.

Definition is_line_terminator (c : char) : bool :=
  ((c =? 10) || (c =? 13) || (c =? 8232) || (c =? 8233))%N.

(** [.] without the s flag *)
Definition is_dot (c : char) : bool := negb (is_line_terminator c).

Definition is_digit (c : char) : bool := ((48 <=? c) && (c <=? 57))%N.
Definition is_alpha (c : char) : bool :=
  ((65 <=? c) && (c <=? 90) || (97 <=? c) && (c <=? 122))%N.

(** [\w] *)
Definition is_word (c : char) : bool :=
  is_alpha c || is_digit c || (c =? 95)%N.

Fixpoint trimStart (s : jsstring) : jsstring :=
  match s with
  | c :: s' => if is_space c then trimStart s' else s
  | [] => []
  end.

Definition trimEnd (s : jsstring) : jsstring := rev (trimStart (rev s)).

Definition trim (s : jsstring) : jsstring := trimEnd (trimStart s).

(** [s.split(sep)] for a one-character separator. *)
Fixpoint split (sep : char) (s : jsstring) : list jsstring :=
  match s with
  | [] => [[]]
  | c :: s' =>
      match split sep s' with
      | seg :: segs => if N.eqb c sep then [] :: seg :: segs else (c :: seg) :: segs
      | [] => [[c]]
      end
  end.

(** [s.replace(pat, repl)] with a string pattern: the first occurrence. *)
Fixpoint replace_str (pat repl s : jsstring) : jsstring :=
  if startsWith pat s then repl ++ skipn (List.length pat) s
  else match s with
       | [] => []
       | c :: s' => c :: replace_str pat repl s'
       end.

Fixpoint join_with (sep : jsstring) (l : list jsstring) : jsstring :=
  match l with
  | [] => []
  | [s] => s
  | s :: l' => s ++ sep ++ join_with sep l'
  end.

(** Insertion into a [Set<string>]: insertion order, no duplicates. *)
Fixpoint mem (x : jsstring) (l : list jsstring) : bool :=
  match l with
  | [] => false
  | y :: l' => str_eqb x y || mem x l'
  end.

Definition set_add (l : list jsstring) (x : jsstring) : list jsstring :=
  if mem x l then l else l ++ [x].

End JsString.
Export JsString.

(** ** Regular expressions *)

Module RegExp.

(** The fragment of RegExp syntax the source uses.  Every quantifier in
    the source applies to a single character class. *)
Inductive regex : Type :=
| Eps
| Cls (p : char -> bool)
| Bol                       (* ^ *)
| Eol                       (* $ *)
| Seq (r1 r2 : regex)
| Alt (r1 r2 : regex)
| Group (i : nat) (r : regex)
| Star (greedy : bool) (p : char -> bool).

Definition Chr (a : ascii) : regex := Cls (N.eqb (ch a)).
Definition Plus (greedy : bool) (p : char -> bool) : regex :=
  Seq (Cls p) (Star greedy p).
Fixpoint Lit (s : jsstring) : regex :=
  match s with
  | [] => Eps
  | c :: s' => Seq (Cls (N.eqb c)) (Lit s')
  end.

Definition captures := list (nat * jsstring).

Fixpoint capture (i : nat) (cs : captures) : option jsstring :=
  match cs with
  | [] => None
  | (j, s) :: cs' => if Nat.eqb i j then Some s else capture i cs'
  end.

(** A match: start index, end index, captured groups. *)
Record rmatch : Type := { m_start : nat; m_end : nat; m_caps : captures }.

(** [match[i]]; every group of the source's expressions takes part in
    every match, so the default is never used. *)
Definition cap (i : nat) (m : rmatch) : jsstring :=
  match capture i (m_caps m) with Some s => s | None => [] end.

Section Matcher.
Variable multiline : bool.
Variable R : Type.

(** The continuation receives the character before the position, the
    position and the rest of the input. *)
Definition cont := option char -> nat -> jsstring -> captures -> option R.

Definition at_bol (prev : option char) : bool :=
  match prev with
  | None => true
  | Some c => multiline && is_line_terminator c
  end.

Definition at_eol (rest : jsstring) : bool :=
  match rest with
  | [] => true
  | c :: _ => multiline && is_line_terminator c
  end.

Fixpoint many (greedy : bool) (p : char -> bool) (prev : option char)
         (pos : nat) (rest : jsstring) (cs : captures) (k : cont)
  : option R :=
  if greedy then
    match (match rest with
           | c :: rest' =>
               if p c then many greedy p (Some c) (S pos) rest' cs k else None
           | [] => None
           end) with
    | Some r => Some r
    | None => k prev pos rest cs
    end
  else
    match k prev pos rest cs with
    | Some r => Some r
    | None =>
        match rest with
        | c :: rest' =>
            if p c then many greedy p (Some c) (S pos) rest' cs k else None
        | [] => None
        end
    end.

Fixpoint run (r : regex) (prev : option char) (pos : nat)
         (rest : jsstring) (cs : captures) (k : cont) : option R :=
  match r with
  | Eps => k prev pos rest cs
  | Cls p =>
      match rest with
      | c :: rest' => if p c then k (Some c) (S pos) rest' cs else None
      | [] => None
      end
  | Bol => if at_bol prev then k prev pos rest cs else None
  | Eol => if at_eol rest then k prev pos rest cs else None
  | Seq r1 r2 =>
      run r1 prev pos rest cs
          (fun prev' pos' rest' cs' => run r2 prev' pos' rest' cs' k)
  | Alt r1 r2 =>
      match run r1 prev pos rest cs k with
      | Some x => Some x
      | None => run r2 prev pos rest cs k
      end
  | Group i r1 =>
      run r1 prev pos rest cs
          (fun prev' pos' rest' cs' =>
             k prev' pos' rest' ((i, firstn (pos' - pos) rest) :: cs'))
  | Star greedy p => many greedy p prev pos rest cs k
  end.
End Matcher.

(** One attempt at a fixed start position. *)
Definition match_at (multiline : bool) (r : regex) (prev : option char)
           (pos : nat) (rest : jsstring) : option rmatch :=
  run multiline r prev pos rest []
      (fun _ pos' _ cs => Some {| m_start := pos; m_end := pos'; m_caps := cs |}).

Fixpoint search (multiline : bool) (r : regex) (prev : option char)
         (pos : nat) (rest : jsstring) : option rmatch :=
  match match_at multiline r prev pos rest with
  | Some m => Some m
  | None =>
      match rest with
      | [] => None
      | c :: rest' => search multiline r (Some c) (S pos) rest'
      end
  end.

(** [s.match(r)] for an expression without the g flag. *)
Definition exec (multiline : bool) (r : regex) (s : jsstring) : option rmatch :=
  search multiline r None 0 s.

(** The matches of an expression with the g flag, left to right; [skip]
    counts the characters still covered by the previous match.  After an
    empty match the position advances by one. *)
Fixpoint scan (multiline : bool) (r : regex) (prev : option char)
         (pos : nat) (rest : jsstring) (skip : nat) : list rmatch :=
  match skip with
  | S skip' =>
      match rest with
      | c :: rest' => scan multiline r (Some c) (S pos) rest' skip'
      | [] => []
      end
  | O =>
      match match_at multiline r prev pos rest with
      | Some m =>
          m :: match rest with
               | c :: rest' =>
                   scan multiline r (Some c) (S pos) rest' (m_end m - pos - 1)
               | [] => []
               end
      | None =>
          match rest with
          | c :: rest' => scan multiline r (Some c) (S pos) rest' 0
          | [] => []
          end
      end
  end.

(** [s.matchAll(r)] *)
Definition matchAll (multiline : bool) (r : regex) (s : jsstring) : list rmatch :=
  scan multiline r None 0 s 0.

(** [s.replace(r, repl)] for a replacement without [$] patterns; with
    the g flag every match is replaced, otherwise the first one. *)
Fixpoint subst (multiline : bool) (r : regex) (repl : jsstring)
         (global active : bool) (prev : option char) (pos : nat)
         (rest : jsstring) (skip : nat) : jsstring :=
  match skip with
  | S skip' =>
      match rest with
      | c :: rest' =>
          subst multiline r repl global active (Some c) (S pos) rest' skip'
      | [] => []
      end
  | O =>
      match (if active then match_at multiline r prev pos rest else None) with
      | Some m =>
          repl ++
          match rest with
          | c :: rest' =>
              (if Nat.eqb (m_end m) pos then [c] else []) ++
              subst multiline r repl global global (Some c) (S pos) rest'
                    (m_end m - pos - 1)
          | [] => []
          end
      | None =>
          match rest with
          | c :: rest' =>
              c :: subst multiline r repl global active (Some c) (S pos) rest' 0
          | [] => []
          end
      end
  end.

Definition replace (multiline global : bool) (r : regex) (repl s : jsstring)
  : jsstring :=
  subst multiline r repl global true None 0 s 0.

(** The character before the position reached after reading [l]. *)
Definition last_seen (l : jsstring) (prev : option char) : option char :=
  fold_left (fun _ c => Some c) l prev.

(** A greedy run of [p] cannot go on into [tail]. *)
Definition stops (p : char -> bool) (tail : jsstring) : bool :=
  match tail with
  | [] => true
  | c :: _ => negb (p c)
  end.

Definition is_some {A : Type} (o : option A) : bool :=
  match o with Some _ => true | None => false end.

(** Expressions without [^]: whether they match at a position depends on
    the input from there on only. *)
Fixpoint bol_free (r : regex) : bool :=
  match r with
  | Bol => false
  | Seq r1 r2 | Alt r1 r2 => bol_free r1 && bol_free r2
  | Group _ r1 => bol_free r1
  | Eps | Cls _ | Eol | Star _ _ => true
  end.

End RegExp.
Export RegExp.

(** ** Values and the functions of the platform *)

Module Value.

(** What [JSON.parse] returns.  Of a number the program only ever
    observes whether it is zero (its truthiness), so that is what
    [JNum] records. *)
Inductive jsvalue : Type :=
| JNull
| JBool (b : bool)
| JNum (nonzero : bool)
| JStr (s : jsstring)
| JArr (items : list jsvalue)
| JObj (fields : list (jsstring * jsvalue)).

Definition truthy (v : jsvalue) : bool :=
  match v with
  | JNull => false
  | JBool b => b
  | JNum nonzero => nonzero
  | JStr s => negb (str_eqb s [])
  | JArr _ | JObj _ => true
  end.

Fixpoint assoc {V : Type} (k : jsstring) (l : list (jsstring * V)) : option V :=
  match l with
  | [] => None
  | (k', v) :: l' => if str_eqb k k' then Some v else assoc k l'
  end.

(** Writing an own property: an existing one keeps its place. *)
Fixpoint assoc_set {V : Type} (k : jsstring) (v : V) (l : list (jsstring * V))
  : list (jsstring * V) :=
  match l with
  | [] => [(k, v)]
  | (k', v') :: l' =>
      if str_eqb k k' then (k, v) :: l' else (k', v') :: assoc_set k v l'
  end.

(** The property names every plain object inherits from
    [Object.prototype]; each of them holds a function or an object. *)
Definition object_prototype_names : list jsstring :=
  map js ["constructor"; "__defineGetter__"; "__defineSetter__";
          "hasOwnProperty"; "__lookupGetter__"; "__lookupSetter__";
          "isPrototypeOf"; "propertyIsEnumerable"; "toString"; "valueOf";
          "__proto__"; "toLocaleString"]%string.

Definition inherited (k : jsstring) : bool := mem k object_prototype_names.

(** The functions of the platform that the source calls and that are not
    part of the repository.  [JSON_parse] returns [None] where
    [JSON.parse] throws; an object it returns lists each key once. *)
Record runtime : Type := {
  JSON_parse : jsstring -> option jsvalue;
  toLowerCase : jsstring -> jsstring;
  join : jsstring -> jsstring -> jsstring;
  basename : jsstring -> jsstring -> jsstring
}.

End Value.
Export Value.

(** ** Document parser *)

Module Parser.

(** [/^#\s+(.+)$/m] *)
Definition re_h1 : regex :=
  Seq Bol (Seq (Chr "#") (Seq (Plus true is_space)
    (Seq (Group 1 (Plus true is_dot)) Eol))).

(** [/-/g] and [/_/g] *)
Definition re_hyphen : regex := Chr "-".
Definition re_underscore : regex := Chr "_".

(** [/^---\n([\s\S]*?)\n---/] *)
Definition re_frontmatter : regex :=
  Seq Bol (Seq (Lit (js "---" ++ [NL]))
    (Seq (Group 1 (Star false (fun _ => true))) (Lit (NL :: js "---")))).

(** [/^(\w+):\s*(.+)$/] *)
Definition re_keyvalue : regex :=
  Seq Bol (Seq (Group 1 (Plus true is_word)) (Seq (Chr ":")
    (Seq (Star true is_space) (Seq (Group 2 (Plus true is_dot)) Eol)))).

Definition is_quote (c : char) : bool := ((c =? 34) || (c =? 39))%N.

(** [/^["']|["']$/g] *)
Definition re_quotes : regex :=
  Alt (Seq Bol (Cls is_quote)) (Seq (Cls is_quote) Eol).

(** [/^#/] *)
Definition re_leading_hash : regex := Seq Bol (Chr "#").

Definition is_tag_char (c : char) : bool :=
  is_alpha c || is_digit c || (c =? 95)%N || (c =? 45)%N || is_space c.

(** [/#([a-zA-Z0-9_\-\s]+)/g] *)
Definition re_inline_tag : regex :=
  Seq (Chr "#") (Group 1 (Plus true is_tag_char)).

(** [/\[\[([^\]]+)\]\]/g] *)
Definition re_wikilink : regex :=
  Seq (Lit (js "[[")) (Seq (Group 1 (Plus true (fun c => negb (c =? 93)%N)))
    (Lit (js "]]"))).

(** The object [frontmatter]: its own properties in insertion order and
    what its prototype is.  The key pattern [\w+] admits [__proto__],
    whose assignment goes to the accessor of [Object.prototype]. *)
Inductive prototype : Type :=
| ObjectPrototype
| NullPrototype
| ValuePrototype (v : jsvalue).

Record frontmatter : Type := {
  own : list (jsstring * jsvalue);
  proto : prototype
}.

Definition empty_frontmatter : frontmatter :=
  {| own := []; proto := ObjectPrototype |}.

Definition proto_key : jsstring := js "__proto__".

(** Does the accessor [__proto__] of [Object.prototype] answer an
    assignment to the key [__proto__]?  Not when the object has an own
    property of that name, nor when its prototype chain is cut or holds a
    data property of that name. *)
Definition reaches_proto_setter (fm : frontmatter) : bool :=
  match assoc proto_key (own fm) with
  | Some _ => false
  | None =>
      match proto fm with
      | ObjectPrototype => true
      | NullPrototype => false
      | ValuePrototype (JObj fields) =>
          match assoc proto_key fields with Some _ => false | None => true end
      | ValuePrototype _ => true
      end
  end.

(** [frontmatter[key] = v] *)
Definition fm_set (fm : frontmatter) (key : jsstring) (v : jsvalue) : frontmatter :=
  if str_eqb key proto_key && reaches_proto_setter fm then
    match v with
    | JObj _ | JArr _ => {| own := own fm; proto := ValuePrototype v |}
    | JNull => {| own := own fm; proto := NullPrototype |}
    | _ => fm
    end
  else {| own := assoc_set key v (own fm); proto := proto fm |}.

(** [frontmatter.tags]; [None] is [undefined]. *)
Definition fm_tags (fm : frontmatter) : option jsvalue :=
  match assoc (js "tags") (own fm) with
  | Some v => Some v
  | None =>
      match proto fm with
      | ValuePrototype (JObj fields) => assoc (js "tags") fields
      | _ => None
      end
  end.

Section WithRuntime.
Variable rt : runtime.

Definition extractTitle (content relativePath : jsstring) : jsstring :=
  match exec true re_h1 content with
  | Some h1Match => trim (cap 1 h1Match)
  | None =>
      let filename := basename rt relativePath (js ".md") in
      replace false true re_underscore (js " ")
        (replace false true re_hyphen (js " ") filename)
  end.

Definition parse_line (fm : frontmatter) (line : jsstring) : frontmatter :=
  match exec false re_keyvalue line with
  | Some m =>
      let key := cap 1 m in
      let value := cap 2 m in
      match JSON_parse rt value with
      | Some v => fm_set fm key v
      | None => fm_set fm key (JStr (replace false true re_quotes [] value))
      end
  | None => fm
  end.

Definition extractFrontmatter (content : jsstring) : frontmatter :=
  match exec false re_frontmatter content with
  | Some frontmatterMatch =>
      fold_left parse_line (split NL (cap 1 frontmatterMatch)) empty_frontmatter
  | None => empty_frontmatter
  end.
End WithRuntime.

Definition add_frontmatter_tag (tags : list jsstring) (tag : jsvalue) : list jsstring :=
  match tag with
  | JStr s => set_add tags (replace false false re_leading_hash [] s)
  | _ => tags
  end.

Definition add_wikilink (tags : list jsstring) (m : rmatch) : list jsstring :=
  let linkText := cap 1 m in
  if negb (includes linkText (js ".")) && negb (includes linkText (js "/"))
  then set_add tags linkText
  else tags.

Definition extractTags (content : jsstring) (fm : frontmatter) : list jsstring :=
  let tags := [] in
  let tags :=
    match fm_tags fm with
    | Some v =>
        if truthy v then
          let frontmatterTags := match v with JArr items => items | _ => [v] end in
          fold_left add_frontmatter_tag frontmatterTags tags
        else tags
    | None => tags
    end in
  let tags :=
    fold_left (fun tags m => set_add tags (trim (cap 1 m)))
              (matchAll false re_inline_tag content) tags in
  fold_left add_wikilink (matchAll false re_wikilink content) tags.

End Parser.
Export Parser.

(** ** An instance of the platform functions

    JSON texts as in RFC 8259, ASCII case mapping and POSIX paths that are
    already in normal form.  The development is parametric in [runtime];
    this instance serves the worked examples. *)

Module SampleRuntime.

Definition is_json_ws (c : char) : bool :=
  ((c =? 32) || (c =? 9) || (c =? 10) || (c =? 13))%N.

Fixpoint skip_ws (s : jsstring) : jsstring :=
  match s with
  | c :: s' => if is_json_ws c then skip_ws s' else s
  | [] => []
  end.

Definition hex_digit (c : char) : option N :=
  if is_digit c then Some (c - 48)%N
  else if ((97 <=? c) && (c <=? 102))%N then Some (c - 87)%N
  else if ((65 <=? c) && (c <=? 70))%N then Some (c - 55)%N
  else None.

Definition hex4 (a b c d : char) : option char :=
  match hex_digit a, hex_digit b, hex_digit c, hex_digit d with
  | Some x, Some y, Some z, Some w => Some (((x * 16 + y) * 16 + z) * 16 + w)%N
  | _, _, _, _ => None
  end.

Definition unescape (c : char) : option char :=
  if (c =? 34)%N then Some 34%N          (* quotation mark *)
  else if (c =? 92)%N then Some 92%N     (* backslash *)
  else if (c =? 47)%N then Some 47%N     (* slash *)
  else if (c =? 98)%N then Some 8%N      (* backspace *)
  else if (c =? 102)%N then Some 12%N    (* form feed *)
  else if (c =? 110)%N then Some 10%N    (* line feed *)
  else if (c =? 114)%N then Some 13%N    (* carriage return *)
  else if (c =? 116)%N then Some 9%N     (* tab *)
  else None.

(** The characters of a string after its opening quote. *)
Fixpoint parse_string (s acc : jsstring) : option (jsstring * jsstring) :=
  match s with
  | [] => None
  | c :: r =>
      if (c =? 34)%N then Some (rev acc, r)
      else if (c =? 92)%N then
        match r with
        | e :: r' =>
            if (e =? 117)%N then
              match r' with
              | a :: b :: x :: d :: r'' =>
                  match hex4 a b x d with
                  | Some u => parse_string r'' (u :: acc)
                  | None => None
                  end
              | _ => None
              end
            else
              match unescape e with
              | Some u => parse_string r' (u :: acc)
              | None => None
              end
        | [] => None
        end
      else if (c <? 32)%N then None
      else parse_string r (c :: acc)
  end.

Fixpoint take_digits (s : jsstring) : jsstring * jsstring :=
  match s with
  | c :: s' =>
      if is_digit c then let '(d, r) := take_digits s' in (c :: d, r)
      else ([], s)
  | [] => ([], [])
  end.

Definition some_nonzero (digits : jsstring) : bool :=
  existsb (fun c => negb (c =? 48)%N) digits.

(** [-? int frac? exp?]; the result tells whether the number is not zero. *)
Definition parse_number (s : jsstring) : option (bool * jsstring) :=
  let s := match s with c :: r => if (c =? 45)%N then r else s | [] => s end in
  let '(int, r) := take_digits s in
  match int with
  | [] => None
  | d :: ds =>
      if (d =? 48)%N && negb (Nat.eqb (List.length ds) 0) then None
      else
        let frac :=
          match r with
          | c :: r1 =>
              if (c =? 46)%N then
                let '(f, r2) := take_digits r1 in
                match f with [] => None | _ => Some (f, r2) end
              else Some ([], r)
          | [] => Some ([], r)
          end in
        match frac with
        | None => None
        | Some (f, r) =>
            let nonzero := some_nonzero int || some_nonzero f in
            match r with
            | c :: r1 =>
                if ((c =? 101) || (c =? 69))%N then
                  let r2 := match r1 with
                            | x :: r2 => if ((x =? 43) || (x =? 45))%N then r2 else r1
                            | [] => r1
                            end in
                  let '(e, r3) := take_digits r2 in
                  match e with [] => None | _ => Some (nonzero, r3) end
                else Some (nonzero, r)
            | [] => Some (nonzero, r)
            end
        end
  end.

Definition keyword (w : string) (v : jsvalue) (s : jsstring)
  : option (jsvalue * jsstring) :=
  if startsWith (js w) s then Some (v, skipn (String.length w) s) else None.

Fixpoint parse_value (fuel : nat) (s : jsstring) : option (jsvalue * jsstring) :=
  match fuel with
  | O => None
  | S fuel' =>
      match skip_ws s with
      | [] => None
      | c :: r =>
          if (c =? 34)%N then
            match parse_string r [] with
            | Some (str, r') => Some (JStr str, r')
            | None => None
            end
          else if (c =? 91)%N then
            match skip_ws r with
            | c' :: r' =>
                if (c' =? 93)%N then Some (JArr [], r') else parse_items fuel' r []
            | [] => None
            end
          else if (c =? 123)%N then
            match skip_ws r with
            | c' :: r' =>
                if (c' =? 125)%N then Some (JObj [], r') else parse_members fuel' r []
            | [] => None
            end
          else if (c =? 110)%N then keyword "null" JNull (c :: r)
          else if (c =? 116)%N then keyword "true" (JBool true) (c :: r)
          else if (c =? 102)%N then keyword "false" (JBool false) (c :: r)
          else
            match parse_number (c :: r) with
            | Some (nonzero, r') => Some (JNum nonzero, r')
            | None => None
            end
      end
  end
with parse_items (fuel : nat) (s : jsstring) (acc : list jsvalue)
     : option (jsvalue * jsstring) :=
  match fuel with
  | O => None
  | S fuel' =>
      match parse_value fuel' s with
      | Some (v, r) =>
          match skip_ws r with
          | c :: r' =>
              if (c =? 44)%N then parse_items fuel' r' (v :: acc)
              else if (c =? 93)%N then Some (JArr (rev (v :: acc)), r')
              else None
          | [] => None
          end
      | None => None
      end
  end
with parse_members (fuel : nat) (s : jsstring) (acc : list (jsstring * jsvalue))
     : option (jsvalue * jsstring) :=
  match fuel with
  | O => None
  | S fuel' =>
      match skip_ws s with
      | q :: r0 =>
          if (q =? 34)%N then
            match parse_string r0 [] with
            | Some (key, r1) =>
                match skip_ws r1 with
                | colon :: r2 =>
                    if (colon =? 58)%N then
                      match parse_value fuel' r2 with
                      | Some (v, r3) =>
                          match skip_ws r3 with
                          | c :: r' =>
                              if (c =? 44)%N
                              then parse_members fuel' r' (assoc_set key v acc)
                              else if (c =? 125)%N
                              then Some (JObj (assoc_set key v acc), r')
                              else None
                          | [] => None
                          end
                      | None => None
                      end
                    else None
                | [] => None
                end
            | None => None
            end
          else None
      | [] => None
      end
  end.

Definition json_parse (s : jsstring) : option jsvalue :=
  match parse_value (2 * List.length s + 2) s with
  | Some (v, r) => match skip_ws r with [] => Some v | _ :: _ => None end
  | None => None
  end.

Definition ascii_lower (s : jsstring) : jsstring :=
  map (fun c => if ((65 <=? c) && (c <=? 90))%N then (c + 32)%N else c) s.

Definition SLASH : char := 47%N.

Definition posix_join (a b : jsstring) : jsstring :=
  match a, b with
  | [], _ => b
  | _, [] => a
  | _, _ => if endsWith a [SLASH] then a ++ b else a ++ SLASH :: b
  end.

Fixpoint strip_slashes (s : jsstring) : jsstring :=
  match s with
  | c :: s' => if (c =? SLASH)%N then strip_slashes s' else s
  | [] => []
  end.

Fixpoint take_segment (s : jsstring) : jsstring :=
  match s with
  | c :: s' => if (c =? SLASH)%N then [] else c :: take_segment s'
  | [] => []
  end.

Definition posix_basename (p ext : jsstring) : jsstring :=
  if str_eqb p ext then []
  else
    let base := rev (take_segment (strip_slashes (rev p))) in
    if endsWith base ext && negb (str_eqb base ext)
    then firstn (List.length base - List.length ext) base
    else base.

Definition sample : runtime :=
  {| JSON_parse := json_parse;
     toLowerCase := ascii_lower;
     join := posix_join;
     basename := posix_basename |}.

End SampleRuntime.

(** ** Collection registry *)

Module Config.
Inductive vault_type : Type := ghost | external.

Record VaultConfig : Type := {
  name : jsstring;
  path : jsstring;
  enabled : bool;
  type : vault_type
}.
End Config.
Import Config (VaultConfig, ghost, external).

Module Registry.

(** [process.env] after [dotenv.config]: a variable is a string or unset. *)
Definition environment := jsstring -> option jsstring.

Definition decimal (i : nat) : jsstring :=
  js (NilEmpty.string_of_uint (Nat.to_uint i)).

(** [`VAULT_${i}_NAME`] and the like *)
Definition vault_key (i : nat) (field : string) : jsstring :=
  js "VAULT_" ++ decimal i ++ js "_" ++ js field.

Definition nonempty (s : jsstring) : bool := negb (str_eqb s []).

(** One turn of the loop of [loadExternalVaults]. *)
Definition load_slot (env : environment) (i : nat) : list VaultConfig :=
  let enabled :=
    match env (vault_key i "ENABLED") with
    | Some v => str_eqb v (js "true")
    | None => false
    end in
  match env (vault_key i "NAME"), env (vault_key i "PATH") with
  | Some name, Some path =>
      if nonempty name && nonempty path && enabled
      then [{| Config.name := name; Config.path := path;
               Config.enabled := true; Config.type := external |}]
      else []
  | _, _ => []
  end.

Definition loadExternalVaults (env : environment) : list VaultConfig :=
  flat_map (load_slot env) (seq 1 10).

Record MultiVaultManager : Type := {
  ghostVaultPath : jsstring;
  externalVaults : list VaultConfig
}.

(** The constructor. *)
Definition new (env : environment) (ghostVaultPath : jsstring) : MultiVaultManager :=
  {| ghostVaultPath := ghostVaultPath;
     externalVaults := loadExternalVaults env |}.

Definition ghostVault (m : MultiVaultManager) : VaultConfig :=
  {| Config.name := js "Ghost AI Vault"; Config.path := ghostVaultPath m;
     Config.enabled := true; Config.type := ghost |}.

Definition getAllVaults (m : MultiVaultManager) : list VaultConfig :=
  ghostVault m :: externalVaults m.

Definition getExternalVaults (m : MultiVaultManager) : list VaultConfig :=
  filter Config.enabled (externalVaults m).

End Registry.
Export Registry.

(** ** File system, console and the effects of the operations *)

Module FileSystem.

(** What lies under a path.  A file whose content is [None] cannot be
    read; a directory whose listing is [None] cannot be opened.  Every
    entry that is not a directory counts as a file, as [isDirectory]
    sees it. *)
Inductive node : Type :=
| File (content : option jsstring) (mtime : Z) (size : Z)
| Dir (listing : option (list (jsstring * node))).

(** The roots the registry can name. *)
Definition filesystem := jsstring -> option node.

Definition isDirectory (n : node) : bool :=
  match n with Dir _ => true | File _ _ _ => false end.

(** Induction over a tree, with the hypothesis for every entry of a
    directory. *)
Section NodeInduction.
Variable P : node -> Prop.
Hypothesis HFile : forall content mtime size, P (File content mtime size).
Hypothesis HClosed : P (Dir None).
Hypothesis HDir :
  forall entries, Forall (fun e => P (snd e)) entries -> P (Dir (Some entries)).

Fixpoint node_induction (n : node) : P n :=
  match n with
  | File content mtime size => @HFile content mtime size
  | Dir None => HClosed
  | Dir (Some entries) =>
      @HDir entries
        ((fix all (es : list (jsstring * node)) : Forall (fun e => P (snd e)) es :=
            match es with
            | [] => Forall_nil _
            | e :: es' => Forall_cons e (node_induction (snd e)) (all es')
            end) entries)
  end.
End NodeInduction.

End FileSystem.
Export FileSystem.

Module Effects.

Inductive level : Type := LogWarn | LogError.

(** A call of [console.warn] or [console.error] with its first argument. *)
Definition log_entry : Type := level * jsstring.

Inductive exn : Type := TypeError.

Inductive outcome (A : Type) : Type :=
| Returned (a : A)
| Thrown (e : exn).
Arguments Thrown {A} e.

(** An operation reads the file system, writes to the console and returns
    or throws. *)
Definition M (A : Type) : Type := filesystem -> outcome A * list log_entry.

Definition ret {A : Type} (a : A) : M A := fun _ => (Returned a, []).

Definition bind {A B : Type} (m : M A) (f : A -> M B) : M B :=
  fun fs =>
    match m fs with
    | (Returned a, l1) => let '(r, l2) := f a fs in (r, l1 ++ l2)
    | (Thrown e, l1) => (Thrown e, l1)
    end.

Definition console (lv : level) (msg : jsstring) : M unit :=
  fun _ => (Returned tt, [(lv, msg)]).

Definition lift {A : Type} (r : outcome A) : M A := fun _ => (r, []).

Fixpoint foldM {A B : Type} (f : B -> A -> M B) (l : list A) (acc : B) : M B :=
  match l with
  | [] => ret acc
  | x :: l' => bind (f acc x) (foldM f l')
  end.

(** The process an operation runs in: its disk and what it has printed. *)
Record process : Type := {
  disk : filesystem;
  printed : list log_entry
}.

Definition perform {A : Type} (m : M A) (p : process) : outcome A * process :=
  let '(r, l) := m (disk p) in
  (r, {| disk := disk p; printed := printed p ++ l |}).

End Effects.
Export Effects.

Notation "x <- m ;; k" := (bind m (fun x => k))
  (at level 61, m at next level, right associativity).
Notation "m ;;; k" := (bind m (fun _ => k))
  (at level 61, right associativity).

(** ** Notes, search options and the index *)

Module Note.
Record VaultNote : Type := {
  vault : jsstring;
  path : jsstring;
  title : jsstring;
  content : jsstring;
  tags : list jsstring;
  frontmatter : Parser.frontmatter;
  lastModified : Z;
  size : Z
}.
End Note.
Import Note (VaultNote).

Module Options.
(** A number as [limit] receives it from [parseInt]: an integer or NaN. *)
Inductive jsnumber : Type := NaN | Int (z : Z).

Record SearchOptions : Type := {
  includeContent : option bool;
  tags : option (list jsstring);
  vaults : option (list jsstring);
  limit : option jsnumber
}.

Definition no_options : SearchOptions :=
  {| includeContent := None; tags := None; vaults := None; limit := None |}.
End Options.
Import Options (SearchOptions, jsnumber, NaN, Int).

Module Topic.
Record entry : Type := { count : nat; vaults : list jsstring }.
End Topic.

Module Stats.
Record entry : Type := { noteCount : nat; totalSize : Z }.
End Stats.

Module Index.
Record CrossVaultIndex : Type := {
  topics : list (jsstring * Topic.entry);
  recentNotes : list VaultNote;
  vaultStats : list (jsstring * Stats.entry)
}.
End Index.

(** ** The operations of the manager *)

Module Manager.

Definition excluded (name : jsstring) : bool :=
  str_eqb name (js ".obsidian") || str_eqb name (js ".git").

Definition error_reading_directory (dir : jsstring) : log_entry :=
  (LogError, js "Error reading directory " ++ dir ++ js ":").

Definition error_parsing_note (filePath : jsstring) : log_entry :=
  (LogError, js "Error parsing note " ++ filePath ++ js ":").

Definition not_accessible (name : jsstring) : log_entry :=
  (LogWarn, js "Vault " ++ name ++ js " is not accessible, skipping...").

(** [/^\//] *)
Definition re_leading_slash : regex := Seq Bol (Chr "/").

(** [Array.prototype.sort] with the comparator
    [(a, b) => b.lastModified.getTime() - a.lastModified.getTime()]:
    stable, latest first. *)
Fixpoint insert_note (x : VaultNote) (l : list VaultNote) : list VaultNote :=
  match l with
  | [] => [x]
  | y :: l' =>
      if (Note.lastModified x <? Note.lastModified y)%Z
      then y :: insert_note x l'
      else x :: y :: l'
  end.

Definition sortByLastModified (l : list VaultNote) : list VaultNote :=
  fold_right insert_note [] l.

(** [a.slice(0, n)] for an integer [n] *)
Definition slice_to {A : Type} (n : Z) (a : list A) : list A :=
  if (n <? 0)%Z
  then firstn (Z.to_nat (Z.max (Z.of_nat (List.length a) + n) 0)) a
  else firstn (Z.to_nat n) a.

Definition number_truthy (n : jsnumber) : bool :=
  match n with
  | NaN => false
  | Int z => negb (z =? 0)%Z
  end.

Section WithRuntime.
Variable rt : runtime.

(** [getMarkdownFiles(dir)] where [n] is what [dir] names.  Each path
    comes with the file it names, which [parseNoteFile] reads next. *)
Fixpoint getMarkdownFiles (dir : jsstring) (n : node) {struct n}
  : list (jsstring * node) * list log_entry :=
  match n with
  | Dir (Some entries) =>
      (fix loop (entries : list (jsstring * node))
         : list (jsstring * node) * list log_entry :=
         match entries with
         | [] => ([], [])
         | (name, child) :: entries' =>
             let fullPath := join rt dir name in
             let '(subFiles, l1) :=
               match child with
               | Dir _ =>
                   if excluded name then ([], [])
                   else getMarkdownFiles fullPath child
               | File _ _ _ =>
                   if endsWith name (js ".md") then ([(fullPath, child)], [])
                   else ([], [])
               end in
             let '(files, l2) := loop entries' in
             (subFiles ++ files, l1 ++ l2)
         end) entries
  | _ => ([], [error_reading_directory dir])
  end.

(** [getMarkdownFiles] at a root of the file system. *)
Definition scan_root (fs : filesystem) (dir : jsstring)
  : list (jsstring * node) * list log_entry :=
  match fs dir with
  | Some n => getMarkdownFiles dir n
  | None => ([], [error_reading_directory dir])
  end.

Definition parseNoteFile (vault : VaultConfig) (file : jsstring * node)
  : option VaultNote * list log_entry :=
  let '(filePath, n) := file in
  match n with
  | File (Some content) mtime size =>
      let relativePath :=
        replace false false re_leading_slash []
                (replace_str (Config.path vault) [] filePath) in
      let title := extractTitle rt content relativePath in
      let frontmatter := extractFrontmatter rt content in
      let tags := extractTags content frontmatter in
      (Some {| Note.vault := Config.name vault;
               Note.path := relativePath;
               Note.title := title;
               Note.content := content;
               Note.tags := tags;
               Note.frontmatter := frontmatter;
               Note.lastModified := mtime;
               Note.size := size |}, [])
  | _ => (None, [error_parsing_note filePath])
  end.

Fixpoint parse_files (vault : VaultConfig) (files : list (jsstring * node))
  : list VaultNote * list log_entry :=
  match files with
  | [] => ([], [])
  | file :: files' =>
      let '(note, l1) := parseNoteFile vault file in
      let '(notes, l2) := parse_files vault files' in
      (match note with Some n => n :: notes | None => notes end, l1 ++ l2)
  end.

Definition readVaultNotes (vault : VaultConfig) : M (list VaultNote) :=
  fun fs =>
    let '(files, l1) := scan_root fs (Config.path vault) in
    let '(notes, l2) := parse_files vault files in
    (Returned notes, l1 ++ l2).

(** [access(vault.path)] succeeds when the path names something. *)
Definition validateVault (vault : VaultConfig) : M bool :=
  fun fs =>
    (Returned (match fs (Config.path vault) with Some _ => true | None => false end),
     []).

Definition validateAllVaults (m : MultiVaultManager)
  : M (list (VaultConfig * bool)) :=
  foldM (fun results vault =>
           valid <- validateVault vault ;;
           ret (results ++ [(vault, valid)]))
        (getAllVaults m) [].

Definition tag_matches (filters : list jsstring) (note : VaultNote) : bool :=
  existsb (fun tag =>
             existsb (fun noteTag =>
                        includes (toLowerCase rt noteTag) (toLowerCase rt tag))
                     (Note.tags note))
          filters.

Definition text_matches (includeContent : option bool) (query : jsstring)
           (note : VaultNote) : bool :=
  let searchLower := toLowerCase rt query in
  includes (toLowerCase rt (Note.title note)) searchLower ||
  (match includeContent with Some b => b | None => false end) &&
  includes (toLowerCase rt (Note.content note)) searchLower.

(** One turn of the loop over [vaultsToSearch]. *)
Definition search_vault (allNotes : list VaultNote) (vault : VaultConfig)
  : M (list VaultNote) :=
  valid <- validateVault vault ;;
  if negb valid then
    console LogWarn (snd (not_accessible (Config.name vault))) ;;;
    ret allNotes
  else
    notes <- readVaultNotes vault ;;
    ret (allNotes ++ notes).

Definition vaultsToSearch (m : MultiVaultManager) (options : SearchOptions)
  : list VaultConfig :=
  match Options.vaults options with
  | Some names => filter (fun v => mem (Config.name v) names) (getAllVaults m)
  | None => getAllVaults m
  end.

Definition searchAllVaults (m : MultiVaultManager) (query : jsstring)
           (options : SearchOptions) : M (list VaultNote) :=
  allNotes <- foldM search_vault (vaultsToSearch m options) [] ;;
  let filteredNotes := allNotes in
  let filteredNotes :=
    match Options.tags options with
    | Some filters =>
        if (0 <? List.length filters)%nat
        then filter (tag_matches filters) filteredNotes
        else filteredNotes
    | None => filteredNotes
    end in
  let filteredNotes :=
    if nonempty query
    then filter (text_matches (Options.includeContent options) query) filteredNotes
    else filteredNotes in
  let filteredNotes := sortByLastModified filteredNotes in
  let filteredNotes :=
    match Options.limit options with
    | Some (Int n as limit) =>
        if number_truthy limit then slice_to n filteredNotes else filteredNotes
    | _ => filteredNotes
    end in
  ret filteredNotes.

Definition sum_sizes (notes : list VaultNote) : Z :=
  fold_left (fun sum note => (sum + Note.size note)%Z) notes 0%Z.

(** [stats[vault.name] = ...]; the name [__proto__] reaches the accessor
    of [Object.prototype] and leaves no own property. *)
Definition stats_set (stats : list (jsstring * Stats.entry)) (name : jsstring)
           (e : Stats.entry) : list (jsstring * Stats.entry) :=
  if str_eqb name proto_key then stats else assoc_set name e stats.

(** One turn of the loop of [getVaultStats]. *)
Definition stats_vault (stats : list (jsstring * Stats.entry))
           (vault : VaultConfig) : M (list (jsstring * Stats.entry)) :=
  valid <- validateVault vault ;;
  if negb valid then ret stats
  else
    notes <- readVaultNotes vault ;;
    ret (stats_set stats (Config.name vault)
           {| Stats.noteCount := List.length notes;
              Stats.totalSize := sum_sizes notes |}).

Definition getVaultStats (m : MultiVaultManager)
  : M (list (jsstring * Stats.entry)) :=
  foldM stats_vault (getAllVaults m) [].

(** The body of the loop over [note.tags].  An own entry is updated.
    Without one, a tag that names a property of [Object.prototype]
    finds that property, which is truthy and has no [vaults]:
    reading [.vaults.includes] throws.  (The increment before it leaves
    [count = NaN] on the inherited object; NaN is falsy as [undefined]
    is, so no later lookup in this file tells the difference.) *)
Definition index_tag (vaultName : jsstring)
           (topicIndex : outcome (list (jsstring * Topic.entry)))
           (tag : jsstring) : outcome (list (jsstring * Topic.entry)) :=
  match topicIndex with
  | Thrown e => Thrown e
  | Returned topicIndex =>
      match assoc tag topicIndex with
      | None =>
          if inherited tag then Thrown TypeError
          else Returned (assoc_set tag {| Topic.count := 1;
                                          Topic.vaults := [vaultName] |}
                                   topicIndex)
      | Some e =>
          Returned (assoc_set tag
                      {| Topic.count := S (Topic.count e);
                         Topic.vaults :=
                           if mem vaultName (Topic.vaults e)
                           then Topic.vaults e
                           else Topic.vaults e ++ [vaultName] |}
                      topicIndex)
      end
  end.

Definition index_notes (vaultName : jsstring) (notes : list VaultNote)
           (topicIndex : list (jsstring * Topic.entry))
  : outcome (list (jsstring * Topic.entry)) :=
  fold_left (fun ti note => fold_left (index_tag vaultName) (Note.tags note) ti)
            notes (Returned topicIndex).

(** One turn of the loop of [generateCrossVaultIndex]. *)
Definition index_vault (st : list VaultNote * list (jsstring * Topic.entry))
           (vault : VaultConfig)
  : M (list VaultNote * list (jsstring * Topic.entry)) :=
  let '(allNotes, topicIndex) := st in
  valid <- validateVault vault ;;
  if negb valid then ret st
  else
    notes <- readVaultNotes vault ;;
    topicIndex' <- lift (index_notes (Config.name vault) notes topicIndex) ;;
    ret (allNotes ++ notes, topicIndex').

Definition generateCrossVaultIndex (m : MultiVaultManager)
  : M Index.CrossVaultIndex :=
  st <- foldM index_vault (getAllVaults m) ([], []) ;;
  let '(allNotes, topicIndex) := st in
  let recentNotes := firstn 20 (sortByLastModified allNotes) in
  vaultStats <- getVaultStats m ;;
  ret {| Index.topics := topicIndex;
         Index.recentNotes := recentNotes;
         Index.vaultStats := vaultStats |}.

End WithRuntime.

End Manager.
Export Manager.

(** ** What the specification talks about *)

Module Spec.

(** The lines of a document. *)
Fixpoint lines (s : jsstring) : list jsstring :=
  match s with
  | [] => [[]]
  | c :: s' =>
      match lines s' with
      | l :: ls => if is_line_terminator c then [] :: l :: ls else (c :: l) :: ls
      | [] => [[c]]
      end
  end.

(** The heading text of a level-1 heading line: the marker [#], then
    whitespace, then text. *)
Definition heading_text (line : jsstring) : option jsstring :=
  match line with
  | c :: rest =>
      match rest with
      | w :: _ =>
          if (c =? ch "#")%N && is_space w && nonempty (trim rest)
          then Some (trim rest)
          else None
      | [] => None
      end
  | [] => None
  end.

Fixpoint first_heading (ls : list jsstring) : option jsstring :=
  match ls with
  | [] => None
  | l :: ls' =>
      match heading_text l with
      | Some t => Some t
      | None => first_heading ls'
      end
  end.

(** A line that holds the marker and, after it, nothing but whitespace. *)
Definition bare_marker (line : jsstring) : bool :=
  match line with
  | c :: rest => (c =? ch "#")%N && forallb is_space rest
  | [] => false
  end.

(** The title as the specification words it. *)
Definition title_of (rt : runtime) (content relativePath : jsstring) : jsstring :=
  match first_heading (lines content) with
  | Some t => t
  | None =>
      map (fun c => if ((c =? ch "-") || (c =? ch "_"))%N then ch " " else c)
          (basename rt relativePath (js ".md"))
  end.

(** The collections the configuration names: slot, name, path and the
    text of the enabled flag. *)
Definition configured (env : environment) (i : nat)
  : option (jsstring * jsstring * option jsstring) :=
  match env (vault_key i "NAME"), env (vault_key i "PATH") with
  | Some name, Some path =>
      if nonempty name && nonempty path
      then Some (name, path, env (vault_key i "ENABLED"))
      else None
  | _, _ => None
  end.

(** The directories the specification keeps the scanner out of: the
    tool-internal directory and the version-control directory, by their
    exact names. *)
Definition tool_directories : list jsstring := [js ".obsidian"; js ".git"].

Definition tool_directory (name : jsstring) : bool := mem name tool_directories.

(** The file a position denotes: the indices of the entries to follow
    from the root, through directories that can be listed and are not
    tool directories, down to an entry that is not a directory and whose
    name ends in [.md]. *)
Fixpoint locate (rt : runtime) (dir : jsstring) (n : node) (p : list nat)
  : option (jsstring * node) :=
  match p, n with
  | i :: p', Dir (Some entries) =>
      match nth_error entries i with
      | Some (name, child) =>
          let fullPath := join rt dir name in
          match child, p' with
          | File _ _ _, [] =>
              if endsWith name (js ".md") then Some (fullPath, child) else None
          | Dir _, _ :: _ =>
              if tool_directory name then None else locate rt fullPath child p'
          | _, _ => None
          end
      | None => None
      end
  | _, _ => None
  end.

(** The position of the same file when one more entry precedes. *)
Definition shift (p : list nat) : list nat :=
  match p with
  | i :: p' => S i :: p'
  | [] => []
  end.

(** Every file a scan of [n] returns lies at one position of its own, and
    every position that denotes a file is returned. *)
Definition visits_once (rt : runtime) (dir : jsstring) (n : node) : Prop :=
  exists positions : list (list nat),
    NoDup positions /\
    (forall p, In p positions <-> locate rt dir n p <> None) /\
    map Some (fst (getMarkdownFiles rt dir n)) = map (locate rt dir n) positions.

Definition reachable (fs : filesystem) (v : VaultConfig) : bool :=
  match fs (Config.path v) with Some _ => true | None => false end.

(** The documents of one collection and of all reachable ones. *)
Definition vault_notes (rt : runtime) (fs : filesystem) (v : VaultConfig)
  : list VaultNote :=
  fst (parse_files rt v (fst (scan_root rt fs (Config.path v)))).

Definition scanned (rt : runtime) (fs : filesystem) (vs : list VaultConfig)
  : list VaultNote :=
  flat_map (vault_notes rt fs) (filter (reachable fs) vs).

(** The candidate collections of a search: all registered ones,
    restricted to the filter when it is not empty. *)
Definition candidates (m : MultiVaultManager) (collectionFilter : list jsstring)
  : list VaultConfig :=
  match collectionFilter with
  | [] => getAllVaults m
  | _ :: _ =>
      filter (fun v => mem (Config.name v) collectionFilter) (getAllVaults m)
  end.

(** The collection filter as a search receives it: the search command
    hands over [undefined] for the empty filter and the names
    otherwise. *)
Definition filter_option (collectionFilter : list jsstring)
  : option (list jsstring) :=
  match collectionFilter with
  | [] => None
  | _ :: _ => Some collectionFilter
  end.

(** The documents that pass the tag filter and the text filter. *)
Definition survivors (rt : runtime) (query : jsstring)
           (includeContent : option bool) (tagFilters : option (list jsstring))
           (notes : list VaultNote) : list VaultNote :=
  filter (fun note =>
            match tagFilters with
            | Some (t :: ts) => tag_matches rt (t :: ts) note
            | _ => true
            end &&
            (if nonempty query then text_matches rt includeContent query note
             else true))
         notes.

(** What the scan of one collection prints, and what a search and an
    index generation print over a list of collections. *)
Definition scan_log (rt : runtime) (fs : filesystem) (v : VaultConfig)
  : list log_entry :=
  snd (readVaultNotes rt v fs).

Definition search_log (rt : runtime) (fs : filesystem) (vs : list VaultConfig)
  : list log_entry :=
  flat_map (fun v => if reachable fs v then scan_log rt fs v
                     else [not_accessible (Config.name v)]) vs.

Definition index_log (rt : runtime) (fs : filesystem) (vs : list VaultConfig)
  : list log_entry :=
  flat_map (fun v => if reachable fs v then scan_log rt fs v else []) vs.

(** What one entry of a directory contributes to the scan. *)
Definition scan_entry (rt : runtime) (dir : jsstring) (e : jsstring * node)
  : list (jsstring * node) * list log_entry :=
  let '(name, child) := e in
  match child with
  | Dir _ =>
      if excluded name then ([], [])
      else getMarkdownFiles rt (join rt dir name) child
  | File _ _ _ =>
      if endsWith name (js ".md") then ([(join rt dir name, child)], [])
      else ([], [])
  end.

(** The topic table after the documents of the reachable collections
    among [vs], or the exception of the first tag that cannot be
    entered. *)
Fixpoint index_all (rt : runtime) (fs : filesystem) (vs : list VaultConfig)
         (topicIndex : list (jsstring * Topic.entry))
  : outcome (list (jsstring * Topic.entry)) :=
  match vs with
  | [] => Returned topicIndex
  | v :: vs' =>
      if reachable fs v then
        match index_notes (Config.name v) (vault_notes rt fs v) topicIndex with
        | Returned topicIndex' => index_all rt fs vs' topicIndex'
        | Thrown e => Thrown e
        end
      else index_all rt fs vs' topicIndex
  end.

Definition topic_counts (idx : Index.CrossVaultIndex) : list (jsstring * nat) :=
  map (fun te => (fst te, Topic.count (snd te))) (Index.topics idx).

Definition is_error (e : log_entry) : Prop := fst e = LogError.

Definition latest_first (a b : VaultNote) : Prop :=
  (Note.lastModified b <= Note.lastModified a)%Z.

Definition same_set (a b : list jsstring) : Prop :=
  forall t, In t a <-> In t b.

End Spec.

(** ** Worked examples *)

Module Examples.
Import SampleRuntime.

Definition quoted (s : string) : jsstring := DQ :: js s ++ [DQ].

Definition text (ls : list jsstring) : jsstring := join_with [NL] ls.

(** [["x", "y"]] and [["a","b"]] *)
Definition tags_xy : jsstring :=
  js "[" ++ quoted "x" ++ js ", " ++ quoted "y" ++ js "]".
Definition tags_ab : jsstring :=
  js "[" ++ quoted "a" ++ js "," ++ quoted "b" ++ js "]".

Definition hello_doc : jsstring :=
  text [js "---"; js "tags: " ++ tags_xy; js "---"; js "# Hello"; js "Body #z text"].

Definition frontmatter_ab (body : jsstring) : jsstring :=
  text [js "---"; js "tags: " ++ tags_ab; js "---"; body].


(** A registry with one slot that is configured but not enabled. *)
Definition env_disabled : environment :=
  fun k =>
    if str_eqb k (js "VAULT_1_NAME") then Some (js "Work")
    else if str_eqb k (js "VAULT_1_PATH") then Some (js "/work")
    else if str_eqb k (js "VAULT_1_ENABLED") then Some (js "false")
    else None.

(** Collections A and B next to the primary one. *)
Definition env_ab : environment :=
  fun k =>
    if str_eqb k (js "VAULT_1_NAME") then Some (js "A")
    else if str_eqb k (js "VAULT_1_PATH") then Some (js "/a")
    else if str_eqb k (js "VAULT_1_ENABLED") then Some (js "true")
    else if str_eqb k (js "VAULT_2_NAME") then Some (js "B")
    else if str_eqb k (js "VAULT_2_PATH") then Some (js "/b")
    else if str_eqb k (js "VAULT_2_ENABLED") then Some (js "true")
    else None.

Definition manager_ab : MultiVaultManager := new env_ab (js "/ghost").

Definition yesterday : Z := 1700000000000.
Definition today : Z := 1700086400000.

Definition one_note (name : string) (body : jsstring) (mtime : Z) : node :=
  Dir (Some [(js name, File (Some body) mtime (Z.of_nat (List.length body)))]).

(** A holds one document tagged [#work] of yesterday, B one tagged
    [#personal] of today; the primary collection is empty. *)
Definition disk_ab : filesystem :=
  fun p =>
    if str_eqb p (js "/ghost") then Some (Dir (Some []))
    else if str_eqb p (js "/a") then Some (one_note "plan.md" (js "#work") yesterday)
    else if str_eqb p (js "/b") then Some (one_note "diary.md" (js "#personal") today)
    else None.

(** The same, with the primary collection missing. *)
Definition disk_no_ghost : filesystem :=
  fun p => if str_eqb p (js "/ghost") then None else disk_ab p.



(** A search for everything in the collections a filter names. *)
Definition only (collectionFilter : list jsstring) : SearchOptions :=
  {| Options.includeContent := None; Options.tags := None;
     Options.vaults := Spec.filter_option collectionFilter;
     Options.limit := None |}.

End Examples.


(** ** The command line *)
Module Cli.

(** A whole number in a template string. *)
Definition number_text (n : Z) : jsstring :=
  js (NilEmpty.string_of_int (Z.to_int n)).

(** [getRelativeTime]; [now] is the reading of the clock and [date] the
    date shown, both in milliseconds as [getTime] gives them.  The
    quotients are those of whole numbers, which [Math.floor] of the
    floating quotient is for differences below 2^52 milliseconds. *)
Definition getRelativeTime (now date : Z) : jsstring :=
  let diffMs := (now - date)%Z in
  let diffDays := (diffMs / (1000 * 60 * 60 * 24))%Z in
  let diffHours := (diffMs / (1000 * 60 * 60))%Z in
  let diffMinutes := (diffMs / (1000 * 60))%Z in
  if (0 <? diffDays)%Z
  then number_text diffDays ++ js " day"
       ++ (if (1 <? diffDays)%Z then js "s" else []) ++ js " ago"
  else if (0 <? diffHours)%Z
  then number_text diffHours ++ js " hour"
       ++ (if (1 <? diffHours)%Z then js "s" else []) ++ js " ago"
  else if (0 <? diffMinutes)%Z
  then number_text diffMinutes ++ js " minute"
       ++ (if (1 <? diffMinutes)%Z then js "s" else []) ++ js " ago"
  else js "Just now".

(** The options the search command builds from its flags: [--content],
    [--tags], [--vaults] and [--limit], the last read by [parseInt]. *)
Definition searchOptions (parseInt : jsstring -> jsnumber) (content : bool)
           (tags vaults limit : jsstring) : SearchOptions :=
  {| Options.includeContent := Some content;
     Options.tags :=
       if nonempty tags then Some (map trim (split (ch ",") tags)) else None;
     Options.vaults :=
       if nonempty vaults then Some (map trim (split (ch ",") vaults)) else None;
     Options.limit := Some (parseInt limit) |}.

End Cli.

(** ** Recordings as notes *)
Module Obsidian.

Record Lifelog : Type := {
  id : jsstring;
  title : jsstring;
  markdown : option jsstring;
  startTime : jsstring;
  endTime : jsstring;
  isStarred : bool
}.

(** [/[^\w\s-]/g] and [/\s+/g] *)
Definition is_filename_char (c : char) : bool :=
  is_word c || is_space c || (c =? 45)%N.
Definition re_unsafe : regex := Cls (fun c => negb (is_filename_char c)).
Definition re_spaces : regex := Plus true is_space.

(** The title part of the file name in [generateObsidianFilename]. *)
Definition cleanTitle (title : jsstring) : jsstring :=
  firstn 60
    (trim (replace false true re_spaces (js " ")
             (replace false true re_unsafe [] title))).

(** The table of [extractTopics], in the order [Object.entries] lists it. *)
Definition topicKeywords : list (jsstring * list jsstring) :=
  [(js "Business",
    map js ["business"; "venture"; "entrepreneur"; "startup"; "revenue"; "profit"]%string);
   (js "AI",
    map js ["ai"; "artificial intelligence"; "machine learning"; "automation";
            "chatbot"]%string);
   (js "Marketing",
    map js ["marketing"; "sales"; "lead"; "customer"; "conversion"]%string);
   (js "Technology",
    map js ["software"; "app"; "website"; "code"; "development"; "api"]%string);
   (js "Meeting",
    map js ["meeting"; "call"; "discussion"; "client"; "team"]%string);
   (js "Ideas",
    map js ["idea"; "concept"; "plan"; "strategy"; "vision"]%string);
   (js "Content",
    map js ["content"; "video"; "podcast"; "blog"; "social media"]%string);
   (js "Lead Generation",
    map js ["lead generation"; "leads"; "prospects"; "automation"]%string);
   (js "Productivity",
    map js ["productivity"; "efficiency"; "workflow"; "system"]%string);
   (js "Learning",
    map js ["learn"; "study"; "research"; "knowledge"; "education"]%string)].

Section WithRuntime.
Variable rt : runtime.

(** The text [extractTopics] looks into. *)
Definition topic_text (lifelog : Lifelog) : jsstring :=
  toLowerCase rt
    (title lifelog ++ js " " ++
     match markdown lifelog with Some m => m | None => [] end).

Definition extractTopics (lifelog : Lifelog) : list jsstring :=
  let content := topic_text lifelog in
  let topics :=
    fold_left
      (fun topics (entry : jsstring * list jsstring) =>
         let '(topic, keywords) := entry in
         if existsb (fun keyword => includes content keyword) keywords
         then topics ++ [topic] else topics)
      topicKeywords [] in
  firstn 5 (fold_left set_add topics []).

End WithRuntime.

End Obsidian.

(** ** The client of the recording service *)
Module Limitless.
Import Obsidian.

Inductive Direction : Type := asc | desc.

(** Numbers are whole numbers here: limits, counts and result bounds. *)
Record LifelogsSearchParams : Type := {
  date : option jsstring;
  start : option jsstring;
  end_ : option jsstring;
  timezone : option jsstring;
  search : option jsstring;
  limit : option Z;
  direction : option Direction;
  cursor : option jsstring;
  includeMarkdown : option bool;
  includeHeadings : option bool;
  includeContents : option bool
}.

(** A response as its type declares it: [data.lifelogs],
    [meta.lifelogs.nextCursor] and [meta.lifelogs.count]. *)
Record LifelogsResponse : Type := {
  lifelogs : list Lifelog;
  nextCursor : option jsstring;
  count : Z
}.

Record ApiError : Type := {
  message : jsvalue;
  status : option Z;
  retryAfter : option jsnumber
}.

(** What the HTTP library rejects with: a message and, when the server
    answered, the status, the [retry-after] header and the parsed body. *)
Record ErrorResponse : Type := {
  response_status : Z;
  retry_after_header : option jsstring;
  response_data : option jsvalue
}.

Record AxiosError : Type := {
  error_message : jsstring;
  response : option ErrorResponse
}.

(** A thrown value: an instance of [Error], or an object literal. *)
Inductive thrown : Type :=
| ErrorInstance (e : ApiError)
| ObjectLiteral (e : ApiError).

Definition unexpected : ApiError :=
  {| message := JStr (js "An unexpected error occurred");
     status := None; retryAfter := None |}.

Definition handleError (error : thrown) : ApiError :=
  match error with
  | ErrorInstance e => e
  | ObjectLiteral _ => unexpected
  end.

(** [!x] for an optional string *)
Definition absent (x : option jsstring) : bool :=
  match x with
  | Some s => negb (nonempty s)
  | None => true
  end.

(** [data.message] of a parsed body *)
Definition body_message (data : jsvalue) : option jsvalue :=
  match data with
  | JObj fields => assoc (js "message") fields
  | _ => None
  end.

Definition is_object (v : jsvalue) : bool :=
  match v with
  | JNull | JArr _ | JObj _ => true
  | _ => false
  end.

Section WithTransport.
(** [parseInt] with radix ten, the state of the network and the server,
    and one GET of [/lifelogs] with its query parameters. *)
Variable parseInt : jsstring -> jsnumber.
Variable World : Type.
Variable transport :
  World -> LifelogsSearchParams -> (AxiosError + LifelogsResponse) * World.

(** The error handler installed on the responses by the constructor. *)
Definition intercept (error : AxiosError) : ApiError :=
  let apiError :=
    {| message := JStr (if nonempty (error_message error)
                        then error_message error
                        else js "Unknown error occurred");
       status := None; retryAfter := None |} in
  match response error with
  | Some r =>
      let apiError :=
        {| message := message apiError;
           status := Some (response_status r);
           retryAfter := retryAfter apiError |} in
      if (response_status r =? 429)%Z then
        let apiError :=
          match retry_after_header r with
          | Some h =>
              if nonempty h
              then {| message := message apiError; status := status apiError;
                      retryAfter := Some (parseInt h) |}
              else apiError
          | None => apiError
          end in
        {| message :=
             JStr (js "Rate limit exceeded. Retry after " ++
                   match retryAfter apiError with
                   | Some (Int n) =>
                       if (n =? 0)%Z then js "a few" else Cli.number_text n
                   | _ => js "a few"
                   end ++ js " seconds.");
           status := status apiError; retryAfter := retryAfter apiError |}
      else if (response_status r =? 401)%Z then
        {| message := JStr (js "Invalid API key. Please check your credentials.");
           status := status apiError; retryAfter := retryAfter apiError |}
      else if (response_status r =? 404)%Z then
        {| message := JStr (js "Resource not found.");
           status := status apiError; retryAfter := retryAfter apiError |}
      else
        match response_data r with
        | Some data =>
            if truthy data && is_object data
            then {| message :=
                      match body_message data with
                      | Some v => if truthy v then v else message apiError
                      | None => message apiError
                      end;
                    status := status apiError; retryAfter := retryAfter apiError |}
            else apiError
        | None => apiError
        end
  | None => apiError
  end.

(** [this.client.get('/lifelogs', { params })]: a failure goes through the
    handler, which throws the object it builds. *)
Definition client_get (w : World) (params : LifelogsSearchParams)
  : (thrown + LifelogsResponse) * World :=
  match transport w params with
  | (inl error, w') => (inl (ObjectLiteral (intercept error)), w')
  | (inr r, w') => (inr r, w')
  end.

(** The query parameters [searchLifelogs] sends. *)
Definition with_defaults (params : LifelogsSearchParams) : LifelogsSearchParams :=
  {| date := date params; start := start params; end_ := end_ params;
     timezone := timezone params; search := search params;
     limit := Some (Z.min (match limit params with
                           | Some l => if (l =? 0)%Z then 3 else l
                           | None => 3
                           end) 10);
     direction := Some (match direction params with Some d => d | None => desc end);
     cursor := cursor params;
     includeMarkdown :=
       Some (match includeMarkdown params with Some false => false | _ => true end);
     includeHeadings :=
       Some (match includeHeadings params with Some false => false | _ => true end);
     includeContents :=
       Some (match includeContents params with Some b => b | None => false end) |}.

Definition searchLifelogs (w : World) (params : LifelogsSearchParams)
  : (ApiError + LifelogsResponse) * World :=
  match client_get w (with_defaults params) with
  | (inl error, w') => (inl (handleError error), w')
  | (inr r, w') => (inr r, w')
  end.

(** [{ ...params, cursor, limit }] *)
Definition page_request (params : LifelogsSearchParams)
           (cursor : option jsstring) (limit : Z) : LifelogsSearchParams :=
  {| date := date params; start := start params; end_ := end_ params;
     timezone := timezone params; search := search params;
     limit := Some limit; direction := direction params; cursor := cursor;
     includeMarkdown := includeMarkdown params;
     includeHeadings := includeHeadings params;
     includeContents := includeContents params |}.

(** The result of a run: what is returned or thrown, the state of the
    network afterwards and the query parameters sent, in order. *)
Definition run_result : Type :=
  (ApiError + list Lifelog) * World * list LifelogsSearchParams.

(** The loop of [getAllLifelogs]; [None] when [fuel] turns are not enough. *)
Fixpoint fetch_pages (fuel : nat) (w : World) (params : LifelogsSearchParams)
         (maxResults : Z) (allLifelogs : list Lifelog)
         (cursor : option jsstring) (totalFetched : Z) : option run_result :=
  if (totalFetched <? maxResults)%Z then
    match fuel with
    | O => None
    | S fuel' =>
        let remaining := (maxResults - totalFetched)%Z in
        let limit := Z.min remaining 10 in
        let request := page_request params cursor limit in
        match searchLifelogs w request with
        | (inl error, w') => Some (inl error, w', [with_defaults request])
        | (inr response, w') =>
            let allLifelogs := allLifelogs ++ lifelogs response in
            let totalFetched :=
              (totalFetched + Z.of_nat (List.length (lifelogs response)))%Z in
            let cursor := nextCursor response in
            if absent cursor || Nat.eqb (List.length (lifelogs response)) 0
            then Some (inr allLifelogs, w', [with_defaults request])
            else
              match fetch_pages fuel' w' params maxResults allLifelogs
                                cursor totalFetched with
              | Some (r, w'', sent) => Some (r, w'', with_defaults request :: sent)
              | None => None
              end
        end
    end
  else Some (inr allLifelogs, w, []).

(** Every turn but the last fetches at least one recording, so
    [maxResults] turns are enough. *)
Definition getAllLifelogs (w : World) (params : LifelogsSearchParams)
           (maxResults : Z) : option run_result :=
  fetch_pages (Z.to_nat maxResults) w params maxResults [] None 0.

End WithTransport.

End Limitless.

(** ** Words for the further properties *)

Module Describe.

(** The tag one front-matter value, one inline match and one wiki-link
    match contribute, if any. *)
Definition pick_frontmatter_tag (tag : jsvalue) : option jsstring :=
  match tag with
  | JStr s => Some (replace false false re_leading_hash [] s)
  | _ => None
  end.

Definition pick_inline_tag (m : rmatch) : option jsstring := Some (trim (cap 1 m)).

Definition pick_wikilink (m : rmatch) : option jsstring :=
  if negb (includes (cap 1 m) (js ".")) && negb (includes (cap 1 m) (js "/"))
  then Some (cap 1 m) else None.

(** A string without one leading [#]. *)
Definition strip_marker (s : jsstring) : jsstring :=
  match s with
  | c :: r => if (c =? ch "#")%N then r else s
  | [] => []
  end.

(** The content of a file that can be read. *)
Definition readable_content (f : jsstring * node) : list jsstring :=
  match snd f with
  | File (Some content) _ _ => [content]
  | _ => []
  end.

Definition stats_entry (rt : runtime) (fs : filesystem) (v : VaultConfig)
  : Stats.entry :=
  {| Stats.noteCount := List.length (Spec.vault_notes rt fs v);
     Stats.totalSize := sum_sizes (Spec.vault_notes rt fs v) |}.

(** The statistics table after the collections [vs]. *)
Definition stats_after (rt : runtime) (fs : filesystem) (vs : list VaultConfig)
           (stats : list (jsstring * Stats.entry)) : list (jsstring * Stats.entry) :=
  fold_left (fun stats v =>
               if Spec.reachable fs v
               then stats_set stats (Config.name v) (stats_entry rt fs v)
               else stats)
            vs stats.

(** The documents that carry a tag. *)
Definition carriers (tag : jsstring) (notes : list VaultNote) : list VaultNote :=
  filter (fun note => mem tag (Note.tags note)) notes.

(** What the topic table says of one tag, set against a list of
    documents: a row with their number and the collections they come
    from, or no row when none carries the tag. *)
Definition topic_view (tag : jsstring) (notes : list VaultNote)
           (topics : list (jsstring * Topic.entry)) : Prop :=
  match assoc tag topics with
  | Some e =>
      Topic.count e = List.length (carriers tag notes) /\
      0 < Topic.count e /\
      NoDup (Topic.vaults e) /\
      forall name, In name (Topic.vaults e) <->
                   exists note, In note (carriers tag notes) /\ Note.vault note = name
  | None => carriers tag notes = []
  end.

(** The length of a unit of time in milliseconds. *)
Definition unit_span (unit : string) : Z :=
  if String.eqb unit "day"%string then 86400000
  else if String.eqb unit "hour"%string then 3600000
  else 60000.

(** A number of units ago, in words. *)
Definition phrase (n : Z) (unit : string) : jsstring :=
  Cli.number_text n ++ js " " ++ js unit
  ++ (if (n =? 1)%Z then [] else js "s") ++ js " ago".

(** Every run of white space replaced by one space; [in_run] tells that
    the character before was white space. *)
Fixpoint squeeze (in_run : bool) (s : jsstring) : jsstring :=
  match s with
  | [] => []
  | c :: s' =>
      if is_space c
      then (if in_run then squeeze true s' else ch " " :: squeeze true s')
      else c :: squeeze false s'
  end.

(** Two white-space characters side by side. *)
Fixpoint double_space (s : jsstring) : bool :=
  match s with
  | a :: s' =>
      match s' with
      | b :: _ => is_space a && is_space b || double_space s'
      | [] => false
      end
  | [] => false
  end.

(** The topics of the table with a keyword in the text, in table order. *)
Definition matching_topics (content : jsstring) : list jsstring :=
  map fst (filter (fun entry : jsstring * list jsstring =>
                     existsb (fun keyword => includes content keyword) (snd entry))
                  Obsidian.topicKeywords).

(** A page request the service accepts: a limit from one to ten, within
    the bound on the results. *)
Definition page_limit_ok (maxResults : Z) (q : Limitless.LifelogsSearchParams)
  : Prop :=
  exists l, Limitless.limit q = Some l /\ (1 <= l <= 10)%Z /\ (l <= maxResults)%Z.

(** A service for the examples: it answers every request with as many
    copies of one recording as the request asks for, and always names a
    next page. *)
Definition a_recording : Obsidian.Lifelog :=
  {| Obsidian.id := js "rec-1";
     Obsidian.title := js "Team meeting";
     Obsidian.markdown := Some (js "We went through the plan.");
     Obsidian.startTime := js "2024-01-15T10:00:00Z";
     Obsidian.endTime := js "2024-01-15T10:30:00Z";
     Obsidian.isStarred := false |}.

Definition generous_service (served : nat) (q : Limitless.LifelogsSearchParams)
  : (Limitless.AxiosError + Limitless.LifelogsResponse) * nat :=
  match Limitless.limit q with
  | Some l =>
      (inr {| Limitless.lifelogs := repeat a_recording (Z.to_nat l);
              Limitless.nextCursor := Some (js "next");
              Limitless.count := l |}, S served)
  | None =>
      (inl {| Limitless.error_message := js "Bad Request";
              Limitless.response := None |}, S served)
  end.

Definition any_recordings : Limitless.LifelogsSearchParams :=
  {| Limitless.date := None; Limitless.start := None; Limitless.end_ := None;
     Limitless.timezone := None; Limitless.search := None;
     Limitless.limit := None; Limitless.direction := None;
     Limitless.cursor := None; Limitless.includeMarkdown := None;
     Limitless.includeHeadings := None; Limitless.includeContents := None |}.

(** A string without a quote at its start and without a quote at its
    end. *)
Definition strip_first_quote (s : jsstring) : jsstring :=
  match s with
  | c :: r => if is_quote c then r else s
  | [] => []
  end.

Fixpoint strip_last_quote (s : jsstring) : jsstring :=
  match s with
  | [] => []
  | c :: r =>
      match r with
      | [] => if is_quote c then [] else [c]
      | _ :: _ => c :: strip_last_quote r
      end
  end.

Definition unquote (s : jsstring) : jsstring :=
  strip_last_quote (strip_first_quote s).

End Describe.

Import Examples SampleRuntime.

(** * Properties *)

Unset Implicit Arguments.

(** ** Strings *)

Lemma str_eqb_eq (a b : jsstring) : str_eqb a b = true <-> a = b.
Proof.
  revert b; induction a as [|x a IH]; intros [|y b]; simpl; split;
    try discriminate; try reflexivity.
  - intros H. apply andb_true_iff in H as [Hx Ha].
    apply N.eqb_eq in Hx. apply IH in Ha. congruence.
  - intros H. injection H as -> ->.
    rewrite N.eqb_refl. simpl. now apply IH.
Qed.

Lemma str_eqb_refl (a : jsstring) : str_eqb a a = true.
Proof. now apply str_eqb_eq. Qed.

Lemma mem_In (x : jsstring) (l : list jsstring) : mem x l = true <-> In x l.
Proof.
  induction l as [|y l IH]; simpl.
  - split; [discriminate | tauto].
  - rewrite orb_true_iff, str_eqb_eq, IH. split; intros [H|H]; auto.
Qed.

(** ** Document parser *)

(** The front-matter of the example document, whatever [JSON.parse] does
    elsewhere. *)
Lemma frontmatter_of_hello (rt : runtime) :
  JSON_parse rt tags_xy = Some (JArr [JStr (js "x"); JStr (js "y")]) ->
  extractFrontmatter rt hello_doc =
  {| own := [(js "tags", JArr [JStr (js "x"); JStr (js "y")])];
     proto := ObjectPrototype |}.
Proof.
  intros H.
  assert (E : extractFrontmatter rt hello_doc =
              match JSON_parse rt tags_xy with
              | Some v => fm_set empty_frontmatter (js "tags") v
              | None => fm_set empty_frontmatter (js "tags") (JStr tags_xy)
              end) by (vm_compute; reflexivity).
  rewrite E, H. reflexivity.
Qed.

(** C1, as stated, fails: the tags of the example document are not
    [{x, y, z}]; [z] is not even among them. *)
Lemma hello_tags_are_not_xyz :
  ~ Spec.same_set
      (extractTags hello_doc (extractFrontmatter sample hello_doc))
      [js "x"; js "y"; js "z"].
Proof.
  intros H.
  assert (Hz : In (js "z")
                  (extractTags hello_doc (extractFrontmatter sample hello_doc)))
    by (apply H; simpl; auto).
  vm_compute in Hz.
  repeat (destruct Hz as [Hz|Hz]; [discriminate Hz|]).
  exact Hz.
Qed.

(** C1 (amended): the document [---\ntags: ["x", "y"]\n---\n# Hello\nBody #z text]
    has the title [Hello] and, in insertion order, the tags [x], [y],
    [Hello\nBody] and [z text]: an inline tag runs over letters, digits,
    [_], [-] and any whitespace, line breaks included. *)
Theorem hello_document_tags_and_title (rt : runtime) (relativePath : jsstring) :
  JSON_parse rt tags_xy = Some (JArr [JStr (js "x"); JStr (js "y")]) ->
  extractTags hello_doc (extractFrontmatter rt hello_doc) =
    [js "x"; js "y"; text [js "Hello"; js "Body"]; js "z text"] /\
  extractTitle rt hello_doc relativePath = js "Hello".
Proof.
  intros H. split.
  - rewrite (frontmatter_of_hello rt H). vm_compute. reflexivity.
  - vm_compute. reflexivity.
Qed.

Lemma hello_document_tags_and_title_witness :
  JSON_parse sample tags_xy = Some (JArr [JStr (js "x"); JStr (js "y")]) /\
  extractTags hello_doc (extractFrontmatter sample hello_doc) =
    [js "x"; js "y"; text [js "Hello"; js "Body"]; js "z text"] /\
  extractTitle sample hello_doc (js "notes/hello.md") = js "Hello".
Proof.
  split; [reflexivity|].
  apply (hello_document_tags_and_title sample (js "notes/hello.md")).
  reflexivity.
Defined.

(** ** Matching *)

Lemma many_shift (ml : bool) (R1 R2 : Type) (greedy : bool) (p : char -> bool)
      (k1 : cont R1) (k2 : cont R2) :
  (forall rest p1 p2 a b c1 c2,
      is_some (k1 p1 a rest c1) = is_some (k2 p2 b rest c2)) ->
  forall rest p1 p2 a b c1 c2,
    is_some (many greedy p p1 a rest c1 k1) = is_some (many greedy p p2 b rest c2 k2).
Proof.
  intros Hk rest. induction rest as [|c rest IH]; intros p1 p2 a b c1 c2.
  - cbn [many]. specialize (Hk [] p1 p2 a b c1 c2).
    destruct greedy; destruct (k1 p1 a [] c1), (k2 p2 b [] c2); cbn in *; congruence.
  - cbn [many]. specialize (Hk (c :: rest) p1 p2 a b c1 c2).
    specialize (IH (Some c) (Some c) (S a) (S b) c1 c2).
    destruct greedy; destruct (p c);
      destruct (many _ p (Some c) (S a) rest c1 k1),
               (many _ p (Some c) (S b) rest c2 k2),
               (k1 p1 a (c :: rest) c1), (k2 p2 b (c :: rest) c2);
      cbn in *; congruence.
Qed.

Lemma run_shift (ml : bool) (r : regex) :
  bol_free r = true ->
  forall (R1 R2 : Type) (k1 : cont R1) (k2 : cont R2),
    (forall rest p1 p2 a b c1 c2,
        is_some (k1 p1 a rest c1) = is_some (k2 p2 b rest c2)) ->
    forall rest p1 p2 a b c1 c2,
      is_some (run ml r p1 a rest c1 k1) = is_some (run ml r p2 b rest c2 k2).
Proof.
  induction r as [|p| | |r1 IH1 r2 IH2|r1 IH1 r2 IH2|i r1 IH1|g p];
    intros Hb R1 R2 k1 k2 Hk rest p1 p2 a b c1 c2; cbn [run bol_free] in *.
  - apply Hk.
  - destruct rest as [|c rest]; [reflexivity|]. destruct (p c); [apply Hk|reflexivity].
  - discriminate Hb.
  - destruct (at_eol ml rest); [apply Hk|reflexivity].
  - apply andb_true_iff in Hb as [Hb1 Hb2].
    apply (IH1 Hb1). intros. now apply (IH2 Hb2).
  - apply andb_true_iff in Hb as [Hb1 Hb2].
    specialize (IH1 Hb1 R1 R2 k1 k2 Hk rest p1 p2 a b c1 c2).
    specialize (IH2 Hb2 R1 R2 k1 k2 Hk rest p1 p2 a b c1 c2).
    destruct (run ml r1 p1 a rest c1 k1), (run ml r1 p2 b rest c2 k2);
      cbn in *; congruence.
  - apply (IH1 Hb). intros. apply Hk.
  - now apply many_shift.
Qed.

Lemma match_at_shift (ml : bool) (r : regex) (rest : jsstring)
      (p1 p2 : option char) (a b : nat) :
  bol_free r = true ->
  is_some (match_at ml r p1 a rest) = is_some (match_at ml r p2 b rest).
Proof.
  intros Hb. unfold match_at. now apply run_shift.
Qed.

(** An expression without [^] that matches nowhere in a text matches
    nowhere in it when the text follows another. *)
Lemma scan_nil_shift (ml : bool) (r : regex) :
  bol_free r = true ->
  forall rest p1 p2 a b,
    scan ml r p1 a rest 0 = [] -> scan ml r p2 b rest 0 = [].
Proof.
  intros Hb rest. induction rest as [|c rest IH]; intros p1 p2 a b H;
    cbn [scan] in *.
  - pose proof (match_at_shift ml r [] p1 p2 a b Hb) as E.
    destruct (match_at ml r p1 a []); [discriminate|].
    now destruct (match_at ml r p2 b []).
  - pose proof (match_at_shift ml r (c :: rest) p1 p2 a b Hb) as E.
    destruct (match_at ml r p1 a (c :: rest)); [discriminate|].
    destruct (match_at ml r p2 b (c :: rest)); [discriminate|].
    now apply (IH (Some c) (Some c) (S a) (S b)).
Qed.

(** The front-matter block of [frontmatter_ab] holds no [#] and no [[[],
    so both tag expressions start looking in the body. *)
Lemma inline_tags_of_frontmatter_ab (body : jsstring) :
  matchAll false re_inline_tag body = [] ->
  matchAll false re_inline_tag (frontmatter_ab body) = [].
Proof.
  intros H. unfold matchAll in *.
  assert (E : scan false re_inline_tag None 0 (frontmatter_ab body) 0 =
              scan false re_inline_tag (Some NL) 24 body 0)
    by reflexivity.
  rewrite E. now apply (scan_nil_shift false re_inline_tag eq_refl body None _ 0).
Qed.

Lemma wikilinks_of_frontmatter_ab (body : jsstring) :
  matchAll false re_wikilink body = [] ->
  matchAll false re_wikilink (frontmatter_ab body) = [].
Proof.
  intros H. unfold matchAll in *.
  assert (E : scan false re_wikilink None 0 (frontmatter_ab body) 0 =
              scan false re_wikilink (Some NL) 24 body 0)
    by reflexivity.
  rewrite E. now apply (scan_nil_shift false re_wikilink eq_refl body None _ 0).
Qed.

Lemma frontmatter_of_frontmatter_ab (rt : runtime) (body : jsstring) :
  JSON_parse rt tags_ab = Some (JArr [JStr (js "a"); JStr (js "b")]) ->
  extractFrontmatter rt (frontmatter_ab body) =
  {| own := [(js "tags", JArr [JStr (js "a"); JStr (js "b")])];
     proto := ObjectPrototype |}.
Proof.
  intros H.
  assert (E : extractFrontmatter rt (frontmatter_ab body) =
              match JSON_parse rt tags_ab with
              | Some v => fm_set empty_frontmatter (js "tags") v
              | None => fm_set empty_frontmatter (js "tags") (JStr tags_ab)
              end) by (vm_compute; reflexivity).
  rewrite E, H. reflexivity.
Qed.

(** A document made of the front-matter [tags: ["a","b"]] alone and a
    body in which neither the inline-tag expression nor the wiki-link
    expression matches has the tags [a] and [b]: the one line of the block
    gives neither expression anything to match. *)
Lemma tags_line_alone_leaves_it_to_the_body (rt : runtime) (body : jsstring) :
  JSON_parse rt tags_ab = Some (JArr [JStr (js "a"); JStr (js "b")]) ->
  matchAll false re_inline_tag body = [] ->
  matchAll false re_wikilink body = [] ->
  extractTags (frontmatter_ab body) (extractFrontmatter rt (frontmatter_ab body))
    = [js "a"; js "b"].
Proof.
  intros Hj Hi Hw.
  rewrite (frontmatter_of_frontmatter_ab rt body Hj). unfold extractTags.
  rewrite (inline_tags_of_frontmatter_ab body Hi).
  rewrite (wikilinks_of_frontmatter_ab body Hw). reflexivity.
Qed.




(** ** Titles *)

Lemma line_terminator_is_space (c : char) :
  is_line_terminator c = true -> is_space c = true.
Proof.
  unfold is_line_terminator, is_space. intros H.
  repeat (apply orb_true_iff in H as [H|H]); apply N.eqb_eq in H; subst; reflexivity.
Qed.

Lemma not_space_is_dot (c : char) : is_space c = false -> is_dot c = true.
Proof.
  intros H. unfold is_dot. destruct (is_line_terminator c) eqn:E; [|reflexivity].
  apply line_terminator_is_space in E. congruence.
Qed.

Lemma many_greedy_stop (R : Type) (p : char -> bool) (k : cont R)
      (l tail : jsstring) (cs : captures) (r : R) :
  forallb p l = true -> stops p tail = true ->
  forall prev pos,
    k (last_seen l prev) (pos + List.length l) tail cs = Some r ->
    many true p prev pos (l ++ tail) cs k = Some r.
Proof.
  intros Hl Ht. induction l as [|c l IH]; intros prev pos Hk.
  - cbn [app List.length last_seen fold_left] in *. rewrite Nat.add_0_r in Hk.
    destruct tail as [|c tail]; cbn [many]; [exact Hk|].
    cbn [stops] in Ht. apply negb_true_iff in Ht. now rewrite Ht.
  - cbn [forallb] in Hl. apply andb_true_iff in Hl as [Hc Hl].
    cbn [app many]. rewrite Hc. rewrite (IH Hl (Some c) (S pos)); [reflexivity|].
    cbn [List.length last_seen fold_left] in Hk.
    now rewrite Nat.add_succ_r in Hk.
Qed.

Lemma firstn_exact {A : Type} (l t : list A) : firstn (List.length l) (l ++ t) = l.
Proof. induction l as [|x l IH]; cbn; [reflexivity|now rewrite IH]. Qed.

Lemma stops_dot_eol (tail : jsstring) : stops is_dot tail = true -> at_eol true tail = true.
Proof.
  destruct tail as [|c tail]; cbn; [reflexivity|].
  unfold is_dot. now rewrite negb_involutive.
Qed.

(** At the start of a line that is a heading, the expression matches and
    captures what follows the whitespace after the marker. *)
Lemma h1_matches_heading (prev : option char) (pos : nat) (w d : char)
      (ws rem tail : jsstring) :
  at_bol true prev = true ->
  is_space w = true -> forallb is_space ws = true ->
  is_space d = false -> forallb is_dot rem = true -> stops is_dot tail = true ->
  exists m,
    match_at true re_h1 prev pos (ch "#" :: w :: ws ++ (d :: rem) ++ tail) = Some m /\
    cap 1 m = d :: rem.
Proof.
  intros Hb Hw Hws Hd Hrem Ht.
  eexists. split.
  - unfold match_at, re_h1, Chr, Plus. cbn [run]. rewrite Hb, N.eqb_refl, Hw.
    apply many_greedy_stop; [exact Hws|cbn [app stops]; now rewrite Hd|].
    cbn [app run]. rewrite (not_space_is_dot d Hd).
    apply many_greedy_stop; [exact Hrem|exact Ht|].
    rewrite (stops_dot_eol tail Ht). reflexivity.
  - unfold cap. cbn [m_caps capture Nat.eqb].
    replace (S (S (S pos) + List.length ws) + List.length rem
             - (S (S pos) + List.length ws)) with (List.length (d :: rem))
      by (cbn [List.length]; lia).
    apply (firstn_exact (d :: rem) tail).
Qed.

Lemma h1_needs_line_start (prev : option char) (pos : nat) (rest : jsstring) :
  at_bol true prev = false -> match_at true re_h1 prev pos rest = None.
Proof.
  intros H. unfold match_at, re_h1. cbn [run]. now rewrite H.
Qed.

Lemma h1_needs_marker (prev : option char) (pos : nat) (c : char) (rest : jsstring) :
  (c =? ch "#")%N = false -> match_at true re_h1 prev pos (c :: rest) = None.
Proof.
  intros H. unfold match_at, re_h1, Chr. cbn [run].
  rewrite N.eqb_sym, H. now destruct (at_bol true prev).
Qed.

Lemma h1_needs_space (prev : option char) (pos : nat) (w : char) (rest : jsstring) :
  is_space w = false -> match_at true re_h1 prev pos (ch "#" :: w :: rest) = None.
Proof.
  intros H. unfold match_at, re_h1, Chr, Plus. cbn [run].
  rewrite N.eqb_refl, H. now destruct (at_bol true prev).
Qed.

Lemma h1_nil (prev : option char) (pos : nat) :
  match_at true re_h1 prev pos [] = None.
Proof.
  unfold match_at, re_h1, Chr. cbn [run]. now destruct (at_bol true prev).
Qed.

Lemma lines_nonempty (s : jsstring) : Spec.lines s <> [].
Proof.
  induction s as [|c s IH]; cbn; [discriminate|].
  destruct (Spec.lines s); [contradiction|].
  now destruct (is_line_terminator c).
Qed.

(** A text is its first line and, when the line is ended, the text after
    the line terminator. *)
Lemma line_split (s : jsstring) :
  exists line tail,
    s = line ++ tail /\ forallb is_dot line = true /\
    (tail = [] /\ Spec.lines s = [line] \/
     exists c s', tail = c :: s' /\ is_line_terminator c = true /\
                  Spec.lines s = line :: Spec.lines s').
Proof.
  induction s as [|c s (line & tail & Es & Hl & Ht)].
  - exists [], []. repeat split. now left.
  - destruct (is_line_terminator c) eqn:Ec.
    + exists [], (c :: s). repeat split. right. exists c, s. repeat split; [exact Ec|].
      cbn [Spec.lines]. rewrite Ec.
      pose proof (lines_nonempty s). now destruct (Spec.lines s).
    + exists (c :: line), tail. split; [cbn; now rewrite <- Es|].
      split; [cbn [forallb]; unfold is_dot at 1; now rewrite Ec, Hl|].
      cbn [Spec.lines]. rewrite Ec.
      destruct Ht as [(-> & E)|(c' & s' & -> & Hc' & E)]; rewrite E.
      * now left.
      * right. now exists c', s'.
Qed.

Lemma trimStart_split (l : jsstring) :
  exists ws, l = ws ++ trimStart l /\ forallb is_space ws = true.
Proof.
  induction l as [|c l (ws & E & H)]; [now exists []|].
  cbn [trimStart]. destruct (is_space c) eqn:Ec.
  - exists (c :: ws). split; [cbn; now rewrite <- E|cbn; now rewrite Ec].
  - now exists [].
Qed.

Lemma trimStart_head (l : jsstring) :
  match trimStart l with [] => forallb is_space l = true | c :: _ => is_space c = false end.
Proof.
  induction l as [|c l IH]; [reflexivity|]. cbn [trimStart forallb].
  destruct (is_space c) eqn:Ec; [|exact Ec].
  destruct (trimStart l); [exact IH|exact IH].
Qed.

Lemma trimStart_keeps (x y : jsstring) (c : char) :
  is_space c = false -> trimStart (x ++ c :: y) <> [].
Proof.
  intros H. induction x as [|a x IH]; cbn [app trimStart].
  - now rewrite H.
  - destruct (is_space a); [exact IH|discriminate].
Qed.

Lemma trimEnd_keeps (c : char) (l : jsstring) :
  is_space c = false -> trimEnd (c :: l) <> [].
Proof.
  intros H E. unfold trimEnd in E. cbn [rev] in E.
  apply (f_equal (@rev char)) in E. rewrite rev_involutive in E. cbn in E.
  now apply (trimStart_keeps (rev l) [] c H).
Qed.

Lemma terminator_is_not_marker (c : char) :
  is_line_terminator c = true -> (c =? ch "#")%N = false.
Proof.
  unfold is_line_terminator. intros H.
  repeat (apply orb_true_iff in H as [H|H]); apply N.eqb_eq in H; subst; reflexivity.
Qed.

(** What the expression does at the start of a line that is not a bare
    marker. *)
Lemma h1_at_line_start (line tail : jsstring) (prev : option char) (pos : nat) :
  at_bol true prev = true -> forallb is_dot line = true ->
  stops is_dot tail = true -> Spec.bare_marker line = false ->
  match Spec.heading_text line with
  | Some t =>
      exists m, match_at true re_h1 prev pos (line ++ tail) = Some m /\
                trim (cap 1 m) = t
  | None => match_at true re_h1 prev pos (line ++ tail) = None
  end.
Proof.
  intros Hb Hl Ht Hbare. destruct line as [|c line].
  - cbn [Spec.heading_text app]. destruct tail as [|x tail]; [apply h1_nil|].
    apply h1_needs_marker, terminator_is_not_marker.
    cbn [stops] in Ht. unfold is_dot in Ht. now rewrite negb_involutive in Ht.
  - destruct (c =? ch "#")%N eqn:Ec.
    + apply N.eqb_eq in Ec. subst c. destruct line as [|w line].
      * discriminate Hbare.
      * cbn [Spec.heading_text Spec.bare_marker] in *. rewrite N.eqb_refl in *.
        cbn [andb] in *. destruct (is_space w) eqn:Ew.
        -- cbn [forallb] in Hbare. rewrite Ew in Hbare. cbn [andb] in *.
           assert (Et : trimStart (w :: line) = trimStart line)
             by (cbn [trimStart]; now rewrite Ew).
           destruct (trimStart_split line) as (ws & El & Hws).
           pose proof (trimStart_head line) as Hh.
           destruct (trimStart line) as [|d rem] eqn:Er; [congruence|].
           assert (Etrim : trim (w :: line) = trimEnd (d :: rem))
             by (unfold trim; now rewrite Et).
           rewrite Etrim.
           destruct (nonempty (trimEnd (d :: rem))) eqn:En.
           ++ assert (Hrem : forallb is_dot rem = true).
              { cbn [forallb] in Hl. rewrite El in Hl.
                rewrite !andb_true_iff, forallb_app in Hl. cbn [forallb] in Hl.
                rewrite !andb_true_iff in Hl. tauto. }
              destruct (h1_matches_heading prev pos w d ws rem tail
                          Hb Ew Hws Hh Hrem Ht) as (m & Hm & Hc).
              exists m. split.
              ** rewrite <- Hm. cbn [app]. rewrite El at 1.
                 now rewrite <- app_assoc.
              ** rewrite Hc. unfold trim. cbn [trimStart]. now rewrite Hh.
           ++ apply negb_false_iff, str_eqb_eq in En.
              now apply trimEnd_keeps in En.
        -- cbn [app]. now apply h1_needs_space.
    + replace (Spec.heading_text (c :: line)) with (@None jsstring).
      * cbn [app]. now apply h1_needs_marker.
      * cbn [Spec.heading_text]. rewrite Ec. now destruct line.
Qed.

Lemma search_unfold (ml : bool) (r : regex) (prev : option char) (pos : nat)
      (rest : jsstring) :
  search ml r prev pos rest =
  match match_at ml r prev pos rest with
  | Some m => Some m
  | None =>
      match rest with
      | [] => None
      | c :: rest' => search ml r (Some c) (S pos) rest'
      end
  end.
Proof. now destruct rest. Qed.

Lemma search_mid_line (line tail : jsstring) :
  forallb is_dot line = true ->
  forall prev pos,
    at_bol true prev = false ->
    search true re_h1 prev pos (line ++ tail) =
    match tail with
    | [] => None
    | c :: s' => search true re_h1 (Some c) (S (pos + List.length line)) s'
    end.
Proof.
  induction line as [|c line IH]; intros Hl prev pos Hb; rewrite search_unfold;
    rewrite (h1_needs_line_start _ _ _ Hb); cbn [app List.length].
  - now rewrite Nat.add_0_r.
  - cbn [forallb] in Hl. apply andb_true_iff in Hl as [Hc Hl].
    rewrite (IH Hl); [now rewrite Nat.add_succ_r|].
    cbn [at_bol andb]. unfold is_dot in Hc. now apply negb_true_iff in Hc.
Qed.

Lemma search_skip_line (line tail : jsstring) (prev : option char) (pos : nat) :
  forallb is_dot line = true ->
  match_at true re_h1 prev pos (line ++ tail) = None ->
  search true re_h1 prev pos (line ++ tail) =
  match tail with
  | [] => None
  | c :: s' => search true re_h1 (Some c) (S (pos + List.length line)) s'
  end.
Proof.
  intros Hl Hm. rewrite search_unfold, Hm. destruct line as [|c line].
  - cbn [app List.length]. now rewrite Nat.add_0_r.
  - cbn [forallb] in Hl. apply andb_true_iff in Hl as [Hc Hl].
    cbn [app List.length]. rewrite (search_mid_line line tail Hl).
    + now rewrite Nat.add_succ_r.
    + cbn [at_bol andb]. unfold is_dot in Hc. now apply negb_true_iff in Hc.
Qed.

Lemma search_h1_lines (n : nat) :
  forall s prev pos,
    List.length s <= n -> at_bol true prev = true ->
    forallb (fun l => negb (Spec.bare_marker l)) (Spec.lines s) = true ->
    option_map (fun m => trim (cap 1 m)) (search true re_h1 prev pos s) =
    Spec.first_heading (Spec.lines s).
Proof.
  induction n as [|n IH]; intros s prev pos Hn Hb Hbare;
    destruct (line_split s) as (line & tail & Es & Hl & Ht).
  - destruct s; [|cbn in Hn; lia].
    rewrite search_unfold, h1_nil. reflexivity.
  - assert (Hstop : stops is_dot tail = true).
    { destruct Ht as [(-> & _)|(c & s' & -> & Hc & _)]; [reflexivity|].
      cbn [stops]. unfold is_dot. now rewrite Hc. }
    assert (Hline : Spec.bare_marker line = false).
    { destruct Ht as [(_ & E)|(c & s' & _ & _ & E)]; rewrite E in Hbare;
        cbn [forallb] in Hbare; apply andb_true_iff in Hbare as [H _];
        now apply negb_true_iff in H. }
    pose proof (h1_at_line_start line tail prev pos Hb Hl Hstop Hline) as Hh.
    rewrite Es.
    destruct Ht as [(-> & E)|(c & s' & -> & Hc & E)]; rewrite <- Es, E;
      cbn [Spec.first_heading]; rewrite Es;
      destruct (Spec.heading_text line) as [t|].
    + destruct Hh as (m & Hm & Ht). rewrite search_unfold, Hm. cbn. now rewrite Ht.
    + now rewrite (search_skip_line line [] prev pos Hl Hh).
    + destruct Hh as (m & Hm & Ht). rewrite search_unfold, Hm. cbn. now rewrite Ht.
    + rewrite (search_skip_line line (c :: s') prev pos Hl Hh).
      apply IH.
      * rewrite Es, length_app in Hn. cbn [List.length] in Hn. lia.
      * cbn [at_bol andb]. exact Hc.
      * rewrite E in Hbare. cbn [forallb] in Hbare.
        now apply andb_true_iff in Hbare as [_ H].
Qed.

Lemma subst_char (a : ascii) (d : char) (s : jsstring) :
  forall prev pos,
    subst false (Chr a) [d] true true prev pos s 0 =
    map (fun c => if (c =? ch a)%N then d else c) s.
Proof.
  induction s as [|c s IH]; intros prev pos; cbn [subst map];
    unfold match_at, Chr; cbn [run]; [reflexivity|].
  rewrite (N.eqb_sym (ch a) c). destruct (c =? ch a)%N.
  - cbn [m_end app]. replace (S pos - pos - 1) with 0 by lia.
    replace (Nat.eqb (S pos) pos) with false
      by (symmetry; apply Nat.eqb_neq; lia).
    cbn [app]. now rewrite IH.
  - now rewrite IH.
Qed.

Lemma replace_char (a : ascii) (d : char) (s : jsstring) :
  replace false true (Chr a) [d] s =
  map (fun c => if (c =? ch a)%N then d else c) s.
Proof. apply subst_char. Qed.

(** On a document without a bare marker line, [extractTitle] is the title
    of the specification. *)
Lemma title_agrees_without_bare_marker (rt : runtime) (content relativePath : jsstring) :
  forallb (fun l => negb (Spec.bare_marker l)) (Spec.lines content) = true ->
  extractTitle rt content relativePath = Spec.title_of rt content relativePath.
Proof.
  intros H. unfold extractTitle, Spec.title_of, exec.
  pose proof (search_h1_lines (List.length content) content None 0
                              (Nat.le_refl _) eq_refl H) as E.
  destruct (search true re_h1 None 0 content) as [m|];
    destruct (Spec.first_heading (Spec.lines content)) as [t|];
    cbn in E; try discriminate E.
  - now injection E.
  - unfold re_underscore, re_hyphen. change (js " ") with [ch " "].
    rewrite !replace_char, map_map.
    apply map_ext. intros c.
    destruct (c =? ch "-")%N eqn:E1; [reflexivity|].
    destruct (c =? ch "_")%N; reflexivity.
Qed.

(** C8 (code at the failing input): on a document without a bare marker
    line [extractTitle] is the title of the specification (the lemma
    above); on others the whitespace after the marker may run over a line
    break.  In [#\n# B] the only level-1 heading line is
    [# B], with heading text [B], and [extractTitle] returns [# B]; in
    [#\nintro] no line is a level-1 heading and [extractTitle] returns
    [intro], not the title made from the file name. *)
Theorem title_runs_over_line_break (rt : runtime) (relativePath : jsstring) :
  Spec.lines (text [js "#"; js "# B"]) = [js "#"; js "# B"] /\
  Spec.title_of rt (text [js "#"; js "# B"]) relativePath = js "B" /\
  extractTitle rt (text [js "#"; js "# B"]) relativePath = js "# B" /\
  Spec.first_heading (Spec.lines (text [js "#"; js "intro"])) = None /\
  extractTitle rt (text [js "#"; js "intro"]) relativePath = js "intro".
Proof.
  repeat split; vm_compute; reflexivity.
Qed.

(** ** Collection registry *)

Lemma load_slot_spec (env : environment) (i : nat) (v : VaultConfig) :
  In v (load_slot env i) <->
  Spec.configured env i = Some (Config.name v, Config.path v, Some (js "true")) /\
  Config.enabled v = true /\ Config.type v = external.
Proof.
  unfold load_slot, Spec.configured.
  destruct (env (vault_key i "NAME")) as [name|];
    destruct (env (vault_key i "PATH")) as [path|];
    try (split; [intros [] | intros [H _]; discriminate H]).
  destruct (nonempty name && nonempty path);
    [| split; [intros [] | intros [H _]; discriminate H]].
  destruct (env (vault_key i "ENABLED")) as [flag|];
    [| split; [intros [] | intros [H _]; discriminate H]].
  destruct (str_eqb flag (js "true")) eqn:E.
  - apply str_eqb_eq in E. subst flag. split.
    + intros [<-|[]]. cbn [Config.name Config.path Config.enabled Config.type]. auto.
    + intros (H & He & Ht). left. destruct v as [n p e t].
      cbn [Config.name Config.path Config.enabled Config.type] in *.
      injection H as -> ->. now subst.
  - split; [intros []|]. intros (H & _). injection H as _ _ ->.
    rewrite str_eqb_refl in E. discriminate E.
Qed.

(** C2, as stated, fails: a collection that is configured with its
    enabled flag off is absent from the full list. *)
Lemma disabled_collection_is_dropped :
  Spec.configured env_disabled 1 = Some (js "Work", js "/work", Some (js "false")) /\
  ~ exists v, In v (getAllVaults (new env_disabled (js "/ghost"))) /\
              Config.name v = js "Work".
Proof.
  split; [reflexivity|].
  intros (v & Hin & Hname).
  vm_compute in Hin. destruct Hin as [<-|[]]. discriminate Hname.
Qed.

(** C2 (amended): the full list is the primary collection followed by
    exactly the configured collections of slots 1 to 10 whose enabled
    variable is the text [true]; a configured collection with any other
    flag is dropped when the configuration is loaded, so the enabled-only
    view of the external collections is the whole of them. *)
Theorem full_list_holds_enabled_collections_only
        (env : environment) (ghostPath : jsstring) (v : VaultConfig) :
  let m := new env ghostPath in
  getAllVaults m = ghostVault m :: getExternalVaults m /\
  (In v (getAllVaults m) <->
   v = ghostVault m \/
   exists i, 1 <= i <= 10 /\
             Spec.configured env i =
               Some (Config.name v, Config.path v, Some (js "true")) /\
             Config.enabled v = true /\ Config.type v = external).
Proof.
  intros m.
  assert (Hall : forall x, In x (externalVaults m) -> Config.enabled x = true).
  { intros x Hx. unfold m, new in Hx. cbn [externalVaults] in Hx.
    unfold loadExternalVaults in Hx.
    apply in_flat_map in Hx as (i & _ & Hx). now apply load_slot_spec in Hx. }
  assert (Hfilter : getExternalVaults m = externalVaults m).
  { unfold getExternalVaults. induction (externalVaults m) as [|x l IH]; [reflexivity|].
    simpl. rewrite (Hall x (or_introl eq_refl)). f_equal.
    apply IH. intros y Hy. apply Hall. now right. }
  split.
  - now rewrite Hfilter.
  - unfold getAllVaults, m, new. cbn [externalVaults].
    unfold loadExternalVaults. split.
    + intros [H|H]; [left; now symmetry|right].
      apply in_flat_map in H as (i & Hi & H). apply in_seq in Hi.
      exists i. split; [lia|]. now apply load_slot_spec.
    + intros [H|(i & Hi & H)]; [left; now symmetry|right].
      apply in_flat_map. exists i. split; [apply in_seq; lia|].
      now apply load_slot_spec.
Qed.

(** ** Effects *)

Lemma bind_returned {A B : Type} (m : M A) (f : A -> M B) (fs : filesystem)
      (a : A) (l : list log_entry) :
  m fs = (Returned a, l) ->
  bind m f fs = (fst (f a fs), l ++ snd (f a fs)).
Proof.
  intros H. unfold bind. rewrite H. now destruct (f a fs).
Qed.

Lemma bind_thrown {A B : Type} (m : M A) (f : A -> M B) (fs : filesystem)
      (e : exn) (l : list log_entry) :
  m fs = (Thrown e, l) -> bind m f fs = (Thrown e, l).
Proof.
  intros H. unfold bind. now rewrite H.
Qed.

Lemma readVaultNotes_eq (rt : runtime) (v : VaultConfig) (fs : filesystem) :
  readVaultNotes rt v fs = (Returned (Spec.vault_notes rt fs v), Spec.scan_log rt fs v).
Proof.
  unfold Spec.scan_log, Spec.vault_notes, readVaultNotes.
  destruct (scan_root rt fs (Config.path v)) as [files l1]. simpl.
  now destruct (parse_files rt v files) as [notes l2].
Qed.

Lemma search_vault_eq (rt : runtime) (fs : filesystem) (acc : list VaultNote)
      (v : VaultConfig) :
  search_vault rt acc v fs =
  if Spec.reachable fs v
  then (Returned (acc ++ Spec.vault_notes rt fs v), Spec.scan_log rt fs v)
  else (Returned acc, [not_accessible (Config.name v)]).
Proof.
  unfold search_vault, Spec.reachable, bind at 1, validateVault.
  destruct (fs (Config.path v)) as [n|] eqn:E; cbn [negb].
  - erewrite bind_returned by apply readVaultNotes_eq.
    cbn. now rewrite app_nil_r.
  - reflexivity.
Qed.

Lemma foldM_search (rt : runtime) (fs : filesystem) (vs : list VaultConfig) :
  forall acc,
    foldM (search_vault rt) vs acc fs =
    (Returned (acc ++ Spec.scanned rt fs vs), Spec.search_log rt fs vs).
Proof.
  induction vs as [|v vs IH]; intros acc.
  - cbn. now rewrite app_nil_r.
  - cbn [foldM]. unfold Spec.scanned, Spec.search_log in *.
    cbn [filter flat_map].
    destruct (Spec.reachable fs v) eqn:E.
    + erewrite bind_returned by (rewrite search_vault_eq, E; reflexivity).
      rewrite IH. cbn [fst snd flat_map]. now rewrite app_assoc.
    + erewrite bind_returned by (rewrite search_vault_eq, E; reflexivity).
      rewrite IH. reflexivity.
Qed.

(** ** Sorting by modification time *)

Lemma insert_note_perm (x : VaultNote) (l : list VaultNote) :
  Permutation (x :: l) (insert_note x l).
Proof.
  induction l as [|y l IH]; simpl; [reflexivity|].
  destruct (Note.lastModified x <? Note.lastModified y)%Z; [|reflexivity].
  rewrite perm_swap. now constructor.
Qed.

Lemma sortByLastModified_perm (l : list VaultNote) :
  Permutation l (sortByLastModified l).
Proof.
  induction l as [|x l IH]; simpl; [constructor|].
  rewrite <- insert_note_perm. now constructor.
Qed.

Lemma insert_note_sorted (x : VaultNote) (l : list VaultNote) :
  StronglySorted Spec.latest_first l ->
  StronglySorted Spec.latest_first (insert_note x l).
Proof.
  induction 1 as [|y l Hs IH Hy]; simpl.
  - constructor; [constructor | constructor].
  - destruct (Note.lastModified x <? Note.lastModified y)%Z eqn:E.
    + constructor; [exact IH|].
      apply Forall_forall. intros z Hz.
      apply (Permutation_in _ (Permutation_sym (insert_note_perm x l))) in Hz.
      destruct Hz as [<-|Hz].
      * apply Z.ltb_lt in E. unfold Spec.latest_first. lia.
      * rewrite Forall_forall in Hy. now apply Hy.
    + apply Z.ltb_ge in E. constructor; [now constructor|].
      constructor; [exact E|].
      apply Forall_forall. intros z Hz. rewrite Forall_forall in Hy.
      specialize (Hy z Hz). unfold Spec.latest_first in *. lia.
Qed.

Lemma sortByLastModified_sorted (l : list VaultNote) :
  StronglySorted Spec.latest_first (sortByLastModified l).
Proof.
  induction l as [|x l IH]; simpl; [constructor|].
  now apply insert_note_sorted.
Qed.

(** ** Search *)

Lemma filter_none {A : Type} (f : A -> bool) (l : list A) :
  (forall x, f x = false) -> filter f l = [].
Proof.
  intros H. induction l as [|x l IH]; simpl; [reflexivity|]. now rewrite H.
Qed.

Lemma filter_all {A : Type} (f : A -> bool) (l : list A) :
  (forall x, f x = true) -> filter f l = l.
Proof.
  intros H. induction l as [|x l IH]; simpl; [reflexivity|].
  rewrite H. now f_equal.
Qed.

Lemma filter_twice {A : Type} (f g : A -> bool) (l : list A) :
  filter g (filter f l) = filter (fun x => f x && g x) l.
Proof.
  induction l as [|x l IH]; simpl; [reflexivity|].
  destruct (f x); simpl; [destruct (g x)|]; now rewrite IH.
Qed.

(** A search without an effective limit returns every survivor, latest
    first. *)
Lemma search_untruncated (rt : runtime) (m : MultiVaultManager)
      (query : jsstring) (o : SearchOptions) (fs : filesystem) :
  Options.limit o = None \/ Options.limit o = Some (Int 0) \/
  Options.limit o = Some NaN ->
  searchAllVaults rt m query o fs =
  (Returned (sortByLastModified
               (Spec.survivors rt query (Options.includeContent o) (Options.tags o)
                               (Spec.scanned rt fs (vaultsToSearch m o)))),
   Spec.search_log rt fs (vaultsToSearch m o)).
Proof.
  intros Hl. unfold searchAllVaults.
  erewrite bind_returned by apply foldM_search.
  cbn [app]. unfold ret. cbn [fst snd]. rewrite app_nil_r. f_equal.
  assert (E : forall l : list VaultNote,
             match Options.limit o with
             | Some (Int n as limit) =>
                 if number_truthy limit then slice_to n l else l
             | _ => l
             end = l).
  { intros l. destruct Hl as [-> | [-> | ->]]; reflexivity. }
  rewrite E. f_equal. f_equal. unfold Spec.survivors.
  set (notes := Spec.scanned rt fs (vaultsToSearch m o)).
  destruct (Options.tags o) as [[|t ts]|]; cbn [List.length Nat.ltb Nat.leb];
    destruct (nonempty query);
    rewrite ?filter_twice; try reflexivity;
    try (symmetry; now apply filter_all).
  all: apply filter_ext; intros x; now rewrite ?andb_true_r.
Qed.

Lemma firstn_incl {A : Type} (n : nat) (l : list A) : incl (firstn n l) l.
Proof.
  intros x Hx. rewrite <- (firstn_skipn n l). apply in_or_app. now left.
Qed.

(** A search always returns: documents of reachable candidates only, and
    one warning for each candidate that is not reachable. *)
Lemma search_returns (rt : runtime) (m : MultiVaultManager)
      (query : jsstring) (o : SearchOptions) (fs : filesystem) :
  exists result,
    searchAllVaults rt m query o fs =
      (Returned result, Spec.search_log rt fs (vaultsToSearch m o)) /\
    incl result (Spec.scanned rt fs (vaultsToSearch m o)).
Proof.
  unfold searchAllVaults.
  erewrite bind_returned by apply foldM_search.
  cbn [app]. unfold ret. cbn [fst snd]. rewrite app_nil_r.
  eexists. split; [reflexivity|].
  set (notes := Spec.scanned rt fs (vaultsToSearch m o)).
  assert (H1 : incl (match Options.tags o with
                     | Some filters =>
                         if (0 <? List.length filters)%nat
                         then filter (tag_matches rt filters) notes
                         else notes
                     | None => notes
                     end) notes).
  { destruct (Options.tags o) as [filters|]; [|apply incl_refl].
    destruct (0 <? List.length filters)%nat; [apply incl_filter|apply incl_refl]. }
  set (tagged := match Options.tags o with Some _ => _ | None => _ end) in *.
  assert (H2 : incl (if nonempty query
                     then filter (text_matches rt (Options.includeContent o) query) tagged
                     else tagged) notes).
  { destruct (nonempty query); [|exact H1].
    eapply incl_tran; [apply incl_filter|exact H1]. }
  set (matched := if nonempty query then _ else _) in *.
  assert (H3 : incl (sortByLastModified matched) notes).
  { intros x Hx. apply H2.
    now apply (Permutation_in _ (Permutation_sym (sortByLastModified_perm matched))). }
  destruct (Options.limit o) as [[|n]|]; try exact H3.
  destruct (number_truthy (Int n)); [|exact H3].
  unfold slice_to. destruct (n <? 0)%Z;
    (eapply incl_tran; [apply firstn_incl|exact H3]).
Qed.

(** C10: a search whose limit is the integer 0 returns what the same
    search returns without a limit: every surviving document, none cut
    off. *)
Theorem zero_limit_is_no_limit
        (rt : runtime) (m : MultiVaultManager) (query : jsstring)
        (ic : option bool) (tg vs : option (list jsstring)) (fs : filesystem) :
  let o limit := {| Options.includeContent := ic; Options.tags := tg;
                    Options.vaults := vs; Options.limit := limit |} in
  searchAllVaults rt m query (o (Some (Int 0))) fs =
  searchAllVaults rt m query (o None) fs /\
  exists result,
    fst (searchAllVaults rt m query (o (Some (Int 0))) fs) = Returned result /\
    Permutation
      (Spec.survivors rt query ic tg (Spec.scanned rt fs (vaultsToSearch m (o None))))
      result.
Proof.
  intros o. split; [reflexivity|].
  eexists. split.
  - rewrite search_untruncated by (right; left; reflexivity). reflexivity.
  - apply sortByLastModified_perm.
Qed.

Lemma split_nonempty (sep : char) (s : jsstring) : split sep s <> [].
Proof.
  destruct s as [|c s]; cbn [split]; [discriminate|].
  destruct (split sep s); [discriminate|]. destruct (c =? sep)%N; discriminate.
Qed.

Lemma names_nonempty (s : jsstring) : map trim (split (ch ",") s) <> [].
Proof.
  pose proof (split_nonempty (ch ",") s) as H.
  destruct (split (ch ",") s); [contradiction|discriminate].
Qed.

Lemma candidates_eq (m : MultiVaultManager) (ic : option bool)
      (tg : option (list jsstring)) (lm : option jsnumber)
      (collectionFilter : list jsstring) :
  vaultsToSearch m {| Options.includeContent := ic; Options.tags := tg;
                      Options.vaults := Spec.filter_option collectionFilter;
                      Options.limit := lm |}
  = Spec.candidates m collectionFilter.
Proof. now destruct collectionFilter. Qed.

(** A search without candidates returns nothing and prints nothing. *)
Lemma search_without_candidates (rt : runtime) (m : MultiVaultManager)
      (query : jsstring) (o : SearchOptions) (fs : filesystem) :
  vaultsToSearch m o = [] ->
  searchAllVaults rt m query o fs = (Returned [], []).
Proof.
  intros H. unfold searchAllVaults. rewrite H.
  cbn [foldM]. unfold bind, ret. cbn [app].
  destruct (Options.tags o) as [[|t ts]|]; cbn [List.length Nat.ltb Nat.leb filter];
    destruct (nonempty query); cbn [filter sortByLastModified fold_right];
    destruct (Options.limit o) as [[|n]|]; try reflexivity;
    destruct (number_truthy (Int n)); try reflexivity;
    unfold slice_to; destruct (n <? 0)%Z; now rewrite firstn_nil.
Qed.

(** A filter that is supplied and empty, which the search command never
    builds, counts as a filter: it selects no collection. *)
Remark supplied_empty_filter_selects_nothing
       (rt : runtime) (m : MultiVaultManager) (query : jsstring)
       (ic : option bool) (tg : option (list jsstring))
       (lm : option jsnumber) (fs : filesystem) :
  searchAllVaults rt m query
    {| Options.includeContent := ic; Options.tags := tg;
       Options.vaults := Some []; Options.limit := lm |} fs
  = (Returned [], []).
Proof.
  apply search_without_candidates. unfold vaultsToSearch. cbn [Options.vaults].
  now apply filter_none.
Qed.

(** C3: the search command hands the collection filter over as
    [undefined] when it is empty and as the list of names otherwise.  The
    candidates of the search are then every registered collection for
    the empty filter and exactly the registered collections whose name
    is a member of the filter otherwise.  The search returns, with
    documents of candidates only and one warning for each candidate that
    is not reachable; under a filter that names no registered collection
    it returns the empty sequence and prints nothing, as for the filter
    [Nonexistent] on the example registry. *)
Theorem candidates_follow_the_collection_filter
        (rt : runtime) (m : MultiVaultManager) (query : jsstring)
        (ic : option bool) (tg : option (list jsstring))
        (lm : option jsnumber) (fs : filesystem)
        (collectionFilter : list jsstring) (v : VaultConfig)
        (parseInt : jsstring -> jsnumber) (content : bool)
        (tags vaults limit : jsstring) :
  let o := {| Options.includeContent := ic; Options.tags := tg;
              Options.vaults := Spec.filter_option collectionFilter;
              Options.limit := lm |} in
  Options.vaults (Cli.searchOptions parseInt content tags vaults limit) =
    Spec.filter_option
      (if nonempty vaults then map trim (split (ch ",") vaults) else []) /\
  vaultsToSearch m o = Spec.candidates m collectionFilter /\
  (In v (vaultsToSearch m o) <->
   In v (getAllVaults m) /\
   (collectionFilter = [] \/ In (Config.name v) collectionFilter)) /\
  (exists result,
      searchAllVaults rt m query o fs =
        (Returned result,
         Spec.search_log rt fs (Spec.candidates m collectionFilter)) /\
      incl result (Spec.scanned rt fs (Spec.candidates m collectionFilter))) /\
  (collectionFilter <> [] ->
   (forall v', In v' (getAllVaults m) ->
               ~ In (Config.name v') collectionFilter) ->
   searchAllVaults rt m query o fs = (Returned [], [])) /\
  searchAllVaults rt manager_ab query (only [js "Nonexistent"]) disk_ab
    = (Returned [], []).
Proof.
  intros o.
  pose proof (candidates_eq m ic tg lm collectionFilter) as Hc. fold o in Hc.
  split.
  { unfold Cli.searchOptions. cbn [Options.vaults].
    destruct (nonempty vaults); [|reflexivity].
    pose proof (names_nonempty vaults) as H.
    destruct (map trim (split (ch ",") vaults)); [contradiction|reflexivity]. }
  split; [exact Hc|]. split.
  { rewrite Hc. unfold Spec.candidates.
    destruct collectionFilter as [|n ns].
    - split; [intros H; split; [exact H|now left]|now intros [H _]].
    - rewrite filter_In, mem_In. split.
      + intros [H1 H2]. split; [exact H1|now right].
      + intros [H1 [H2|H2]]; [discriminate H2|now split]. }
  split.
  { rewrite <- Hc. apply search_returns. }
  split.
  { intros Hne Hnone. apply search_without_candidates. rewrite Hc.
    destruct collectionFilter as [|n ns]; [contradiction|].
    unfold Spec.candidates.
    assert (Hf : forall l, (forall v', In v' l -> ~ In (Config.name v') (n :: ns)) ->
                           filter (fun v' => mem (Config.name v') (n :: ns)) l = []).
    { induction l as [|x l IH]; intros Hl; [reflexivity|].
      cbn [filter]. destruct (mem (Config.name x) (n :: ns)) eqn:E.
      - apply mem_In in E. exfalso. now apply (Hl x (or_introl eq_refl)).
      - apply IH. intros v' Hv'. apply Hl. now right. }
    now apply Hf. }
  apply search_without_candidates. reflexivity.
Qed.

(** ** Collection scanner *)

Lemma getMarkdownFiles_dir (rt : runtime) (dir : jsstring)
      (entries : list (jsstring * node)) :
  getMarkdownFiles rt dir (Dir (Some entries)) =
  (flat_map (fun e => fst (Spec.scan_entry rt dir e)) entries,
   flat_map (fun e => snd (Spec.scan_entry rt dir e)) entries).
Proof.
  induction entries as [|[name child] es IH]; [reflexivity|].
  cbn [getMarkdownFiles] in *. rewrite IH. cbn [flat_map Spec.scan_entry].
  destruct child as [c mt sz|l].
  - now destruct (endsWith name (js ".md")).
  - destruct (excluded name); [reflexivity|].
    now destruct (getMarkdownFiles rt (join rt dir name) (Dir l)).
Qed.

Lemma getMarkdownFiles_log (rt : runtime) (n : node) :
  forall dir, Forall Spec.is_error (snd (getMarkdownFiles rt dir n)).
Proof.
  induction n as [c mt sz| |es IH] using node_induction; intros dir.
  - repeat constructor.
  - repeat constructor.
  - rewrite getMarkdownFiles_dir. cbn [snd].
    induction IH as [|[name child] es Hc _ IHes]; cbn [flat_map]; [constructor|].
    apply Forall_app. split; [|exact IHes].
    cbn [Spec.scan_entry snd] in *. destruct child as [c mt sz|l].
    + destruct (endsWith name (js ".md")); constructor.
    + destruct (excluded name); [constructor|apply Hc].
Qed.

Lemma parse_files_log (rt : runtime) (v : VaultConfig)
      (files : list (jsstring * node)) :
  Forall Spec.is_error (snd (parse_files rt v files)).
Proof.
  induction files as [|[filePath n] files IH]; [constructor|].
  cbn [parse_files].
  destruct (parseNoteFile rt v (filePath, n)) as [note l1] eqn:E.
  destruct (parse_files rt v files) as [notes l2]. cbn [snd] in *.
  apply Forall_app. split; [|exact IH].
  unfold parseNoteFile in E.
  destruct n as [[c|] mt sz|l]; injection E as _ <-; repeat constructor.
Qed.

Lemma scan_log_errors (rt : runtime) (fs : filesystem) (v : VaultConfig) :
  Forall Spec.is_error (Spec.scan_log rt fs v).
Proof.
  unfold Spec.scan_log, readVaultNotes.
  pose proof (parse_files_log rt v (fst (scan_root rt fs (Config.path v)))) as Hp.
  assert (Hs : Forall Spec.is_error (snd (scan_root rt fs (Config.path v)))).
  { unfold scan_root. destruct (fs (Config.path v)).
    - apply getMarkdownFiles_log.
    - repeat constructor. }
  destruct (scan_root rt fs (Config.path v)) as [files l1]. cbn [fst snd] in *.
  destruct (parse_files rt v files) as [notes l2]. cbn [fst snd] in *.
  apply Forall_app. now split.
Qed.

Lemma index_log_errors (rt : runtime) (fs : filesystem) (vs : list VaultConfig) :
  Forall Spec.is_error (Spec.index_log rt fs vs).
Proof.
  unfold Spec.index_log. induction vs as [|v vs IH]; cbn [flat_map]; [constructor|].
  apply Forall_app. split; [|exact IH].
  destruct (Spec.reachable fs v); [apply scan_log_errors|constructor].
Qed.

(** ** Topic index *)

Lemma index_tag_thrown (vaultName tag : jsstring)
      (o : outcome (list (jsstring * Topic.entry))) (e : exn) :
  index_tag vaultName o tag = Thrown e ->
  o = Thrown e \/ inherited tag = true.
Proof.
  unfold index_tag. destruct o as [ti|e']; [|intros [= ->]; now left].
  destruct (assoc tag ti); [discriminate|].
  destruct (inherited tag); [now right|discriminate].
Qed.

Lemma index_tags_thrown (vaultName : jsstring) (tags : list jsstring) :
  forall (o : outcome (list (jsstring * Topic.entry))) (e : exn),
    fold_left (index_tag vaultName) tags o = Thrown e ->
    o = Thrown e \/ exists tag, In tag tags /\ inherited tag = true.
Proof.
  induction tags as [|t tags IH]; intros o e H; cbn [fold_left] in H.
  - now left.
  - apply IH in H as [H|(tag & Hin & Hi)].
    + apply index_tag_thrown in H as [H|H]; [now left|].
      right. exists t. split; [now left|exact H].
    + right. exists tag. split; [now right|exact Hi].
Qed.

Lemma index_notes_thrown (vaultName : jsstring) (notes : list VaultNote) :
  forall (o : outcome (list (jsstring * Topic.entry))) (e : exn),
    fold_left (fun ti note => fold_left (index_tag vaultName) (Note.tags note) ti)
              notes o = Thrown e ->
    o = Thrown e \/
    exists note tag, In note notes /\ In tag (Note.tags note) /\ inherited tag = true.
Proof.
  induction notes as [|n notes IH]; intros o e H; cbn [fold_left] in H.
  - now left.
  - apply IH in H as [H|(note & tag & Hn & Ht & Hi)].
    + apply index_tags_thrown in H as [H|(tag & Ht & Hi)]; [now left|].
      right. exists n, tag. split; [now left|now split].
    + right. exists note, tag. split; [now right|now split].
Qed.

Lemma index_all_thrown (rt : runtime) (fs : filesystem) (vs : list VaultConfig) :
  forall topicIndex e,
    Spec.index_all rt fs vs topicIndex = Thrown e ->
    exists note tag,
      In note (Spec.scanned rt fs vs) /\ In tag (Note.tags note) /\
      inherited tag = true.
Proof.
  induction vs as [|v vs IH]; intros ti e H; cbn [Spec.index_all] in H;
    [discriminate|].
  unfold Spec.scanned in *. cbn [filter].
  destruct (Spec.reachable fs v); [|now apply IH in H].
  cbn [flat_map].
  destruct (index_notes (Config.name v) (Spec.vault_notes rt fs v) ti)
    as [ti'|e'] eqn:E.
  - apply IH in H as (note & tag & Hn & Ht). exists note, tag.
    split; [apply in_or_app; now right|exact Ht].
  - apply index_notes_thrown in E as [E|(note & tag & Hn & Ht)]; [discriminate|].
    exists note, tag. split; [apply in_or_app; now left|exact Ht].
Qed.

Lemma index_vault_eq (rt : runtime) (fs : filesystem) (acc : list VaultNote)
      (topicIndex : list (jsstring * Topic.entry)) (v : VaultConfig) :
  index_vault rt (acc, topicIndex) v fs =
  if Spec.reachable fs v then
    match index_notes (Config.name v) (Spec.vault_notes rt fs v) topicIndex with
    | Returned topicIndex' =>
        (Returned (acc ++ Spec.vault_notes rt fs v, topicIndex'), Spec.scan_log rt fs v)
    | Thrown e => (Thrown e, Spec.scan_log rt fs v)
    end
  else (Returned (acc, topicIndex), []).
Proof.
  unfold index_vault, Spec.reachable, bind at 1, validateVault.
  destruct (fs (Config.path v)) as [n|] eqn:E; cbn [negb]; [|reflexivity].
  erewrite bind_returned by apply readVaultNotes_eq.
  unfold bind, lift, ret. cbn [fst snd app].
  destruct (index_notes (Config.name v) (Spec.vault_notes rt fs v) topicIndex);
    cbn [fst snd]; now rewrite ?app_nil_r.
Qed.

(** The loop of [generateCrossVaultIndex]: what it returns and prints. *)
Lemma foldM_index (rt : runtime) (fs : filesystem) (vs : list VaultConfig) :
  forall acc topicIndex,
    fst (foldM (index_vault rt) vs (acc, topicIndex) fs) =
    match Spec.index_all rt fs vs topicIndex with
    | Returned topicIndex' => Returned (acc ++ Spec.scanned rt fs vs, topicIndex')
    | Thrown e => Thrown e
    end /\
    Forall Spec.is_error (snd (foldM (index_vault rt) vs (acc, topicIndex) fs)) /\
    (forall topicIndex', Spec.index_all rt fs vs topicIndex = Returned topicIndex' ->
       snd (foldM (index_vault rt) vs (acc, topicIndex) fs) = Spec.index_log rt fs vs).
Proof.
  induction vs as [|v vs IH]; intros acc ti.
  - cbn. rewrite app_nil_r. repeat split; constructor.
  - cbn [foldM Spec.index_all]. unfold Spec.scanned, Spec.index_log in *.
    cbn [filter flat_map]. pose proof (index_vault_eq rt fs acc ti v) as Hv.
    destruct (Spec.reachable fs v) eqn:Er.
    + destruct (index_notes (Config.name v) (Spec.vault_notes rt fs v) ti)
        as [ti'|e] eqn:En.
      * erewrite bind_returned by exact Hv. cbn [fst snd flat_map].
        destruct (IH (acc ++ Spec.vault_notes rt fs v) ti') as (H1 & H2 & H3).
        rewrite H1. repeat split.
        -- destruct (Spec.index_all rt fs vs ti'); [now rewrite app_assoc|reflexivity].
        -- apply Forall_app. split; [apply scan_log_errors|exact H2].
        -- intros ti'' Hr. now rewrite (H3 ti'' Hr).
      * erewrite bind_thrown by exact Hv. cbn [fst snd].
        repeat split; [apply scan_log_errors|discriminate].
    + erewrite bind_returned by exact Hv. cbn [fst snd app].
      destruct (IH acc ti) as (H1 & H2 & H3). rewrite H1. repeat split; assumption.
Qed.

Lemma stats_vault_eq (rt : runtime) (fs : filesystem)
      (stats : list (jsstring * Stats.entry)) (v : VaultConfig) :
  exists stats',
    stats_vault rt stats v fs =
    (Returned stats', if Spec.reachable fs v then Spec.scan_log rt fs v else []).
Proof.
  unfold stats_vault, Spec.reachable, bind at 1, validateVault.
  destruct (fs (Config.path v)) as [n|] eqn:E; cbn [negb].
  - erewrite bind_returned by apply readVaultNotes_eq.
    eexists. cbn. now rewrite app_nil_r.
  - now eexists.
Qed.

Lemma foldM_stats (rt : runtime) (fs : filesystem) (vs : list VaultConfig) :
  forall stats, exists stats',
    foldM (stats_vault rt) vs stats fs = (Returned stats', Spec.index_log rt fs vs).
Proof.
  induction vs as [|v vs IH]; intros stats; [now eexists|].
  cbn [foldM]. destruct (stats_vault_eq rt fs stats v) as (s1 & H1).
  destruct (IH s1) as (s2 & H2). exists s2.
  erewrite bind_returned by exact H1. rewrite H2. reflexivity.
Qed.

(** What [generateCrossVaultIndex] returns, and that it prints errors only. *)
Lemma generateCrossVaultIndex_eq (rt : runtime) (m : MultiVaultManager)
      (fs : filesystem) :
  match Spec.index_all rt fs (getAllVaults m) [] with
  | Returned topicIndex =>
      exists vaultStats,
        generateCrossVaultIndex rt m fs =
        (Returned {| Index.topics := topicIndex;
                     Index.recentNotes :=
                       firstn 20 (sortByLastModified
                                    (Spec.scanned rt fs (getAllVaults m)));
                     Index.vaultStats := vaultStats |},
         Spec.index_log rt fs (getAllVaults m) ++
         Spec.index_log rt fs (getAllVaults m))
  | Thrown e =>
      fst (generateCrossVaultIndex rt m fs) = Thrown e /\
      Forall Spec.is_error (snd (generateCrossVaultIndex rt m fs))
  end.
Proof.
  unfold generateCrossVaultIndex.
  destruct (foldM_index rt fs (getAllVaults m) [] []) as (H1 & H2 & H3).
  destruct (foldM (index_vault rt) (getAllVaults m) ([], []) fs) as [r l] eqn:E.
  cbn [fst snd] in *.
  destruct (Spec.index_all rt fs (getAllVaults m) []) as [ti|e].
  - subst r. rewrite (H3 ti eq_refl) in E.
    destruct (foldM_stats rt fs (getAllVaults m) []) as (stats & Hs).
    exists stats. erewrite bind_returned by exact E.
    cbn [app]. unfold getVaultStats.
    erewrite bind_returned by exact Hs. cbn. now rewrite app_nil_r.
  - subst r. erewrite bind_thrown by exact E. now split.
Qed.


(** C4 (code at the failing input): a search returns the documents of
    reachable candidates only and prints one warning for each candidate
    that is not reachable, as specified.  Index generation prints errors
    only, never a warning: with the primary collection missing it indexes
    A and B and prints nothing at all, where the search over the same disk
    prints the warning for the missing collection. *)
Theorem index_skips_unreachable_silently
        (rt : runtime) (m : MultiVaultManager) (query : jsstring)
        (o : SearchOptions) (fs : filesystem) :
  (exists result,
      searchAllVaults rt m query o fs =
        (Returned result, Spec.search_log rt fs (vaultsToSearch m o)) /\
      incl result (Spec.scanned rt fs (vaultsToSearch m o))) /\
  Forall Spec.is_error (snd (generateCrossVaultIndex rt m fs)) /\
  Spec.reachable disk_no_ghost (ghostVault manager_ab) = false /\
  snd (generateCrossVaultIndex rt manager_ab disk_no_ghost) = [] /\
  snd (searchAllVaults rt manager_ab [] Options.no_options disk_no_ghost) =
    [not_accessible (js "Ghost AI Vault")] /\
  exists idx,
    fst (generateCrossVaultIndex rt manager_ab disk_no_ghost) = Returned idx /\
    map Note.vault (Index.recentNotes idx) = [js "B"; js "A"].
Proof.
  split; [apply search_returns|]. split.
  - pose proof (generateCrossVaultIndex_eq rt m fs) as H.
    destruct (Spec.index_all rt fs (getAllVaults m) []) as [ti|e].
    + destruct H as (stats & ->). cbn [snd].
      apply Forall_app. split; apply index_log_errors.
    + apply H.
  - split; [reflexivity|]. split; [cbv; reflexivity|].
    split; [cbv; reflexivity|].
    eexists. split; [cbv; reflexivity|reflexivity].
Qed.

(** C6: index generation run twice in a row in one process, on a disk
    that nothing else changes, leaves the disk as it was and gives the
    same per-topic counts and the same recent notes in the same order
    both times (or throws the same exception both times). *)
Theorem index_twice_is_the_same
        (rt : runtime) (m : MultiVaultManager) (p : process) :
  let first := perform (generateCrossVaultIndex rt m) p in
  let second := perform (generateCrossVaultIndex rt m) (snd first) in
  disk (snd first) = disk p /\
  match fst first, fst second with
  | Returned i1, Returned i2 =>
      Spec.topic_counts i1 = Spec.topic_counts i2 /\
      Index.recentNotes i1 = Index.recentNotes i2
  | Thrown e1, Thrown e2 => e1 = e2
  | _, _ => False
  end.
Proof.
  unfold perform.
  destruct (generateCrossVaultIndex rt m (disk p)) as [r l] eqn:E.
  cbn [fst snd disk]. rewrite E. cbn [fst].
  split; [reflexivity|]. destruct r; auto.
Qed.

(** ** Positions of the files a scan returns *)

Lemma locate_nil (rt : runtime) (dir : jsstring) (n : node) :
  Spec.locate rt dir n [] = None.
Proof. now destruct n. Qed.

Lemma locate_leaf (rt : runtime) (dir : jsstring) (p : list nat)
      (content : option jsstring) (mtime size : Z) :
  Spec.locate rt dir (File content mtime size) p = None.
Proof. now destruct p. Qed.

Lemma locate_closed (rt : runtime) (dir : jsstring) (p : list nat) :
  Spec.locate rt dir (Dir None) p = None.
Proof. now destruct p. Qed.

Lemma locate_shift (rt : runtime) (dir : jsstring) (e : jsstring * node)
      (es : list (jsstring * node)) (p : list nat) :
  Spec.locate rt dir (Dir (Some (e :: es))) (Spec.shift p) =
  Spec.locate rt dir (Dir (Some es)) p.
Proof. now destruct p. Qed.

(** The code leaves out the directories the specification names, and
    no others. *)
Lemma excluded_tool_directory (name : jsstring) :
  excluded name = Spec.tool_directory name.
Proof.
  unfold excluded, Spec.tool_directory, Spec.tool_directories.
  cbn [mem]. now rewrite orb_false_r.
Qed.

Lemma tool_directory_names (name : jsstring) :
  Spec.tool_directory name = true <-> name = js ".obsidian" \/ name = js ".git".
Proof.
  unfold Spec.tool_directory, Spec.tool_directories. rewrite mem_In.
  cbn [In]. split; [intros [H|[H|[]]]; auto|intros [H|H]; auto].
Qed.

Lemma locate_subdir (rt : runtime) (dir name : jsstring)
      (l : option (list (jsstring * node))) (es : list (jsstring * node))
      (p : list nat) :
  Spec.tool_directory name = false ->
  Spec.locate rt dir (Dir (Some ((name, Dir l) :: es))) (0 :: p) =
  Spec.locate rt (join rt dir name) (Dir l) p.
Proof.
  intros H. cbn [Spec.locate nth_error]. rewrite H.
  destruct p; [now rewrite locate_nil|reflexivity].
Qed.

Lemma shift_inj (p q : list nat) : Spec.shift p = Spec.shift q -> p = q.
Proof.
  destruct p, q; cbn; intros H; try discriminate; [reflexivity|].
  now injection H as -> ->.
Qed.

Lemma in_map_shift (i : nat) (q : list nat) (ps : list (list nat)) :
  In (S i :: q) (map Spec.shift ps) <-> In (i :: q) ps.
Proof.
  rewrite in_map_iff. split.
  - intros (p & E & Hp). destruct p as [|j p]; cbn in E; [discriminate|].
    now injection E as -> ->.
  - intros H. now exists (i :: q).
Qed.

Lemma not_in_map_shift_0 (q : list nat) (ps : list (list nat)) :
  ~ In (0 :: q) (map Spec.shift ps).
Proof.
  rewrite in_map_iff. intros (p & E & _). destruct p; discriminate E.
Qed.

Lemma visits_once_entries (rt : runtime) (dir : jsstring)
      (es : list (jsstring * node)) :
  Forall (fun e => forall dir', Spec.visits_once rt dir' (snd e)) es ->
  Spec.visits_once rt dir (Dir (Some es)).
Proof.
  intros H. unfold Spec.visits_once. rewrite getMarkdownFiles_dir. cbn [fst].
  induction H as [|[name child] es Hc _ IH].
  - exists []. split; [constructor|]. split; [|reflexivity].
    intros p. split; [intros []|]. intros Hp. exfalso. apply Hp.
    destruct p as [|i p]; [reflexivity|]. now destruct i.
  - destruct IH as (ps & Hnd & Hin & Hmap).
    assert (Hne : ~ In [] ps).
    { intros Hnil. apply Hin in Hnil. apply Hnil. apply locate_nil. }
    set (D := Dir (Some ((name, child) :: es))).
    assert (Htail : map (Spec.locate rt dir D) (map Spec.shift ps) =
                    map (Spec.locate rt dir (Dir (Some es))) ps).
    { rewrite map_map. apply map_ext. intros p. apply locate_shift. }
    assert (Hnd' : NoDup (map Spec.shift ps)).
    { apply Injective_map_NoDup; [|exact Hnd].
      intros p q. apply shift_inj. }
    assert (Hhead : exists hs,
               NoDup hs /\
               (forall p, In p hs -> exists q, p = 0 :: q) /\
               (forall q, In (0 :: q) hs <-> Spec.locate rt dir D (0 :: q) <> None) /\
               map Some (fst (Spec.scan_entry rt dir (name, child))) =
               map (Spec.locate rt dir D) hs).
    { cbn [snd] in Hc. unfold D. destruct child as [c mt sz|l].
      - cbn [Spec.scan_entry]. destruct (endsWith name (js ".md")) eqn:Emd.
        + exists [[0]]. split; [repeat constructor; intros []|].
          split; [intros p [<-|[]]; now exists []|].
          split; [|cbn [fst map Spec.locate nth_error]; now rewrite Emd].
          intros q. cbn [Spec.locate nth_error]. rewrite Emd.
          destruct q as [|j q].
          * split; [discriminate|]. intros _. now left.
          * split; [|congruence]. intros [H|[]]. discriminate H.
        + exists []. split; [constructor|]. split; [intros p []|].
          split; [|reflexivity].
          intros q. cbn [Spec.locate nth_error]. rewrite Emd.
          split; [intros []|]. destruct q; intros H; now apply H.
      - cbn [Spec.scan_entry]. rewrite excluded_tool_directory.
        destruct (Spec.tool_directory name) eqn:Eex.
        + exists []. split; [constructor|]. split; [intros p []|].
          split; [|reflexivity].
          intros q. cbn [Spec.locate nth_error]. rewrite Eex.
          split; [intros []|]. destruct q; intros H; now apply H.
        + destruct (Hc (join rt dir name)) as (cs & Hcnd & Hcin & Hcmap).
          exists (map (cons 0) cs).
          split.
          { apply Injective_map_NoDup; [|exact Hcnd].
            intros p q E. now injection E. }
          split.
          { intros p Hp. apply in_map_iff in Hp as (q & <- & _). now exists q. }
          split.
          { intros q. rewrite (locate_subdir rt dir name l es q Eex).
            rewrite <- Hcin. rewrite in_map_iff. split.
            - intros (q' & E & Hq'). now injection E as ->.
            - intros Hq. now exists q. }
          rewrite Hcmap, map_map. apply map_ext. intros q.
          symmetry. now apply locate_subdir. }
    destruct Hhead as (hs & Hhnd & Hh0 & Hhin & Hhmap).
    exists (hs ++ map Spec.shift ps). split; [|split].
    + apply NoDup_app; try assumption.
      intros p Hp Hp'. destruct (Hh0 p Hp) as (q & ->).
      now apply not_in_map_shift_0 in Hp'.
    + intros p. rewrite in_app_iff. destruct p as [|[|i] q].
      * rewrite locate_nil. split; [|congruence].
        intros [Hp|Hp]; [destruct (Hh0 _ Hp) as (q & E); discriminate E|].
        apply in_map_iff in Hp as (p & E & Hp).
        destruct p; [contradiction|discriminate E].
      * rewrite <- Hhin. split; [|tauto].
        intros [Hp|Hp]; [exact Hp|]. now apply not_in_map_shift_0 in Hp.
      * change (Spec.locate rt dir D (S i :: q))
          with (Spec.locate rt dir (Dir (Some es)) (i :: q)).
        rewrite <- Hin, in_map_shift. split; [|tauto].
        intros [Hp|Hp]; [|exact Hp].
        destruct (Hh0 _ Hp) as (q' & E). discriminate E.
    + cbn [flat_map]. rewrite !map_app, Hhmap, Htail. f_equal. exact Hmap.
Qed.

Lemma visits_once_all (rt : runtime) (n : node) :
  forall dir, Spec.visits_once rt dir n.
Proof.
  induction n as [c mt sz| |es IH] using node_induction; intros dir.
  - exists []. split; [constructor|]. split; [|reflexivity].
    intros p. rewrite locate_leaf. split; [intros []|congruence].
  - exists []. split; [constructor|]. split; [|reflexivity].
    intros p. rewrite locate_closed. split; [intros []|congruence].
  - now apply visits_once_entries.
Qed.

(** C9: the scan of a tree returns, at one position each and nowhere
    else, the files whose name ends in [.md] and that are reached from
    the root through directories that can be listed and are not tool
    directories; these are the directories named exactly [.obsidian] or
    [.git].  What lies under a tool directory adds no file and prints
    nothing; any other directory adds the files and the entries of its
    own scan, between those of the entries before and after it.  A
    directory that cannot be listed contributes no file and one error
    entry (none when it is a tool directory); the entries before and
    after it are scanned as they are without it. *)
Theorem scanner_visits_each_note_once
        (rt : runtime) (dir : jsstring) (n : node)
        (before after : list (jsstring * node)) (name : jsstring)
        (l : option (list (jsstring * node))) :
  (exists positions : list (list nat),
      NoDup positions /\
      (forall p, In p positions <-> Spec.locate rt dir n p <> None) /\
      map Some (fst (getMarkdownFiles rt dir n)) =
      map (Spec.locate rt dir n) positions) /\
  (Spec.tool_directory name = true <->
   name = js ".obsidian" \/ name = js ".git") /\
  fst (getMarkdownFiles rt dir (Dir (Some (before ++ (name, Dir l) :: after)))) =
  fst (getMarkdownFiles rt dir (Dir (Some before))) ++
  (if Spec.tool_directory name then []
   else fst (getMarkdownFiles rt (join rt dir name) (Dir l))) ++
  fst (getMarkdownFiles rt dir (Dir (Some after))) /\
  snd (getMarkdownFiles rt dir (Dir (Some (before ++ (name, Dir l) :: after)))) =
  snd (getMarkdownFiles rt dir (Dir (Some before))) ++
  (if Spec.tool_directory name then []
   else snd (getMarkdownFiles rt (join rt dir name) (Dir l))) ++
  snd (getMarkdownFiles rt dir (Dir (Some after))) /\
  fst (getMarkdownFiles rt dir (Dir (Some (before ++ (name, Dir None) :: after)))) =
  fst (getMarkdownFiles rt dir (Dir (Some (before ++ after)))) /\
  snd (getMarkdownFiles rt dir (Dir (Some (before ++ (name, Dir None) :: after)))) =
  snd (getMarkdownFiles rt dir (Dir (Some before))) ++
  (if Spec.tool_directory name then []
   else [error_reading_directory (join rt dir name)]) ++
  snd (getMarkdownFiles rt dir (Dir (Some after))).
Proof.
  split; [apply visits_once_all|].
  split; [apply tool_directory_names|].
  rewrite !getMarkdownFiles_dir. cbn [fst snd].
  rewrite !flat_map_app. cbn [flat_map Spec.scan_entry].
  rewrite excluded_tool_directory.
  destruct (Spec.tool_directory name); repeat split; reflexivity.
Qed.

(** * Further properties of the manager *)

(** ** Tag sets *)

Lemma set_add_In (l : list jsstring) (x y : jsstring) :
  In y (set_add l x) <-> In y l \/ y = x.
Proof.
  unfold set_add. destruct (mem x l) eqn:E.
  - apply mem_In in E. split; [now left|]. intros [H| ->]; assumption.
  - rewrite in_app_iff. cbn [In]. split.
    + intros [H|[<-|[]]]; auto.
    + intros [H| ->]; auto.
Qed.

Lemma set_add_NoDup (l : list jsstring) (x : jsstring) :
  NoDup l -> NoDup (set_add l x).
Proof.
  intros H. unfold set_add. destruct (mem x l) eqn:E; [exact H|].
  apply NoDup_app; [exact H|repeat constructor; intros []|].
  intros y Hy [<-|[]]. apply mem_In in Hy. congruence.
Qed.

(** A loop that adds at most one tag per item. *)
Lemma fold_tags_In {A : Type} (step : list jsstring -> A -> list jsstring)
      (pick : A -> option jsstring) :
  (forall tags a, step tags a =
                  match pick a with Some t => set_add tags t | None => tags end) ->
  forall items tags y,
    In y (fold_left step items tags) <->
    In y tags \/ exists a, In a items /\ pick a = Some y.
Proof.
  intros Hs items. induction items as [|a items IH]; intros tags y; cbn [fold_left].
  - split; [now left|]. intros [H|(a & [] & _)]. exact H.
  - rewrite IH, Hs. split.
    + intros [H|(b & Hb & Hp)].
      * destruct (pick a) as [t|] eqn:Ep; [|now left].
        apply set_add_In in H as [H| ->]; [now left|].
        right. exists a. split; [now left|exact Ep].
      * right. exists b. split; [now right|exact Hp].
    + intros [H|(b & [<-|Hb] & Hp)].
      * left. destruct (pick a); [apply set_add_In; now left|exact H].
      * left. rewrite Hp. apply set_add_In. now right.
      * right. now exists b.
Qed.

Lemma fold_tags_NoDup {A : Type} (step : list jsstring -> A -> list jsstring)
      (pick : A -> option jsstring) :
  (forall tags a, step tags a =
                  match pick a with Some t => set_add tags t | None => tags end) ->
  forall items tags, NoDup tags -> NoDup (fold_left step items tags).
Proof.
  intros Hs items. induction items as [|a items IH]; intros tags H; cbn [fold_left];
    [exact H|].
  apply IH. rewrite Hs. destruct (pick a); [now apply set_add_NoDup|exact H].
Qed.


(** Once a replacement without the g flag has been made, the rest of the
    text is kept. *)
Lemma subst_inactive (ml : bool) (r : regex) (repl s : jsstring) :
  forall prev pos, subst ml r repl false false prev pos s 0 = s.
Proof.
  induction s as [|c s IH]; intros prev pos; cbn [subst]; [reflexivity|].
  now rewrite IH.
Qed.

(** An expression that starts with [^], without the m flag, matches at
    the start of the text only. *)
Lemma anchored_needs_start (r : regex) (c : char) (pos : nat) (rest : jsstring) :
  match_at false (Seq Bol r) (Some c) pos rest = None.
Proof. reflexivity. Qed.

Lemma subst_anchored_tail (r : regex) (repl s : jsstring) (global active : bool) :
  forall c pos, subst false (Seq Bol r) repl global active (Some c) pos s 0 = s.
Proof.
  induction s as [|x s IH]; intros c pos; cbn [subst];
    rewrite anchored_needs_start; destruct active; try reflexivity;
    now rewrite IH.
Qed.

Lemma strip_leading_hash (s : jsstring) :
  replace false false re_leading_hash [] s = Describe.strip_marker s.
Proof.
  unfold replace, re_leading_hash. destruct s as [|c s]; [reflexivity|].
  cbn [subst Describe.strip_marker]. unfold match_at, Chr. cbn [run at_bol].
  rewrite (N.eqb_sym (ch "#") c). destruct (c =? ch "#")%N.
  - cbn [m_end Nat.eqb app Nat.sub]. apply subst_inactive.
  - f_equal. apply subst_anchored_tail.
Qed.

Lemma extractTags_unfold (content : jsstring) (fm : frontmatter) :
  extractTags content fm =
  fold_left add_wikilink (matchAll false re_wikilink content)
    (fold_left (fun tags m => set_add tags (trim (cap 1 m)))
       (matchAll false re_inline_tag content)
       (match fm_tags fm with
        | Some v =>
            if truthy v
            then fold_left add_frontmatter_tag
                           (match v with JArr items => items | _ => [v] end) []
            else []
        | None => []
        end)).
Proof. reflexivity. Qed.

Lemma add_frontmatter_tag_pick (tags : list jsstring) (tag : jsvalue) :
  add_frontmatter_tag tags tag =
  match Describe.pick_frontmatter_tag tag with
  | Some t => set_add tags t
  | None => tags
  end.
Proof. now destruct tag. Qed.

Lemma add_wikilink_pick (tags : list jsstring) (m : rmatch) :
  add_wikilink tags m =
  match Describe.pick_wikilink m with
  | Some t => set_add tags t
  | None => tags
  end.
Proof.
  unfold add_wikilink, Describe.pick_wikilink.
  now destruct (negb (includes (cap 1 m) (js ".")) && negb (includes (cap 1 m) (js "/"))).
Qed.

Lemma extractTags_NoDup (content : jsstring) (fm : frontmatter) :
  NoDup (extractTags content fm).
Proof.
  rewrite extractTags_unfold.
  apply (fold_tags_NoDup add_wikilink Describe.pick_wikilink add_wikilink_pick).
  apply (fold_tags_NoDup _ Describe.pick_inline_tag (fun _ _ => eq_refl)).
  destruct (fm_tags fm) as [v|]; [|constructor].
  destruct (truthy v); [|constructor].
  apply (fold_tags_NoDup add_frontmatter_tag Describe.pick_frontmatter_tag
                         add_frontmatter_tag_pick).
  constructor.
Qed.

(** X1: the tags of a document hold no duplicate, whatever the
    front-matter and the body repeat. *)
Theorem extractTags_has_no_duplicates (content : jsstring) (fm : frontmatter) :
  NoDup (extractTags content fm).
Proof. apply extractTags_NoDup. Qed.

(** X2: a string is a tag of a document exactly when it is a string of
    the front-matter [tags] value (alone or in an array, the value being
    truthy) without one leading [#], or the trimmed capture of an inline
    match, or the target of a wiki-link that holds neither [.] nor [/]. *)
Theorem extractTags_is_the_union (content : jsstring) (fm : frontmatter) (t : jsstring) :
  In t (extractTags content fm) <->
  (exists v s, fm_tags fm = Some v /\ truthy v = true /\
               In (JStr s) (match v with JArr items => items | _ => [v] end) /\
               t = Describe.strip_marker s) \/
  (exists m, In m (matchAll false re_inline_tag content) /\ t = trim (cap 1 m)) \/
  (exists m, In m (matchAll false re_wikilink content) /\ t = cap 1 m /\
             includes t (js ".") = false /\ includes t (js "/") = false).
Proof.
  rewrite extractTags_unfold.
  rewrite (fold_tags_In add_wikilink Describe.pick_wikilink add_wikilink_pick).
  rewrite (fold_tags_In _ Describe.pick_inline_tag (fun _ _ => eq_refl)).
  assert (Hfm : In t (match fm_tags fm with
                      | Some v =>
                          if truthy v
                          then fold_left add_frontmatter_tag
                                 (match v with JArr items => items | _ => [v] end) []
                          else []
                      | None => []
                      end) <->
                exists v s, fm_tags fm = Some v /\ truthy v = true /\
                            In (JStr s) (match v with JArr items => items | _ => [v] end) /\
                            t = Describe.strip_marker s).
  { destruct (fm_tags fm) as [v|];
      [|split; [intros []|intros (v & s & H & _); discriminate H]].
    destruct (truthy v) eqn:Et;
      [|split; [intros []|intros (v' & s & [= <-] & H & _); congruence]].
    rewrite (fold_tags_In add_frontmatter_tag Describe.pick_frontmatter_tag
                          add_frontmatter_tag_pick).
    split.
    - intros [[]|(a & Ha & Hp)]. destruct a; try discriminate Hp.
      injection Hp as <-. exists v, s. rewrite strip_leading_hash. auto.
    - intros (v' & s & [= <-] & _ & Hin & ->). right. exists (JStr s).
      split; [exact Hin|]. cbn. now rewrite strip_leading_hash. }
  rewrite Hfm. split.
  - intros [[H|(m & Hm & Hp)]|(m & Hm & Hp)].
    + now left.
    + right. left. exists m. injection Hp as <-. now split.
    + right. right. exists m. unfold Describe.pick_wikilink in Hp.
      destruct (includes (cap 1 m) (js ".")) eqn:E1;
        destruct (includes (cap 1 m) (js "/")) eqn:E2;
        try discriminate Hp. injection Hp as <-. repeat split; assumption.
  - intros [H|[(m & Hm & ->)|(m & Hm & -> & H1 & H2)]].
    + left. now left.
    + left. right. now exists m.
    + right. exists m. split; [exact Hm|].
      unfold Describe.pick_wikilink. now rewrite H1, H2.
Qed.

(** ** Front-matter *)

Lemma run_Lit_fails (ml : bool) (R : Type) (s : jsstring) (k : cont R) :
  forall prev pos rest cs,
    startsWith s rest = false -> run ml (Lit s) prev pos rest cs k = None.
Proof.
  induction s as [|c s IH]; intros prev pos rest cs H; [discriminate H|].
  cbn [Lit run]. destruct rest as [|x rest]; [reflexivity|].
  cbn [startsWith] in H. destruct (c =? x)%N; [|reflexivity].
  now apply IH.
Qed.

Lemma search_anchored_tail (r : regex) (rest : jsstring) :
  forall c pos, search false (Seq Bol r) (Some c) pos rest = None.
Proof.
  induction rest as [|x rest IH]; intros c pos; cbn [search];
    rewrite anchored_needs_start; [reflexivity|apply IH].
Qed.

(** An anchored expression that fails at the start matches nowhere. *)
Lemma exec_anchored (r : regex) (s : jsstring) :
  match_at false (Seq Bol r) None 0 s = None -> exec false (Seq Bol r) s = None.
Proof.
  intros H. unfold exec. destruct s as [|c s]; cbn [search]; rewrite H;
    [reflexivity|apply search_anchored_tail].
Qed.

(** X3: front-matter is read at the very start of a document only: a
    document that does not begin with the line [---] has none, wherever
    else a delimited block stands. *)
Theorem frontmatter_only_at_the_start (rt : runtime) (content : jsstring) :
  startsWith (js "---" ++ [NL]) content = false ->
  extractFrontmatter rt content = empty_frontmatter.
Proof.
  intros H. unfold extractFrontmatter, re_frontmatter.
  rewrite (exec_anchored _ content); [reflexivity|].
  unfold match_at. cbn [run at_bol].
  now apply run_Lit_fails.
Qed.

Lemma frontmatter_only_at_the_start_witness :
  extractFrontmatter sample
    (text [js "# Title"; js "---"; js "tags: late"; js "---"]) = empty_frontmatter.
Proof.
  apply (frontmatter_only_at_the_start sample
           (text [js "# Title"; js "---"; js "tags: late"; js "---"])).
  reflexivity.
Defined.

Lemma many_all_fail (R : Type) (greedy : bool) (p : char -> bool)
      (ok : char -> bool) (k : cont R) :
  (forall prev pos rest cs, forallb ok rest = true -> k prev pos rest cs = None) ->
  forall rest prev pos cs,
    forallb ok rest = true -> many greedy p prev pos rest cs k = None.
Proof.
  intros Hk rest. induction rest as [|c rest IH]; intros prev pos cs H; cbn [many].
  - rewrite (Hk _ _ _ _ H). now destruct greedy.
  - rewrite (Hk _ _ _ _ H). cbn [forallb] in H. apply andb_true_iff in H as [_ H].
    rewrite (IH _ _ _ H). destruct greedy; now destruct (p c).
Qed.

(** X4: a line of the front-matter block without a colon is passed over:
    the front-matter stays as it was and nothing is thrown. *)
Theorem line_without_colon_is_skipped
        (rt : runtime) (fm : frontmatter) (line : jsstring) :
  forallb (fun c => negb (c =? ch ":")%N) line = true ->
  parse_line rt fm line = fm.
Proof.
  intros H. unfold parse_line, re_keyvalue.
  rewrite (exec_anchored _ line); [reflexivity|].
  unfold match_at, Plus, Chr. cbn [run at_bol].
  destruct line as [|c line]; [reflexivity|].
  destruct (is_word c); [|reflexivity].
  cbn [forallb] in H. apply andb_true_iff in H as [_ H].
  apply (many_all_fail _ true is_word (fun c => negb (c =? ch ":")%N)); [|exact H].
  intros prev pos rest cs Hr. destruct rest as [|x rest]; [reflexivity|].
  cbn [forallb] in Hr. apply andb_true_iff in Hr as [Hx _].
  rewrite N.eqb_sym. apply negb_true_iff in Hx. now rewrite Hx.
Qed.

Lemma line_without_colon_is_skipped_witness :
  parse_line sample empty_frontmatter (js "just some words") = empty_frontmatter.
Proof.
  apply (line_without_colon_is_skipped sample empty_frontmatter (js "just some words")).
  reflexivity.
Defined.

(** ** Order of results *)

Lemma insert_note_ties (x : VaultNote) (l : list VaultNote) (t : Z) :
  filter (fun n => (Note.lastModified n =? t)%Z) (insert_note x l) =
  filter (fun n => (Note.lastModified n =? t)%Z) (x :: l).
Proof.
  induction l as [|y l IH]; [reflexivity|]. cbn [insert_note].
  destruct (Note.lastModified x <? Note.lastModified y)%Z eqn:E; [|reflexivity].
  apply Z.ltb_lt in E. cbn [filter] in *. rewrite IH.
  destruct (Note.lastModified x =? t)%Z eqn:Ex;
    destruct (Note.lastModified y =? t)%Z eqn:Ey; try reflexivity.
  apply Z.eqb_eq in Ex, Ey. lia.
Qed.

(** X5: the sort by modification time is stable: the documents of one
    and the same modification time come out in the order in which they
    went in. *)
Theorem sort_keeps_order_of_ties (l : list VaultNote) (t : Z) :
  filter (fun n => (Note.lastModified n =? t)%Z) (sortByLastModified l) =
  filter (fun n => (Note.lastModified n =? t)%Z) l.
Proof.
  induction l as [|x l IH]; [reflexivity|].
  cbn [sortByLastModified fold_right]. rewrite insert_note_ties.
  cbn [filter]. fold (sortByLastModified l). now rewrite IH.
Qed.

Lemma sorted_firstn (n : nat) (l : list VaultNote) :
  StronglySorted Spec.latest_first l -> StronglySorted Spec.latest_first (firstn n l).
Proof.
  revert n. induction l as [|x l IH]; intros n H.
  - rewrite firstn_nil. constructor.
  - destruct n; [constructor|]. cbn [firstn]. inversion H as [|? ? Hs Hx]; subst.
    constructor; [now apply IH|].
    apply Forall_forall. intros y Hy. rewrite Forall_forall in Hx.
    apply Hx. now apply (firstn_incl n l).
Qed.

Lemma sorted_app (a b : list VaultNote) :
  StronglySorted Spec.latest_first (a ++ b) ->
  forall x y, In x a -> In y b -> Spec.latest_first x y.
Proof.
  induction a as [|z a IH]; intros H x y Hx Hy; [destruct Hx|].
  cbn [app] in H. inversion H as [|? ? Hs Hz]; subst.
  destruct Hx as [<-|Hx]; [|now apply IH].
  rewrite Forall_forall in Hz. apply Hz. apply in_or_app. now right.
Qed.

Lemma survivors_eq (rt : runtime) (query : jsstring) (ic : option bool)
      (tg : option (list jsstring)) (notes : list VaultNote) :
  (let tagged :=
     match tg with
     | Some filters =>
         if (0 <? List.length filters)%nat
         then filter (tag_matches rt filters) notes
         else notes
     | None => notes
     end in
   if nonempty query then filter (text_matches rt ic query) tagged else tagged) =
  Spec.survivors rt query ic tg notes.
Proof.
  unfold Spec.survivors. cbn zeta.
  destruct tg as [[|t ts]|]; cbn [List.length Nat.ltb Nat.leb];
    destruct (nonempty query);
    rewrite ?filter_twice; try reflexivity;
    try (symmetry; now apply filter_all).
  all: apply filter_ext; intros x; now rewrite ?andb_true_r.
Qed.

(** What a search returns, in full. *)
Lemma search_eq (rt : runtime) (m : MultiVaultManager)
      (query : jsstring) (o : SearchOptions) (fs : filesystem) :
  fst (searchAllVaults rt m query o fs) =
  Returned
    (let sorted :=
       sortByLastModified
         (Spec.survivors rt query (Options.includeContent o) (Options.tags o)
                         (Spec.scanned rt fs (vaultsToSearch m o))) in
     match Options.limit o with
     | Some (Int n) => if (n =? 0)%Z then sorted else slice_to n sorted
     | _ => sorted
     end).
Proof.
  unfold searchAllVaults.
  erewrite bind_returned by apply foldM_search.
  cbn [app]. unfold ret. cbn [fst]. f_equal.
  pose proof (survivors_eq rt query (Options.includeContent o) (Options.tags o)
                (Spec.scanned rt fs (vaultsToSearch m o))) as E.
  cbn zeta in *. rewrite E.
  destruct (Options.limit o) as [[|n]|]; try reflexivity.
  cbn [number_truthy]. now destruct (n =? 0)%Z.
Qed.

Lemma search_sound
        (rt : runtime) (m : MultiVaultManager) (query : jsstring)
        (o : SearchOptions) (fs : filesystem) :
  exists result,
    fst (searchAllVaults rt m query o fs) = Returned result /\
    StronglySorted Spec.latest_first result /\
    incl result
         (Spec.survivors rt query (Options.includeContent o) (Options.tags o)
                         (Spec.scanned rt fs (vaultsToSearch m o))).
Proof.
  eexists. split; [apply search_eq|].
  set (found := Spec.survivors _ _ _ _ _).
  assert (Hs : StronglySorted Spec.latest_first (sortByLastModified found))
    by apply sortByLastModified_sorted.
  assert (Hi : incl (sortByLastModified found) found).
  { intros x Hx.
    now apply (Permutation_in _ (Permutation_sym (sortByLastModified_perm found))). }
  cbn zeta. destruct (Options.limit o) as [[|n]|]; try (now split).
  destruct (n =? 0)%Z; [now split|].
  unfold slice_to. destruct (n <? 0)%Z; split;
    try (now apply sorted_firstn);
    (eapply incl_tran; [apply firstn_incl|exact Hi]).
Qed.

(** X6: whatever the options, a search returns its documents latest
    first, and each of them is a scanned document of a candidate
    collection that passes the tag filter and the text filter. *)
Theorem search_results_are_ordered_matches
        (rt : runtime) (m : MultiVaultManager) (query : jsstring)
        (o : SearchOptions) (fs : filesystem) :
  exists result,
    fst (searchAllVaults rt m query o fs) = Returned result /\
    StronglySorted Spec.latest_first result /\
    incl result
         (Spec.survivors rt query (Options.includeContent o) (Options.tags o)
                         (Spec.scanned rt fs (vaultsToSearch m o))).
Proof. apply search_sound. Qed.

Lemma search_positive_limit
        (rt : runtime) (m : MultiVaultManager) (query : jsstring)
        (ic : option bool) (tg vs : option (list jsstring)) (n : Z)
        (fs : filesystem) :
  (0 < n)%Z ->
  fst (searchAllVaults rt m query
         {| Options.includeContent := ic; Options.tags := tg;
            Options.vaults := vs; Options.limit := Some (Int n) |} fs) =
  Returned
    (firstn (Z.to_nat n)
       (sortByLastModified
          (Spec.survivors rt query ic tg
             (Spec.scanned rt fs
                (vaultsToSearch m
                   {| Options.includeContent := ic; Options.tags := tg;
                      Options.vaults := vs; Options.limit := Some (Int n) |}))))).
Proof.
  intros Hn. rewrite search_eq.
  cbn [Options.limit Options.includeContent Options.tags]. cbn zeta.
  destruct (n =? 0)%Z eqn:E0; [apply Z.eqb_eq in E0; lia|].
  unfold slice_to. destruct (n <? 0)%Z eqn:E1; [apply Z.ltb_lt in E1; lia|].
  reflexivity.
Qed.

(** X7: a search with a positive limit [n] returns [n] documents, or all
    survivors when they are fewer, and the ones it leaves out are no
    newer than any it returns. *)
Theorem positive_limit_keeps_the_latest
        (rt : runtime) (m : MultiVaultManager) (query : jsstring)
        (ic : option bool) (tg vs : option (list jsstring)) (n : Z)
        (fs : filesystem) :
  (0 < n)%Z ->
  let o := {| Options.includeContent := ic; Options.tags := tg;
              Options.vaults := vs; Options.limit := Some (Int n) |} in
  let found := Spec.survivors rt query ic tg (Spec.scanned rt fs (vaultsToSearch m o)) in
  exists result,
    fst (searchAllVaults rt m query o fs) = Returned result /\
    List.length result = Nat.min (Z.to_nat n) (List.length found) /\
    forall kept left,
      In kept result -> In left found -> ~ In left result ->
      (Note.lastModified left <= Note.lastModified kept)%Z.
Proof.
  intros Hn o found.
  exists (firstn (Z.to_nat n) (sortByLastModified found)).
  split; [now apply search_positive_limit|]. split.
  - rewrite length_firstn.
    now rewrite <- (Permutation_length (sortByLastModified_perm found)).
  - intros kept left Hk Hl Hnot.
    pose proof (sortByLastModified_sorted found) as Hs.
    rewrite <- (firstn_skipn (Z.to_nat n) (sortByLastModified found)) in Hs.
    apply (sorted_app _ _ Hs kept left Hk).
    apply (Permutation_in _ (sortByLastModified_perm found)) in Hl.
    rewrite <- (firstn_skipn (Z.to_nat n) (sortByLastModified found)) in Hl.
    apply in_app_or in Hl as [Hl|Hl]; [contradiction|exact Hl].
Qed.

Lemma positive_limit_keeps_the_latest_witness :
  exists result,
    fst (searchAllVaults sample manager_ab []
           {| Options.includeContent := None; Options.tags := None;
              Options.vaults := None; Options.limit := Some (Int 1) |} disk_ab)
    = Returned result /\
    List.length result =
      Nat.min (Z.to_nat 1)
        (List.length
           (Spec.survivors sample [] None None
              (Spec.scanned sample disk_ab
                 (vaultsToSearch manager_ab
                    {| Options.includeContent := None; Options.tags := None;
                       Options.vaults := None; Options.limit := Some (Int 1) |})))) /\
    forall kept left,
      In kept result ->
      In left (Spec.survivors sample [] None None
                 (Spec.scanned sample disk_ab
                    (vaultsToSearch manager_ab
                       {| Options.includeContent := None; Options.tags := None;
                          Options.vaults := None; Options.limit := Some (Int 1) |}))) ->
      ~ In left result ->
      (Note.lastModified left <= Note.lastModified kept)%Z.
Proof.
  apply (positive_limit_keeps_the_latest sample manager_ab [] None None None 1 disk_ab).
  reflexivity.
Defined.

(** ** Where results come from *)

Lemma parse_files_vault (rt : runtime) (v : VaultConfig)
      (files : list (jsstring * node)) (note : VaultNote) :
  In note (fst (parse_files rt v files)) -> Note.vault note = Config.name v.
Proof.
  induction files as [|[filePath n] files IH]; [intros []|].
  cbn [parse_files].
  destruct (parseNoteFile rt v (filePath, n)) as [parsed l1] eqn:E.
  destruct (parse_files rt v files) as [notes l2]. cbn [fst] in *.
  unfold parseNoteFile in E.
  destruct n as [[c|] mt sz|l]; injection E as <- _; auto.
  intros [<-|H]; [reflexivity|now apply IH].
Qed.

Lemma scanned_vault (rt : runtime) (fs : filesystem) (vs : list VaultConfig)
      (note : VaultNote) :
  In note (Spec.scanned rt fs vs) ->
  exists v, In v vs /\ Spec.reachable fs v = true /\
            In note (Spec.vault_notes rt fs v) /\
            Note.vault note = Config.name v.
Proof.
  unfold Spec.scanned. rewrite in_flat_map. intros (v & Hv & Hn).
  apply filter_In in Hv as [Hv Hr]. exists v. repeat split; try assumption.
  unfold Spec.vault_notes in Hn. now apply parse_files_vault in Hn.
Qed.

(** X8: every document a search returns carries the name of a reachable
    registered collection, and under a collection filter that name is
    one of the filter. *)
Theorem search_results_come_from_candidates
        (rt : runtime) (m : MultiVaultManager) (query : jsstring)
        (ic : option bool) (tg : option (list jsstring)) (lm : option jsnumber)
        (names : list jsstring) (fs : filesystem) :
  (exists result,
      fst (searchAllVaults rt m query
             {| Options.includeContent := ic; Options.tags := tg;
                Options.vaults := None; Options.limit := lm |} fs) = Returned result /\
      forall note, In note result ->
        exists v, In v (getAllVaults m) /\ Spec.reachable fs v = true /\
                  Note.vault note = Config.name v) /\
  (exists result,
      fst (searchAllVaults rt m query
             {| Options.includeContent := ic; Options.tags := tg;
                Options.vaults := Some names; Options.limit := lm |} fs) = Returned result /\
      forall note, In note result ->
        In (Note.vault note) names /\
        exists v, In v (getAllVaults m) /\ Spec.reachable fs v = true /\
                  Note.vault note = Config.name v).
Proof.
  split.
  - destruct (search_sound rt m query
                {| Options.includeContent := ic; Options.tags := tg;
                   Options.vaults := None; Options.limit := lm |} fs)
      as (result & E & _ & Hi).
    exists result. split; [exact E|]. intros note Hn.
    apply Hi in Hn. unfold Spec.survivors in Hn. apply filter_In in Hn as [Hn _].
    apply scanned_vault in Hn as (v & Hv & Hr & _ & Hname).
    exists v. now repeat split.
  - destruct (search_sound rt m query
                {| Options.includeContent := ic; Options.tags := tg;
                   Options.vaults := Some names; Options.limit := lm |} fs)
      as (result & E & _ & Hi).
    exists result. split; [exact E|]. intros note Hn.
    apply Hi in Hn. unfold Spec.survivors in Hn. apply filter_In in Hn as [Hn _].
    apply scanned_vault in Hn as (v & Hv & Hr & _ & Hname).
    unfold vaultsToSearch in Hv. cbn [Options.vaults] in Hv.
    apply filter_In in Hv as [Hv Hm]. apply mem_In in Hm.
    split; [now rewrite Hname|]. exists v. now repeat split.
Qed.

(** ** Reading a collection *)

Lemma startsWith_app (p s : jsstring) : startsWith p (p ++ s) = true.
Proof.
  induction p as [|c p IH]; [reflexivity|]. cbn. now rewrite N.eqb_refl.
Qed.

Lemma skipn_exact {A : Type} (p s : list A) : skipn (List.length p) (p ++ s) = s.
Proof. induction p as [|c p IH]; [reflexivity|exact IH]. Qed.

Lemma replace_str_prefix (p repl s : jsstring) :
  replace_str p repl (p ++ s) = repl ++ s.
Proof.
  pose proof (startsWith_app p s) as Hs. pose proof (skipn_exact p s) as Hk.
  destruct (p ++ s) eqn:E; cbn [replace_str]; rewrite Hs; now rewrite Hk.
Qed.

Lemma strip_leading_char (a : ascii) (s : jsstring) :
  replace false false (Seq Bol (Chr a)) [] (ch a :: s) = s.
Proof.
  unfold replace. cbn [subst]. unfold match_at, Chr. cbn [run at_bol].
  rewrite N.eqb_refl. cbn [m_end Nat.eqb app Nat.sub]. apply subst_inactive.
Qed.

(** X9: a file found under the root of its collection is filed under its
    path relative to that root, with the name of the collection, its
    content, modification time and size, and nothing is printed. *)
Theorem note_path_is_relative_to_the_root
        (rt : runtime) (v : VaultConfig) (rel content : jsstring) (mtime size : Z) :
  exists note,
    parseNoteFile rt v (Config.path v ++ js "/" ++ rel, File (Some content) mtime size)
      = (Some note, []) /\
    Note.path note = rel /\ Note.vault note = Config.name v /\
    Note.content note = content /\
    Note.lastModified note = mtime /\ Note.size note = size.
Proof.
  eexists. split; [reflexivity|]. cbn [Note.path Note.vault Note.content
                                       Note.lastModified Note.size].
  repeat split. rewrite (replace_str_prefix (Config.path v) [] (js "/" ++ rel)).
  apply (strip_leading_char "/" rel).
Qed.

Lemma parse_files_contents (rt : runtime) (v : VaultConfig)
      (files : list (jsstring * node)) :
  map Note.content (fst (parse_files rt v files)) =
    flat_map Describe.readable_content files /\
  forall f, In f files -> Describe.readable_content f = [] ->
            In (error_parsing_note (fst f)) (snd (parse_files rt v files)).
Proof.
  induction files as [|[filePath n] files [IH1 IH2]]; [split; [reflexivity|intros f []]|].
  cbn [parse_files flat_map].
  destruct (parse_files rt v files) as [notes l2]. cbn [fst snd] in *.
  unfold parseNoteFile, Describe.readable_content at 1. cbn [snd].
  destruct n as [[c|] mt sz|l]; cbn [fst snd map app]; split;
    try (now rewrite IH1).
  - intros f [<-|Hf] Hu; [discriminate Hu|now apply IH2].
  - intros f [<-|Hf] Hu; [now left|right; now apply IH2].
  - intros f [<-|Hf] Hu; [now left|right; now apply IH2].
Qed.

(** X10: reading a collection never throws and passes over what cannot
    be read: the documents returned are, in scan order, the files whose
    content could be read, and each file that could not is named in an
    error entry. *)
Theorem unreadable_files_are_passed_over
        (rt : runtime) (v : VaultConfig) (fs : filesystem) :
  let files := fst (scan_root rt fs (Config.path v)) in
  exists notes log,
    readVaultNotes rt v fs = (Returned notes, log) /\
    map Note.content notes = flat_map Describe.readable_content files /\
    forall f, In f files -> Describe.readable_content f = [] ->
              In (error_parsing_note (fst f)) log.
Proof.
  intros files. unfold readVaultNotes. subst files.
  destruct (scan_root rt fs (Config.path v)) as [files l1]. cbn [fst].
  destruct (parse_files_contents rt v files) as [H1 H2].
  destruct (parse_files rt v files) as [notes l2]. cbn [fst snd] in *.
  exists notes, (l1 ++ l2). split; [reflexivity|]. split; [exact H1|].
  intros f Hf Hu. apply in_or_app. right. now apply H2.
Qed.

(** ** Statistics *)

Lemma assoc_set_same {V : Type} (k : jsstring) (v : V) (l : list (jsstring * V)) :
  assoc k (assoc_set k v l) = Some v.
Proof.
  induction l as [|[k' v'] l IH]; cbn; [now rewrite str_eqb_refl|].
  destruct (str_eqb k k') eqn:E; cbn; [now rewrite str_eqb_refl|].
  now rewrite E.
Qed.

Lemma assoc_set_other {V : Type} (k k' : jsstring) (v : V) (l : list (jsstring * V)) :
  str_eqb k' k = false -> assoc k' (assoc_set k v l) = assoc k' l.
Proof.
  intros H. induction l as [|[k0 v0] l IH]; cbn; [now rewrite H|].
  destruct (str_eqb k k0) eqn:E; cbn.
  - apply str_eqb_eq in E. subst k0. now rewrite H.
  - destruct (str_eqb k' k0); [reflexivity|exact IH].
Qed.

Lemma stats_vault_step (rt : runtime) (fs : filesystem)
      (stats : list (jsstring * Stats.entry)) (v : VaultConfig) :
  stats_vault rt stats v fs =
  (Returned (if Spec.reachable fs v
             then stats_set stats (Config.name v) (Describe.stats_entry rt fs v)
             else stats),
   if Spec.reachable fs v then Spec.scan_log rt fs v else []).
Proof.
  unfold stats_vault, Spec.reachable, bind at 1, validateVault.
  destruct (fs (Config.path v)) as [n|] eqn:E; cbn [negb]; [|reflexivity].
  erewrite bind_returned by apply readVaultNotes_eq.
  cbn. now rewrite app_nil_r.
Qed.

Lemma foldM_stats_eq (rt : runtime) (fs : filesystem) (vs : list VaultConfig) :
  forall stats,
    foldM (stats_vault rt) vs stats fs =
    (Returned (Describe.stats_after rt fs vs stats), Spec.index_log rt fs vs).
Proof.
  induction vs as [|v vs IH]; intros stats; [reflexivity|].
  cbn [foldM Describe.stats_after fold_left].
  erewrite bind_returned by apply stats_vault_step.
  rewrite IH. reflexivity.
Qed.

Lemma stats_after_sound (rt : runtime) (fs : filesystem) (vs : list VaultConfig) :
  forall stats name e,
    assoc name (Describe.stats_after rt fs vs stats) = Some e ->
    assoc name stats = Some e \/
    exists v, In v vs /\ Spec.reachable fs v = true /\ Config.name v = name /\
              e = Describe.stats_entry rt fs v.
Proof.
  induction vs as [|v vs IH]; intros stats name e H; [now left|].
  cbn [Describe.stats_after fold_left] in H. apply IH in H as [H|(v' & Hv & H)].
  - destruct (Spec.reachable fs v) eqn:Er; [|now left].
    unfold stats_set in H. destruct (str_eqb (Config.name v) proto_key); [now left|].
    destruct (str_eqb name (Config.name v)) eqn:En.
    + apply str_eqb_eq in En. subst name. rewrite assoc_set_same in H.
      injection H as <-. right. exists v. repeat split; auto. now left.
    + rewrite assoc_set_other in H by exact En. now left.
  - right. exists v'. split; [now right|exact H].
Qed.

Lemma stats_after_keeps (rt : runtime) (fs : filesystem) (vs : list VaultConfig) :
  forall stats name,
    assoc name stats <> None ->
    assoc name (Describe.stats_after rt fs vs stats) <> None.
Proof.
  induction vs as [|v vs IH]; intros stats name H; [exact H|].
  cbn [Describe.stats_after fold_left]. apply IH.
  destruct (Spec.reachable fs v); [|exact H].
  unfold stats_set. destruct (str_eqb (Config.name v) proto_key); [exact H|].
  destruct (str_eqb name (Config.name v)) eqn:En.
  - apply str_eqb_eq in En. subst name. now rewrite assoc_set_same.
  - now rewrite assoc_set_other.
Qed.

(** X11: the statistics never throw.  Every row belongs to a reachable
    registered collection of that name and holds the number of its
    documents and the sum of their sizes; every reachable collection has
    a row, unless it is named [__proto__]. *)
Theorem vault_stats_cover_reachable_collections
        (rt : runtime) (m : MultiVaultManager) (fs : filesystem) :
  exists stats log,
    getVaultStats rt m fs = (Returned stats, log) /\
    (forall name e,
        assoc name stats = Some e ->
        exists v, In v (getAllVaults m) /\ Spec.reachable fs v = true /\
                  Config.name v = name /\
                  Stats.noteCount e = List.length (Spec.vault_notes rt fs v) /\
                  Stats.totalSize e = sum_sizes (Spec.vault_notes rt fs v)) /\
    (forall v, In v (getAllVaults m) -> Spec.reachable fs v = true ->
               str_eqb (Config.name v) proto_key = false ->
               assoc (Config.name v) stats <> None).
Proof.
  eexists _, _. split; [apply foldM_stats_eq|]. split.
  - intros name e H. apply stats_after_sound in H as [H|(v & Hv & Hr & Hn & ->)];
      [discriminate H|]. exists v. repeat split; assumption.
  - intros v Hv Hr Hp. generalize (@nil (jsstring * Stats.entry)).
    induction (getAllVaults m) as [|v' vs IH]; [destruct Hv|]. intros stats.
    cbn [Describe.stats_after fold_left]. destruct Hv as [->|Hv]; [|now apply IH].
    rewrite Hr. apply stats_after_keeps. unfold stats_set. rewrite Hp.
    now rewrite assoc_set_same.
Qed.

(** X12: validation reports on every registered collection once, the
    primary one first, says [true] exactly for the reachable ones, and
    neither prints nor throws. *)
Theorem validateAllVaults_reports_each_collection
        (m : MultiVaultManager) (fs : filesystem) :
  validateAllVaults m fs =
  (Returned (map (fun v => (v, Spec.reachable fs v)) (getAllVaults m)), []) /\
  hd_error (map (fun r => Config.type (fst r))
                (map (fun v => (v, Spec.reachable fs v)) (getAllVaults m))) = Some ghost.
Proof.
  split; [|reflexivity]. unfold validateAllVaults.
  assert (H : forall vs acc,
             foldM (fun results vault =>
                      valid <- validateVault vault ;; ret (results ++ [(vault, valid)]))
                   vs acc fs =
             (Returned (acc ++ map (fun v => (v, Spec.reachable fs v)) vs), [])).
  { induction vs as [|v vs IH]; intros acc; cbn [foldM map].
    - cbn. now rewrite app_nil_r.
    - unfold bind at 1. unfold bind at 1. unfold validateVault at 1. unfold ret at 1.
      cbn [app]. rewrite IH. cbn [app]. unfold Spec.reachable.
      now rewrite <- app_assoc. }
  apply (H (getAllVaults m) []).
Qed.

(** ** Topic counts *)

Lemma carriers_app (tag : jsstring) (a b : list VaultNote) :
  Describe.carriers tag (a ++ b) = Describe.carriers tag a ++ Describe.carriers tag b.
Proof. apply filter_app. Qed.

Lemma topic_view_ext (tag : jsstring) (notes notes' : list VaultNote)
      (ti ti' : list (jsstring * Topic.entry)) :
  assoc tag ti' = assoc tag ti ->
  Describe.carriers tag notes' = Describe.carriers tag notes ->
  Describe.topic_view tag notes ti -> Describe.topic_view tag notes' ti'.
Proof.
  unfold Describe.topic_view. intros -> ->. exact (fun H => H).
Qed.

Lemma index_tags_thrown_stays (vaultName : jsstring) (tags : list jsstring) (e : exn) :
  fold_left (index_tag vaultName) tags (Thrown e) = Thrown e.
Proof. induction tags as [|t tags IH]; [reflexivity|exact IH]. Qed.

Lemma index_notes_thrown_stays (vaultName : jsstring) (notes : list VaultNote) (e : exn) :
  fold_left (fun ti note => fold_left (index_tag vaultName) (Note.tags note) ti)
            notes (Thrown e) = Thrown e.
Proof.
  induction notes as [|n notes IH]; [reflexivity|].
  cbn [fold_left]. now rewrite index_tags_thrown_stays.
Qed.

(** Entering one tag of a document [n] that follows the documents [P]. *)
Lemma index_tag_step (ti ti' : list (jsstring * Topic.entry)) (t : jsstring)
      (P : list VaultNote) (n : VaultNote) :
  index_tag (Note.vault n) (Returned ti) t = Returned ti' ->
  mem t (Note.tags n) = true ->
  Describe.carriers t P ++ [n] = Describe.carriers t (P ++ [n]) /\
  (Describe.topic_view t P ti -> Describe.topic_view t (P ++ [n]) ti') /\
  (forall t', str_eqb t' t = false -> assoc t' ti' = assoc t' ti).
Proof.
  intros H Hm.
  assert (Hc : Describe.carriers t P ++ [n] = Describe.carriers t (P ++ [n])).
  { rewrite carriers_app. unfold Describe.carriers at 3. cbn [filter]. now rewrite Hm. }
  split; [exact Hc|].
  unfold index_tag in H. unfold Describe.topic_view.
  destruct (assoc t ti) as [e|] eqn:Ea.
  - injection H as <-. split.
    + intros (Hcount & Hpos & Hnd & Hin). rewrite assoc_set_same.
      cbn [Topic.count Topic.vaults]. rewrite <- Hc, length_app. cbn [List.length].
      split; [lia|]. split; [lia|].
      destruct (mem (Note.vault n) (Topic.vaults e)) eqn:Ev.
      * split; [exact Hnd|]. intros name. rewrite Hin. split.
        -- intros (note & Hn & <-). exists note. split; [|reflexivity].
           apply in_or_app. now left.
        -- intros (note & Hn & <-). apply in_app_or in Hn as [Hn|[<-|[]]].
           ++ now exists note.
           ++ apply Hin. now apply mem_In.
      * split.
        -- apply NoDup_app; [exact Hnd|repeat constructor; intros []|].
           intros x Hx [<-|[]]. apply mem_In in Hx. congruence.
        -- intros name. rewrite in_app_iff, Hin. cbn [In]. split.
           ++ intros [(note & Hn & <-)|[<-|[]]].
              ** exists note. split; [apply in_or_app; now left|reflexivity].
              ** exists n. split; [apply in_or_app; right; now left|reflexivity].
           ++ intros (note & Hn & <-). apply in_app_or in Hn as [Hn|[<-|[]]].
              ** left. now exists note.
              ** right. now left.
    + intros t' Ht. now apply assoc_set_other.
  - destruct (inherited t); [discriminate H|]. injection H as <-. split.
    + intros Hnone. rewrite assoc_set_same. cbn [Topic.count Topic.vaults].
      rewrite <- Hc, Hnone. cbn [app List.length].
      split; [reflexivity|]. split; [lia|].
      split; [repeat constructor; intros []|].
      intros name. cbn [In]. split.
      * intros [<-|[]]. exists n. split; [now left|reflexivity].
      * intros (note & [<-|[]] & <-). now left.
    + intros t' Ht. now apply assoc_set_other.
Qed.

(** Entering the tags [ts] of the document [n]. *)
Lemma index_tags_step (P : list VaultNote) (n : VaultNote) (ts : list jsstring) :
  forall ti ti',
    NoDup ts -> (forall t, In t ts -> mem t (Note.tags n) = true) ->
    fold_left (index_tag (Note.vault n)) ts (Returned ti) = Returned ti' ->
    (forall t, In t ts -> Describe.topic_view t P ti ->
               Describe.topic_view t (P ++ [n]) ti') /\
    (forall t, ~ In t ts -> assoc t ti' = assoc t ti).
Proof.
  induction ts as [|t0 ts IH]; intros ti ti' Hnd Hin H.
  - injection H as <-. split; [intros t []|reflexivity].
  - cbn [fold_left] in H. inversion Hnd as [|? ? Hnot Hnd']; subst.
    destruct (index_tag (Note.vault n) (Returned ti) t0) as [ti1|e] eqn:E1;
      [|rewrite index_tags_thrown_stays in H; discriminate H].
    destruct (index_tag_step ti ti1 t0 P n E1 (Hin t0 (or_introl eq_refl)))
      as (_ & Hv & Ho).
    destruct (IH ti1 ti' Hnd' (fun t Ht => Hin t (or_intror Ht)) H) as (IH1 & IH2).
    split.
    + intros t [<-|Ht] Hview.
      * apply (topic_view_ext t0 (P ++ [n]) (P ++ [n]) ti1 ti' (IH2 t0 Hnot) eq_refl).
        now apply Hv.
      * apply (IH1 t Ht).
        apply (topic_view_ext t P P ti ti1); [|reflexivity|exact Hview].
        apply Ho. destruct (str_eqb t t0) eqn:Et; [|reflexivity].
        apply str_eqb_eq in Et. subst. contradiction.
    + intros t Ht. rewrite (IH2 t (fun H' => Ht (or_intror H'))).
      apply Ho. destruct (str_eqb t t0) eqn:Et; [|reflexivity].
      apply str_eqb_eq in Et. subst. exfalso. apply Ht. now left.
Qed.

Lemma index_note_step (P : list VaultNote) (n : VaultNote)
      (ti ti' : list (jsstring * Topic.entry)) :
  NoDup (Note.tags n) ->
  fold_left (index_tag (Note.vault n)) (Note.tags n) (Returned ti) = Returned ti' ->
  (forall t, Describe.topic_view t P ti) ->
  forall t, Describe.topic_view t (P ++ [n]) ti'.
Proof.
  intros Hnd H Hall t.
  destruct (index_tags_step P n (Note.tags n) ti ti' Hnd
              (fun t Ht => proj2 (mem_In t _) Ht) H) as (H1 & H2).
  destruct (mem t (Note.tags n)) eqn:Em.
  - apply H1; [now apply mem_In|apply Hall].
  - assert (Hnot : ~ In t (Note.tags n)) by (intros Hi; apply mem_In in Hi; congruence).
    apply (topic_view_ext t P (P ++ [n]) ti ti' (H2 t Hnot)); [|apply Hall].
    rewrite carriers_app. unfold Describe.carriers at 2. cbn [filter].
    rewrite Em. apply app_nil_r.
Qed.

Lemma index_notes_step (vaultName : jsstring) (notes : list VaultNote) :
  forall P ti ti',
    (forall n, In n notes -> NoDup (Note.tags n) /\ Note.vault n = vaultName) ->
    index_notes vaultName notes ti = Returned ti' ->
    (forall t, Describe.topic_view t P ti) ->
    forall t, Describe.topic_view t (P ++ notes) ti'.
Proof.
  unfold index_notes.
  induction notes as [|n notes IH]; intros P ti ti' Hn H Hall t.
  - injection H as <-. rewrite app_nil_r. apply Hall.
  - cbn [fold_left] in H.
    destruct (fold_left (index_tag vaultName) (Note.tags n) (Returned ti))
      as [ti1|e] eqn:E1; [|rewrite index_notes_thrown_stays in H; discriminate H].
    destruct (Hn n (or_introl eq_refl)) as [Hnd Hv]. subst vaultName.
    change (P ++ n :: notes) with (P ++ [n] ++ notes). rewrite app_assoc.
    apply (IH (P ++ [n]) ti1 ti' (fun x Hx => Hn x (or_intror Hx)) H).
    now apply (index_note_step P n ti ti1).
Qed.

Lemma vault_notes_wellformed (rt : runtime) (fs : filesystem) (v : VaultConfig)
      (n : VaultNote) :
  In n (Spec.vault_notes rt fs v) ->
  NoDup (Note.tags n) /\ Note.vault n = Config.name v.
Proof.
  unfold Spec.vault_notes. generalize (fst (scan_root rt fs (Config.path v))).
  intros files. induction files as [|[filePath x] files IH]; [intros []|].
  cbn [parse_files].
  destruct (parseNoteFile rt v (filePath, x)) as [parsed l1] eqn:E.
  destruct (parse_files rt v files) as [notes l2]. cbn [fst] in *.
  unfold parseNoteFile in E.
  destruct x as [[c|] mt sz|l]; injection E as <- _; auto.
  intros [<-|H]; [|now apply IH].
  cbn [Note.tags Note.vault]. split; [apply extractTags_NoDup|reflexivity].
Qed.

Lemma index_all_view (rt : runtime) (fs : filesystem) (vs : list VaultConfig) :
  forall P ti ti',
    Spec.index_all rt fs vs ti = Returned ti' ->
    (forall t, Describe.topic_view t P ti) ->
    forall t, Describe.topic_view t (P ++ Spec.scanned rt fs vs) ti'.
Proof.
  induction vs as [|v vs IH]; intros P ti ti' H Hall t.
  - injection H as <-. unfold Spec.scanned. cbn. rewrite app_nil_r. apply Hall.
  - cbn [Spec.index_all] in H. unfold Spec.scanned in *. cbn [filter].
    destruct (Spec.reachable fs v); [|now apply (IH P ti ti')].
    cbn [flat_map]. rewrite app_assoc.
    destruct (index_notes (Config.name v) (Spec.vault_notes rt fs v) ti)
      as [ti1|e] eqn:E1; [|discriminate H].
    apply (IH (P ++ Spec.vault_notes rt fs v) ti1 ti' H).
    apply (index_notes_step (Config.name v) _ P ti ti1); [|exact E1|exact Hall].
    intros n Hn. now apply (vault_notes_wellformed rt fs v).
Qed.

(** X13: when index generation returns, the row of a topic holds the
    number of scanned documents that carry the tag, each counted once,
    and the names, without repetition, of the collections those documents
    come from; a tag no document carries has no row. *)
Theorem topic_count_is_the_number_of_documents
        (rt : runtime) (m : MultiVaultManager) (fs : filesystem) (tag : jsstring) :
  match fst (generateCrossVaultIndex rt m fs) with
  | Returned idx =>
      let documents :=
        Describe.carriers tag (Spec.scanned rt fs (getAllVaults m)) in
      match assoc tag (Index.topics idx) with
      | Some e =>
          Topic.count e = List.length documents /\
          0 < Topic.count e /\
          NoDup (Topic.vaults e) /\
          forall name, In name (Topic.vaults e) <->
                       exists note, In note documents /\ Note.vault note = name
      | None => documents = []
      end
  | Thrown _ => True
  end.
Proof.
  pose proof (generateCrossVaultIndex_eq rt m fs) as H.
  destruct (Spec.index_all rt fs (getAllVaults m) []) as [ti|e] eqn:E.
  - destruct H as (stats & ->). cbn [fst Index.topics].
    apply (index_all_view rt fs (getAllVaults m) [] [] ti E).
    intros t. reflexivity.
  - destruct H as (-> & _). exact I.
Qed.

(** ** The index and the search *)

(** X14: the recent documents of the index are what a search for the
    empty text over all collections returns under a limit of twenty. *)
Theorem recent_notes_are_an_unfiltered_search
        (rt : runtime) (m : MultiVaultManager) (fs : filesystem) :
  match fst (generateCrossVaultIndex rt m fs) with
  | Returned idx =>
      fst (searchAllVaults rt m []
             {| Options.includeContent := None; Options.tags := None;
                Options.vaults := None; Options.limit := Some (Int 20) |} fs)
      = Returned (Index.recentNotes idx)
  | Thrown _ => True
  end.
Proof.
  pose proof (generateCrossVaultIndex_eq rt m fs) as H.
  destruct (Spec.index_all rt fs (getAllVaults m) []) as [ti|e].
  - destruct H as (stats & ->). cbn [fst Index.recentNotes].
    rewrite search_eq. cbn [Options.limit Options.tags Options.includeContent].
    unfold vaultsToSearch. cbn [Options.vaults]. f_equal.
    cbn [Z.eqb]. unfold slice_to. cbn [Z.ltb Z.compare Z.to_nat Pos.to_nat].
    unfold Spec.survivors. cbn [nonempty str_eqb negb andb].
    rewrite filter_all; reflexivity.
  - destruct H as (-> & _). exact I.
Qed.

(** ** Relative time *)

Lemma ago_is_not_just_now (a b c : jsstring) :
  a ++ b ++ c ++ js " ago" <> js "Just now".
Proof.
  intros H. apply (f_equal (@rev char)) in H.
  rewrite !rev_app_distr in H. cbv in H. discriminate H.
Qed.

Lemma getRelativeTime_cases (now date : Z) :
  let d := (now - date)%Z in
  Cli.getRelativeTime now date =
  if (86400000 <=? d)%Z
  then Cli.number_text (d / 86400000) ++ js " day"
       ++ (if (1 <? d / 86400000)%Z then js "s" else []) ++ js " ago"
  else if (3600000 <=? d)%Z
  then Cli.number_text (d / 3600000) ++ js " hour"
       ++ (if (1 <? d / 3600000)%Z then js "s" else []) ++ js " ago"
  else if (60000 <=? d)%Z
  then Cli.number_text (d / 60000) ++ js " minute"
       ++ (if (1 <? d / 60000)%Z then js "s" else []) ++ js " ago"
  else js "Just now".
Proof.
  intros d. unfold Cli.getRelativeTime. fold d.
  change (1000 * 60 * 60 * 24)%Z with 86400000%Z.
  change (1000 * 60 * 60)%Z with 3600000%Z.
  change (1000 * 60)%Z with 60000%Z.
  cbn zeta.
  assert (E1 : (0 <? d / 86400000)%Z = (86400000 <=? d)%Z).
  { destruct (Z.leb_spec 86400000 d); [apply Z.ltb_lt|apply Z.ltb_ge];
      Z.div_mod_to_equations; lia. }
  assert (E2 : (0 <? d / 3600000)%Z = (3600000 <=? d)%Z).
  { destruct (Z.leb_spec 3600000 d); [apply Z.ltb_lt|apply Z.ltb_ge];
      Z.div_mod_to_equations; lia. }
  assert (E3 : (0 <? d / 60000)%Z = (60000 <=? d)%Z).
  { destruct (Z.leb_spec 60000 d); [apply Z.ltb_lt|apply Z.ltb_ge];
      Z.div_mod_to_equations; lia. }
  rewrite E1, E2, E3. reflexivity.
Qed.

(** X15: the text is [Just now] exactly when less than a minute lies
    between the date and the clock, a date ahead of the clock included. *)
Theorem just_now_means_under_a_minute (now date : Z) :
  Cli.getRelativeTime now date = js "Just now" <-> (now - date < 60000)%Z.
Proof.
  pose proof (getRelativeTime_cases now date) as E. cbn zeta in E. rewrite E.
  destruct (Z.leb_spec 86400000 (now - date)).
  { split; [intros H'; now apply ago_is_not_just_now in H'|lia]. }
  destruct (Z.leb_spec 3600000 (now - date)).
  { split; [intros H'; now apply ago_is_not_just_now in H'|lia]. }
  destruct (Z.leb_spec 60000 (now - date)).
  { split; [intros H'; now apply ago_is_not_just_now in H'|lia]. }
  split; [lia|reflexivity].
Qed.

(** X16: from one minute on, the text counts whole units, rounded down,
    of the largest of minute, hour and day that fits: fewer than sixty
    minutes, fewer than twenty-four hours, and the plural for more than
    one. *)
Theorem relative_time_counts_whole_units (now date : Z) :
  (60000 <= now - date)%Z ->
  exists (n : Z) (unit : string),
    In unit ["minute"; "hour"; "day"]%string /\
    Cli.getRelativeTime now date = Describe.phrase n unit /\
    (1 <= n)%Z /\
    (Describe.unit_span unit * n <= now - date
     < Describe.unit_span unit * (n + 1))%Z /\
    (unit = "minute"%string -> (n < 60)%Z) /\
    (unit = "hour"%string -> (n < 24)%Z).
Proof.
  intros Hd.
  pose proof (getRelativeTime_cases now date) as E. cbn zeta in E. rewrite E.
  clear E. set (d := (now - date)%Z) in *.
  destruct (Z.leb_spec 86400000 d) as [H1|H1].
  { exists (d / 86400000)%Z, "day"%string.
    assert (Hn : (1 <= d / 86400000)%Z) by (Z.div_mod_to_equations; lia).
    split; [cbn; auto|]. split.
    { unfold Describe.phrase.
      destruct (Z.ltb_spec 1 (d / 86400000)), (Z.eqb_spec (d / 86400000) 1);
        try reflexivity; lia. }
    split; [exact Hn|]. split.
    { change (Describe.unit_span "day") with 86400000%Z.
      Z.div_mod_to_equations; lia. }
    split; discriminate. }
  destruct (Z.leb_spec 3600000 d) as [H2|H2].
  { exists (d / 3600000)%Z, "hour"%string.
    assert (Hn : (1 <= d / 3600000)%Z) by (Z.div_mod_to_equations; lia).
    split; [cbn; auto|]. split.
    { unfold Describe.phrase.
      destruct (Z.ltb_spec 1 (d / 3600000)), (Z.eqb_spec (d / 3600000) 1);
        try reflexivity; lia. }
    split; [exact Hn|]. split.
    { change (Describe.unit_span "hour") with 3600000%Z.
      Z.div_mod_to_equations; lia. }
    split; [discriminate|]. intros _. Z.div_mod_to_equations; lia. }
  destruct (Z.leb_spec 60000 d) as [H3|H3]; [|lia].
  exists (d / 60000)%Z, "minute"%string.
  assert (Hn : (1 <= d / 60000)%Z) by (Z.div_mod_to_equations; lia).
  split; [cbn; auto|]. split.
  { unfold Describe.phrase.
    destruct (Z.ltb_spec 1 (d / 60000)), (Z.eqb_spec (d / 60000) 1);
      try reflexivity; lia. }
  split; [exact Hn|]. split.
  { change (Describe.unit_span "minute") with 60000%Z.
    Z.div_mod_to_equations; lia. }
  split; [|discriminate]. intros _. Z.div_mod_to_equations; lia.
Qed.

Lemma relative_time_counts_whole_units_witness :
  exists (n : Z) (unit : string),
    In unit ["minute"; "hour"; "day"]%string /\
    Cli.getRelativeTime today yesterday = Describe.phrase n unit /\
    (1 <= n)%Z /\
    (Describe.unit_span unit * n <= today - yesterday
     < Describe.unit_span unit * (n + 1))%Z /\
    (unit = "minute"%string -> (n < 60)%Z) /\
    (unit = "hour"%string -> (n < 24)%Z).
Proof.
  apply (relative_time_counts_whole_units today yesterday).
  vm_compute. discriminate.
Defined.

(** ** Topics of a recording *)

Lemma fold_set_add_fresh (l : list jsstring) :
  forall acc, NoDup (acc ++ l) -> fold_left set_add l acc = acc ++ l.
Proof.
  induction l as [|x l IH]; intros acc H; cbn [fold_left].
  - now rewrite app_nil_r.
  - assert (Hx : mem x acc = false).
    { destruct (mem x acc) eqn:E; [|reflexivity].
      apply mem_In in E. apply NoDup_remove_2 in H.
      exfalso. apply H. apply in_or_app. now left. }
    unfold set_add at 2. rewrite Hx.
    rewrite IH; rewrite <- app_assoc; [reflexivity|exact H].
Qed.

Lemma NoDup_map_filter (A B : Type) (g : A -> B) (f : A -> bool) (l : list A) :
  NoDup (map g l) -> NoDup (map g (filter f l)).
Proof.
  induction l as [|a l IH]; intros H; [constructor|].
  cbn [map] in H. inversion H as [|? ? Hn Hl]; subst.
  cbn [filter]. destruct (f a); [|now apply IH].
  cbn [map]. constructor; [|now apply IH].
  intros Hin. apply Hn. apply in_map_iff in Hin as (x & <- & Hx).
  apply in_map. now apply filter_In in Hx.
Qed.

Lemma NoDup_firstn_of (A : Type) (n : nat) (l : list A) :
  NoDup l -> NoDup (firstn n l).
Proof.
  intros H. rewrite <- (firstn_skipn n l) in H.
  now apply NoDup_app_remove_r in H.
Qed.

Lemma topic_names_differ : NoDup (map fst Obsidian.topicKeywords).
Proof.
  unfold Obsidian.topicKeywords. cbn [map fst].
  repeat (constructor; [cbv; intuition discriminate|]). constructor.
Qed.

Lemma fold_topics (content : jsstring) (l : list (jsstring * list jsstring)) :
  forall acc,
    fold_left
      (fun topics (entry : jsstring * list jsstring) =>
         let '(topic, keywords) := entry in
         if existsb (fun keyword => includes content keyword) keywords
         then topics ++ [topic] else topics) l acc =
    acc ++ map fst (filter (fun entry : jsstring * list jsstring =>
                              existsb (fun keyword => includes content keyword)
                                      (snd entry)) l).
Proof.
  induction l as [|[topic keywords] l IH]; intros acc; cbn [fold_left filter snd].
  - now rewrite app_nil_r.
  - rewrite IH.
    destruct (existsb (fun keyword => includes content keyword) keywords);
      [|reflexivity].
    cbn [map fst]. now rewrite <- app_assoc.
Qed.

Lemma extractTopics_eq (rt : runtime) (lifelog : Obsidian.Lifelog) :
  Obsidian.extractTopics rt lifelog =
  firstn 5 (Describe.matching_topics (Obsidian.topic_text rt lifelog)).
Proof.
  unfold Obsidian.extractTopics. cbn zeta. rewrite fold_topics. cbn [app].
  fold (Describe.matching_topics (Obsidian.topic_text rt lifelog)).
  rewrite fold_set_add_fresh; [reflexivity|]. cbn [app].
  apply NoDup_map_filter, topic_names_differ.
Qed.

(** X17: the topics of a recording are the first five topics of the
    table, in table order, that have a keyword somewhere in the lowercased
    title and transcript: never more than five, none twice, each backed
    by a keyword of its row. *)
Theorem topics_are_the_first_five_matches
        (rt : runtime) (lifelog : Obsidian.Lifelog) :
  Obsidian.extractTopics rt lifelog =
    firstn 5 (Describe.matching_topics (Obsidian.topic_text rt lifelog)) /\
  NoDup (Obsidian.extractTopics rt lifelog) /\
  List.length (Obsidian.extractTopics rt lifelog) <= 5 /\
  forall topic,
    In topic (Obsidian.extractTopics rt lifelog) ->
    exists keywords keyword,
      In (topic, keywords) Obsidian.topicKeywords /\
      In keyword keywords /\
      includes (Obsidian.topic_text rt lifelog) keyword = true.
Proof.
  rewrite extractTopics_eq. split; [reflexivity|]. split.
  { apply NoDup_firstn_of, NoDup_map_filter, topic_names_differ. }
  split; [apply firstn_le_length|].
  intros topic H. apply firstn_incl in H. unfold Describe.matching_topics in H.
  apply in_map_iff in H as ([t keywords] & <- & H).
  apply filter_In in H as [Hin Hex]. cbn [snd fst] in *.
  apply existsb_exists in Hex as (keyword & Hk & Hinc).
  now exists keywords, keyword.
Qed.

(** ** The title part of a file name *)

Lemma subst_delete_class (p : char -> bool) (s : jsstring) :
  forall prev pos,
    subst false (Cls p) [] true true prev pos s 0 =
    filter (fun c => negb (p c)) s.
Proof.
  induction s as [|c s IH]; intros prev pos; cbn [subst filter];
    unfold match_at; cbn [run]; [reflexivity|].
  destruct (p c); cbn [negb].
  - cbn [m_end app]. replace (S pos - pos - 1) with 0 by lia.
    replace (Nat.eqb (S pos) pos) with false
      by (symmetry; apply Nat.eqb_neq; lia).
    cbn [app]. apply IH.
  - now rewrite IH.
Qed.

Lemma subst_skip (ml : bool) (r : regex) (repl : jsstring) (g a : bool)
      (l tail : jsstring) :
  forall prev pos,
    subst ml r repl g a prev pos (l ++ tail) (List.length l) =
    subst ml r repl g a (last_seen l prev) (pos + List.length l) tail 0.
Proof.
  induction l as [|c l IH]; intros prev pos.
  - cbn [app List.length last_seen fold_left]. now rewrite Nat.add_0_r.
  - cbn [app List.length subst]. rewrite IH.
    cbn [last_seen fold_left]. now rewrite Nat.add_succ_r.
Qed.

Lemma space_run (s : jsstring) :
  exists l tail,
    s = l ++ tail /\ forallb is_space l = true /\ stops is_space tail = true.
Proof.
  induction s as [|c s (l & tail & E & Hl & Ht)]; [now exists [], []|].
  destruct (is_space c) eqn:Ec.
  - exists (c :: l), tail. cbn [app forallb]. rewrite Ec, <- E. now repeat split.
  - exists [], (c :: s). cbn [app forallb stops]. rewrite Ec. now repeat split.
Qed.

Lemma match_spaces (c : char) (l tail : jsstring) (prev : option char) (pos : nat) :
  is_space c = true -> forallb is_space l = true -> stops is_space tail = true ->
  match_at false Obsidian.re_spaces prev pos (c :: l ++ tail) =
  Some {| m_start := pos; m_end := S pos + List.length l; m_caps := [] |}.
Proof.
  intros Hc Hl Ht. unfold match_at, Obsidian.re_spaces, Plus. cbn [run]. rewrite Hc.
  now apply many_greedy_stop.
Qed.

Lemma squeeze_run (l tail : jsstring) :
  forallb is_space l = true -> stops is_space tail = true ->
  Describe.squeeze true (l ++ tail) = Describe.squeeze false tail.
Proof.
  intros Hl Ht. induction l as [|c l IH].
  - cbn [app]. destruct tail as [|c tail]; [reflexivity|].
    cbn [stops] in Ht. apply negb_true_iff in Ht.
    cbn [Describe.squeeze]. now rewrite Ht.
  - cbn [forallb] in Hl. apply andb_true_iff in Hl as [Hc Hl].
    cbn [app Describe.squeeze]. rewrite Hc. now apply IH.
Qed.

Lemma subst_spaces (n : nat) :
  forall s prev pos,
    List.length s <= n ->
    subst false Obsidian.re_spaces (js " ") true true prev pos s 0 =
    Describe.squeeze false s.
Proof.
  induction n as [|n IH]; intros s prev pos Hn.
  - destruct s; [reflexivity|cbn in Hn; lia].
  - destruct s as [|c s]; [reflexivity|].
    cbn [List.length] in Hn. destruct (is_space c) eqn:Ec.
    + destruct (space_run s) as (l & tail & -> & Hl & Ht).
      cbn [subst]. rewrite (match_spaces c l tail prev pos Ec Hl Ht).
      cbn [m_end]. replace (S pos + List.length l - pos - 1) with (List.length l) by lia.
      replace (Nat.eqb (S pos + List.length l) pos) with false
        by (symmetry; apply Nat.eqb_neq; lia).
      rewrite subst_skip. cbn [app].
      rewrite IH by (rewrite length_app in Hn; lia).
      cbn [Describe.squeeze]. rewrite Ec. rewrite (squeeze_run l tail Hl Ht).
      reflexivity.
    + cbn [subst]. unfold match_at, Obsidian.re_spaces, Plus. cbn [run].
      rewrite Ec. rewrite IH by lia.
      cbn [Describe.squeeze]. now rewrite Ec.
Qed.

Lemma squeeze_In (s : jsstring) :
  forall r c, In c (Describe.squeeze r s) ->
              c = ch " " \/ In c s /\ is_space c = false.
Proof.
  induction s as [|d s IH]; intros r c H; [destruct H|].
  cbn [Describe.squeeze] in H. destruct (is_space d) eqn:Ed.
  - destruct r.
    + destruct (IH _ _ H) as [E|[Hi Hs]]; [now left|right; split; [now right|exact Hs]].
    + destruct H as [<-|H]; [now left|].
      destruct (IH _ _ H) as [E|[Hi Hs]]; [now left|right; split; [now right|exact Hs]].
  - destruct H as [<-|H]; [right; split; [now left|exact Ed]|].
    destruct (IH _ _ H) as [E|[Hi Hs]]; [now left|right; split; [now right|exact Hs]].
Qed.

Lemma squeeze_spacing (s : jsstring) :
  forall r,
    Describe.double_space (Describe.squeeze r s) = false /\
    (r = true ->
     match Describe.squeeze r s with c :: _ => is_space c = false | [] => True end).
Proof.
  induction s as [|d s IH]; intros r; [now split|].
  cbn [Describe.squeeze]. destruct (is_space d) eqn:Ed.
  - destruct r; [apply IH|]. split; [|discriminate].
    destruct (IH true) as [H1 H2]. specialize (H2 eq_refl).
    cbn [Describe.double_space].
    destruct (Describe.squeeze true s) as [|b x]; [reflexivity|].
    rewrite H2, andb_false_r. exact H1.
  - split; [|intros _; exact Ed].
    destruct (IH false) as [H1 _]. cbn [Describe.double_space].
    destruct (Describe.squeeze false s) as [|b x]; [reflexivity|].
    rewrite Ed. exact H1.
Qed.

Lemma double_space_app (a b : jsstring) :
  Describe.double_space (a ++ b) = false ->
  Describe.double_space a = false /\ Describe.double_space b = false.
Proof.
  induction a as [|x a IH]; intros H; [now split|].
  cbn [app] in H. cbn [Describe.double_space] in H.
  destruct a as [|y a].
  - split; [reflexivity|]. cbn [app] in H. destruct b as [|z b]; [reflexivity|].
    now apply orb_false_iff in H as [_ H].
  - cbn [app] in H. apply orb_false_iff in H as [H1 H2].
    destruct (IH H2) as [Ha Hb]. split; [|exact Hb].
    cbn [Describe.double_space]. cbn [Describe.double_space] in Ha.
    now rewrite H1, Ha.
Qed.

Lemma trimStart_app_kept (a : jsstring) (c : char) :
  is_space c = false -> trimStart (a ++ [c]) = trimStart a ++ [c].
Proof.
  intros Hc. induction a as [|d a IH]; cbn [app trimStart].
  - now rewrite Hc.
  - destruct (is_space d); [exact IH|reflexivity].
Qed.

Lemma trim_is_inside (s : jsstring) :
  (exists pre post, s = pre ++ trim s ++ post) /\
  match trim s with c :: _ => is_space c = false | [] => True end.
Proof.
  unfold trim, trimEnd. split.
  - destruct (trimStart_split s) as (pre & E1 & _).
    destruct (trimStart_split (rev (trimStart s))) as (ws & E2 & _).
    exists pre, (rev ws). rewrite E1 at 1. f_equal.
    rewrite <- rev_app_distr, <- E2. now rewrite rev_involutive.
  - pose proof (trimStart_head s) as H.
    destruct (trimStart s) as [|c x]; [exact I|].
    cbn [rev]. rewrite (trimStart_app_kept (rev x) c H).
    rewrite rev_app_distr. exact H.
Qed.

Lemma cleanTitle_chars (title : jsstring) (c : char) :
  In c (Obsidian.cleanTitle title) ->
  c = ch " " \/ In c title /\ (is_word c || (c =? ch "-")%N) = true.
Proof.
  unfold Obsidian.cleanTitle, replace. intros H. apply firstn_incl in H.
  destruct (trim_is_inside
              (subst false Obsidian.re_spaces (js " ") true true None 0
                 (subst false Obsidian.re_unsafe [] true true None 0 title 0) 0))
    as [(pre & post & E) _].
  assert (H' : In c (subst false Obsidian.re_spaces (js " ") true true None 0
                       (subst false Obsidian.re_unsafe [] true true None 0 title 0) 0)).
  { rewrite E. apply in_or_app. right. apply in_or_app. now left. }
  rewrite (subst_spaces _ _ None 0 (Nat.le_refl _)) in H'.
  apply squeeze_In in H' as [->|[Hin Hs]]; [now left|right].
  unfold Obsidian.re_unsafe in Hin. rewrite subst_delete_class in Hin.
  apply filter_In in Hin as [Hin Hf]. split; [exact Hin|].
  rewrite negb_involutive in Hf. unfold Obsidian.is_filename_char in Hf.
  rewrite Hs, orb_false_r in Hf. exact Hf.
Qed.

(** X18: the title part of a file name has at most sixty characters;
    each of them is a letter, digit or underscore of the title, a hyphen
    of the title, or a plain space; it does not start with white space and
    holds no two spaces side by side. *)
Theorem clean_title_is_a_plain_name_part (title : jsstring) :
  List.length (Obsidian.cleanTitle title) <= 60 /\
  (forall c, In c (Obsidian.cleanTitle title) ->
             c = ch " " \/ In c title /\ (is_word c || (c =? ch "-")%N) = true) /\
  Describe.double_space (Obsidian.cleanTitle title) = false /\
  match Obsidian.cleanTitle title with
  | c :: _ => is_space c = false
  | [] => True
  end.
Proof.
  split; [apply firstn_le_length|].
  split; [apply cleanTitle_chars|].
  unfold Obsidian.cleanTitle, replace.
  set (squeezed := subst false Obsidian.re_spaces (js " ") true true None 0
                     (subst false Obsidian.re_unsafe [] true true None 0 title 0) 0).
  destruct (trim_is_inside squeezed) as [(pre & post & E) Hhead].
  split.
  - assert (Hs : Describe.double_space squeezed = false).
    { unfold squeezed. rewrite (subst_spaces _ _ None 0 (Nat.le_refl _)).
      apply squeeze_spacing. }
    rewrite E in Hs. apply double_space_app in Hs as [_ Hs].
    apply double_space_app in Hs as [Hs _].
    rewrite <- (firstn_skipn 60 (trim squeezed)) in Hs.
    now apply double_space_app in Hs as [Hs _].
  - destruct (trim squeezed) as [|c x]; [exact I|exact Hhead].
Qed.

(** ** The client of the recording service *)

Section Client.
Import Limitless.
Variable parseInt : jsstring -> jsnumber.
Variable World : Type.
Variable transport :
  World -> LifelogsSearchParams -> (AxiosError + LifelogsResponse) * World.

Lemma searchLifelogs_eq (w : World) (params : LifelogsSearchParams) :
  searchLifelogs parseInt transport w params =
  match transport w (with_defaults params) with
  | (inl _, w') => (inl unexpected, w')
  | (inr r, w') => (inr r, w')
  end.
Proof.
  unfold searchLifelogs, client_get.
  now destruct (transport w (with_defaults params)) as [[e|r] w'].
Qed.

Lemma page_limit (maxResults totalFetched : Z) :
  (0 <= totalFetched < maxResults)%Z ->
  let l := Z.min (maxResults - totalFetched) 10 in
  Z.min (if (l =? 0)%Z then 3 else l) 10 = l /\
  (1 <= l <= 10)%Z /\ (l <= maxResults)%Z.
Proof.
  intros H l. subst l.
  destruct (Z.eqb_spec (Z.min (maxResults - totalFetched) 10) 0); lia.
Qed.

Lemma fetch_pages_ends (maxResults : Z) (params : LifelogsSearchParams) (fuel : nat) :
  forall w allLifelogs cursor totalFetched,
    (0 <= totalFetched)%Z ->
    Z.to_nat (maxResults - totalFetched) <= fuel ->
    exists r w' sent,
      fetch_pages parseInt transport fuel w params maxResults allLifelogs
                  cursor totalFetched = Some (r, w', sent) /\
      List.length sent <= Z.to_nat (maxResults - totalFetched) /\
      Forall (Describe.page_limit_ok maxResults) sent.
Proof.
  induction fuel as [|fuel IH]; intros w allLifelogs cursor totalFetched H0 Hf.
  - cbn [fetch_pages]. destruct (Z.ltb_spec totalFetched maxResults); [lia|].
    exists (inr allLifelogs), w, []. repeat split; [cbn; lia|constructor].
  - cbn [fetch_pages]. destruct (Z.ltb_spec totalFetched maxResults) as [Hlt|Hge].
    2:{ exists (inr allLifelogs), w, []. repeat split; [cbn; lia|constructor]. }
    cbn zeta.
    assert (Hq : Describe.page_limit_ok maxResults
                   (with_defaults
                      (page_request params cursor
                                    (Z.min (maxResults - totalFetched) 10)))).
    { destruct (page_limit maxResults totalFetched (conj H0 Hlt)) as (E & Hl & Hm).
      exists (Z.min (maxResults - totalFetched) 10).
      cbn [with_defaults page_request limit]. now rewrite E. }
    rewrite searchLifelogs_eq.
    destruct (transport w _) as [[e|response] w'].
    + eexists _, _, _. split; [reflexivity|].
      split; [cbn [List.length]; lia|now constructor].
    + destruct (absent (nextCursor response)
                || Nat.eqb (List.length (lifelogs response)) 0) eqn:Estop.
      * eexists _, _, _. split; [reflexivity|].
        split; [cbn [List.length]; lia|now constructor].
      * apply orb_false_iff in Estop as [_ Hlen]. apply Nat.eqb_neq in Hlen.
        destruct (IH w' (allLifelogs ++ lifelogs response) (nextCursor response)
                     (totalFetched + Z.of_nat (List.length (lifelogs response)))%Z)
          as (r & w'' & sent & -> & Hs & Hall); [lia|lia|].
        eexists _, _, _. split; [reflexivity|].
        split; [cbn [List.length]; lia|now constructor].
Qed.

Lemma fetch_pages_bound (maxResults : Z) (params : LifelogsSearchParams) :
  (forall w q l r w',
      limit q = Some l -> (0 <= l)%Z -> transport w q = (inr r, w') ->
      (Z.of_nat (List.length (lifelogs r)) <= l)%Z) ->
  forall fuel w allLifelogs cursor totalFetched,
    (0 <= totalFetched)%Z ->
    Z.of_nat (List.length allLifelogs) = totalFetched ->
    (totalFetched <= Z.max maxResults 0)%Z ->
    match fetch_pages parseInt transport fuel w params maxResults allLifelogs
                      cursor totalFetched with
    | Some (inr result, _, _) =>
        (Z.of_nat (List.length result) <= Z.max maxResults 0)%Z
    | _ => True
    end.
Proof.
  intros Hhonest fuel.
  induction fuel as [|fuel IH]; intros w allLifelogs cursor totalFetched H0 Hlen Hmax;
    cbn [fetch_pages]; destruct (Z.ltb_spec totalFetched maxResults) as [Hlt|Hge];
    try exact I; try lia.
  cbn zeta. rewrite searchLifelogs_eq.
  destruct (page_limit maxResults totalFetched (conj H0 Hlt)) as (E & Hl & Hm).
  destruct (transport w _) as [[e|response] w'] eqn:Et; [exact I|].
  assert (Hpage : (Z.of_nat (List.length (lifelogs response))
                   <= Z.min (maxResults - totalFetched) 10)%Z).
  { apply (Hhonest _ _ _ _ _ (eq_refl : limit (with_defaults _) = Some _)) in Et.
    - cbn [page_request limit] in Et. rewrite E in Et. exact Et.
    - cbn [page_request limit]. rewrite E. lia. }
  assert (Hnew : Z.of_nat (List.length (allLifelogs ++ lifelogs response)) =
                 (totalFetched + Z.of_nat (List.length (lifelogs response)))%Z).
  { rewrite length_app. lia. }
  destruct (absent (nextCursor response)
            || Nat.eqb (List.length (lifelogs response)) 0).
  - rewrite Hnew. lia.
  - specialize (IH w' (allLifelogs ++ lifelogs response) (nextCursor response)
                   (totalFetched + Z.of_nat (List.length (lifelogs response)))%Z).
    destruct (fetch_pages parseInt transport fuel w' params maxResults _ _ _)
      as [[[[e|result] w''] sent]|]; try exact I.
    apply IH; [lia|exact Hnew|lia].
Qed.

End Client.

(** X19: a request that fails, whatever the status and the body of the
    answer, is reported with the one message for unexpected errors and
    with neither status nor waiting time; a request that succeeds hands
    on the response.  The query sent is the caller's with the defaults. *)
Theorem failed_request_reports_only_unexpected
        (parseInt : jsstring -> jsnumber) (World : Type)
        (transport : World -> Limitless.LifelogsSearchParams ->
                     (Limitless.AxiosError + Limitless.LifelogsResponse) * World)
        (w : World) (params : Limitless.LifelogsSearchParams) :
  Limitless.searchLifelogs parseInt transport w params =
  match transport w (Limitless.with_defaults params) with
  | (inl _, w') => (inl Limitless.unexpected, w')
  | (inr r, w') => (inr r, w')
  end.
Proof. apply searchLifelogs_eq. Qed.

(** X20: fetching all recordings always comes to an end: it sends at
    most [maxResults] requests, none for a bound of zero or less, and each
    request asks for at least one and at most ten recordings, never for
    more than the bound. *)
Theorem paging_ends_within_the_bound
        (parseInt : jsstring -> jsnumber) (World : Type)
        (transport : World -> Limitless.LifelogsSearchParams ->
                     (Limitless.AxiosError + Limitless.LifelogsResponse) * World)
        (w : World) (params : Limitless.LifelogsSearchParams) (maxResults : Z) :
  exists r w' sent,
    Limitless.getAllLifelogs parseInt transport w params maxResults
    = Some (r, w', sent) /\
    List.length sent <= Z.to_nat maxResults /\
    Forall (fun q => exists l, Limitless.limit q = Some l /\
                               (1 <= l <= 10)%Z /\ (l <= maxResults)%Z) sent.
Proof.
  unfold Limitless.getAllLifelogs.
  destruct (fetch_pages_ends parseInt World transport maxResults params
              (Z.to_nat maxResults) w [] None 0%Z)
    as (r & w' & sent & E & Hs & Hall);
    [lia|rewrite Z.sub_0_r; lia|].
  exists r, w', sent. rewrite Z.sub_0_r in Hs. now repeat split.
Qed.

(** X21: when the service never answers with more recordings than the
    request asks for, the recordings fetched are at most [maxResults]. *)
Theorem honest_service_keeps_the_bound
        (parseInt : jsstring -> jsnumber) (World : Type)
        (transport : World -> Limitless.LifelogsSearchParams ->
                     (Limitless.AxiosError + Limitless.LifelogsResponse) * World)
        (w : World) (params : Limitless.LifelogsSearchParams) (maxResults : Z) :
  (forall w q l r w',
      Limitless.limit q = Some l -> (0 <= l)%Z ->
      transport w q = (inr r, w') ->
      (Z.of_nat (List.length (Limitless.lifelogs r)) <= l)%Z) ->
  match Limitless.getAllLifelogs parseInt transport w params maxResults with
  | Some (inr result, _, _) =>
      (Z.of_nat (List.length result) <= Z.max maxResults 0)%Z
  | _ => True
  end.
Proof.
  intros Hhonest. unfold Limitless.getAllLifelogs.
  apply (fetch_pages_bound parseInt World transport maxResults params Hhonest);
    [lia|reflexivity|lia].
Qed.

Lemma honest_service_keeps_the_bound_witness :
  match Limitless.getAllLifelogs (fun _ => NaN) Describe.generous_service 0
                                 Describe.any_recordings 25 with
  | Some (inr result, _, _) =>
      (Z.of_nat (List.length result) <= Z.max 25 0)%Z
  | _ => True
  end.
Proof.
  apply (honest_service_keeps_the_bound (fun _ => NaN) nat
           Describe.generous_service 0 Describe.any_recordings 25).
  intros w q l r w' Hl H0 Ht. unfold Describe.generous_service in Ht.
  rewrite Hl in Ht. injection Ht as <- _.
  cbn [Limitless.lifelogs]. rewrite repeat_length. lia.
Defined.

(** ** The title, in general *)

(** X22: in a document without a line that holds the heading marker and
    nothing else, the title is the trimmed text of the first level-1
    heading line; without such a line it is the base name of the file
    with every hyphen and underscore turned into a space. *)
Theorem title_is_first_heading_or_file_name
        (rt : runtime) (content relativePath : jsstring) :
  forallb (fun l => negb (Spec.bare_marker l)) (Spec.lines content) = true ->
  extractTitle rt content relativePath =
  match Spec.first_heading (Spec.lines content) with
  | Some t => t
  | None =>
      map (fun c => if ((c =? ch "-") || (c =? ch "_"))%N then ch " " else c)
          (basename rt relativePath (js ".md"))
  end.
Proof.
  intros H. now rewrite (title_agrees_without_bare_marker rt content relativePath H).
Qed.

Lemma title_is_first_heading_or_file_name_witness :
  extractTitle sample (text [js "intro"; js "# First"; js "# Second"])
               (js "notes/my-file_name.md") = js "First" /\
  extractTitle sample (text [js "intro"; js "text"])
               (js "notes/my-file_name.md") = js "my file name".
Proof.
  split.
  - rewrite (title_is_first_heading_or_file_name sample
               (text [js "intro"; js "# First"; js "# Second"])
               (js "notes/my-file_name.md")); reflexivity.
  - rewrite (title_is_first_heading_or_file_name sample
               (text [js "intro"; js "text"])
               (js "notes/my-file_name.md")); reflexivity.
Defined.

(** ** When index generation fails *)

Lemma index_tag_returned (vaultName tag : jsstring)
      (ti ti' : list (jsstring * Topic.entry)) :
  (forall k, inherited k = true -> assoc k ti = None) ->
  index_tag vaultName (Returned ti) tag = Returned ti' ->
  inherited tag = false /\ (forall k, inherited k = true -> assoc k ti' = None).
Proof.
  intros Hinv H. unfold index_tag in H.
  assert (Hother : forall k, inherited k = true -> inherited tag = false ->
                             str_eqb k tag = false).
  { intros k Hk Ht. destruct (str_eqb k tag) eqn:E; [|reflexivity].
    apply str_eqb_eq in E. congruence. }
  destruct (assoc tag ti) as [e|] eqn:Ea.
  - assert (Ht : inherited tag = false).
    { destruct (inherited tag) eqn:Ei; [|reflexivity].
      rewrite (Hinv tag Ei) in Ea. discriminate Ea. }
    injection H as <-. split; [exact Ht|].
    intros k Hk. rewrite assoc_set_other by now apply Hother. now apply Hinv.
  - destruct (inherited tag) eqn:Ei; [discriminate H|].
    injection H as <-. split; [reflexivity|].
    intros k Hk. rewrite assoc_set_other by now apply Hother. now apply Hinv.
Qed.

Lemma index_tags_returned (vaultName : jsstring) (tags : list jsstring) :
  forall ti ti',
    (forall k, inherited k = true -> assoc k ti = None) ->
    fold_left (index_tag vaultName) tags (Returned ti) = Returned ti' ->
    (forall tag, In tag tags -> inherited tag = false) /\
    (forall k, inherited k = true -> assoc k ti' = None).
Proof.
  induction tags as [|t tags IH]; intros ti ti' Hinv H; cbn [fold_left] in H.
  - injection H as <-. split; [intros tag []|exact Hinv].
  - destruct (index_tag vaultName (Returned ti) t) as [ti1|e] eqn:E1;
      [|rewrite index_tags_thrown_stays in H; discriminate H].
    destruct (index_tag_returned vaultName t ti ti1 Hinv E1) as [Ht Hinv1].
    destruct (IH ti1 ti' Hinv1 H) as [Hall Hinv'].
    split; [|exact Hinv']. intros tag [<-|Hin]; [exact Ht|now apply Hall].
Qed.

Lemma index_notes_returned (vaultName : jsstring) (notes : list VaultNote) :
  forall ti ti',
    (forall k, inherited k = true -> assoc k ti = None) ->
    index_notes vaultName notes ti = Returned ti' ->
    (forall note tag, In note notes -> In tag (Note.tags note) ->
                      inherited tag = false) /\
    (forall k, inherited k = true -> assoc k ti' = None).
Proof.
  unfold index_notes.
  induction notes as [|n notes IH]; intros ti ti' Hinv H; cbn [fold_left] in H.
  - injection H as <-. split; [intros note tag []|exact Hinv].
  - destruct (fold_left (index_tag vaultName) (Note.tags n) (Returned ti))
      as [ti1|e] eqn:E1; [|rewrite index_notes_thrown_stays in H; discriminate H].
    destruct (index_tags_returned vaultName (Note.tags n) ti ti1 Hinv E1)
      as [Ht Hinv1].
    destruct (IH ti1 ti' Hinv1 H) as [Hall Hinv'].
    split; [|exact Hinv'].
    intros note tag [<-|Hin] Htag; [now apply Ht|now apply (Hall note)].
Qed.

Lemma index_all_returned (rt : runtime) (fs : filesystem) (vs : list VaultConfig) :
  forall ti ti',
    (forall k, inherited k = true -> assoc k ti = None) ->
    Spec.index_all rt fs vs ti = Returned ti' ->
    forall note tag, In note (Spec.scanned rt fs vs) -> In tag (Note.tags note) ->
                     inherited tag = false.
Proof.
  induction vs as [|v vs IH]; intros ti ti' Hinv H note tag Hn Ht;
    unfold Spec.scanned in *; cbn [filter] in Hn; cbn [Spec.index_all] in H.
  - destruct Hn.
  - destruct (Spec.reachable fs v); [|now apply (IH ti ti' Hinv H note)].
    cbn [flat_map] in Hn.
    destruct (index_notes (Config.name v) (Spec.vault_notes rt fs v) ti)
      as [ti1|e] eqn:E1; [|discriminate H].
    destruct (index_notes_returned _ _ ti ti1 Hinv E1) as [Hall Hinv1].
    apply in_app_or in Hn as [Hn|Hn]; [now apply (Hall note)|].
    now apply (IH ti1 ti' Hinv1 H note).
Qed.

(** X23: index generation fails, with a type error, exactly when some
    scanned document carries a tag that is the name of a property every
    object inherits, such as [constructor] or [toString]. *)
Theorem index_fails_exactly_on_an_inherited_name
        (rt : runtime) (m : MultiVaultManager) (fs : filesystem) :
  fst (generateCrossVaultIndex rt m fs) = Thrown TypeError <->
  exists note tag,
    In note (Spec.scanned rt fs (getAllVaults m)) /\
    In tag (Note.tags note) /\ inherited tag = true.
Proof.
  pose proof (generateCrossVaultIndex_eq rt m fs) as H.
  destruct (Spec.index_all rt fs (getAllVaults m) []) as [ti|e] eqn:E.
  - destruct H as (stats & ->). cbn [fst]. split; [discriminate|].
    intros (note & tag & Hn & Ht & Hi).
    rewrite (index_all_returned rt fs (getAllVaults m) [] ti
               (fun k _ => eq_refl) E note tag Hn Ht) in Hi.
    discriminate Hi.
  - destruct H as (-> & _). destruct e. split; [intros _|reflexivity].
    now apply index_all_thrown in E.
Qed.

(** ** A negative limit *)

(** X24: a search with a negative limit [-k] leaves out the [k] oldest
    of the documents that pass the filters, all of them when they are
    fewer, and returns the others latest first. *)
Theorem negative_limit_drops_the_oldest
        (rt : runtime) (m : MultiVaultManager) (query : jsstring)
        (ic : option bool) (tg vs : option (list jsstring)) (k : Z)
        (fs : filesystem) :
  (0 < k)%Z ->
  let o := {| Options.includeContent := ic; Options.tags := tg;
              Options.vaults := vs; Options.limit := Some (Int (- k)) |} in
  let found := Spec.survivors rt query ic tg (Spec.scanned rt fs (vaultsToSearch m o)) in
  exists result dropped,
    fst (searchAllVaults rt m query o fs) = Returned result /\
    Permutation found (result ++ dropped) /\
    StronglySorted Spec.latest_first result /\
    List.length dropped = Nat.min (Z.to_nat k) (List.length found) /\
    forall kept left,
      In kept result -> In left dropped ->
      (Note.lastModified left <= Note.lastModified kept)%Z.
Proof.
  intros Hk o found.
  pose proof (sortByLastModified_perm found) as Hp.
  pose proof (sortByLastModified_sorted found) as Hs.
  set (sorted := sortByLastModified found) in *.
  set (j := Z.to_nat (Z.max (Z.of_nat (List.length sorted) + - k) 0)).
  exists (firstn j sorted), (skipn j sorted).
  split.
  { rewrite search_eq.
    cbn [Options.limit Options.includeContent Options.tags o]. cbn zeta.
    fold o. fold found. fold sorted.
    destruct (Z.eqb_spec (- k) 0); [lia|].
    unfold slice_to. destruct (Z.ltb_spec (- k) 0); [reflexivity|lia]. }
  split; [now rewrite firstn_skipn|].
  split; [now apply sorted_firstn|].
  split.
  { unfold j. rewrite length_skipn, <- !(Permutation_length Hp). lia. }
  intros kept left Hkept Hleft.
  rewrite <- (firstn_skipn j sorted) in Hs.
  exact (sorted_app _ _ Hs kept left Hkept Hleft).
Qed.

Lemma negative_limit_drops_the_oldest_witness :
  exists result dropped,
    fst (searchAllVaults sample manager_ab []
           {| Options.includeContent := None; Options.tags := None;
              Options.vaults := None; Options.limit := Some (Int (- 1)) |} disk_ab)
    = Returned result /\
    Permutation
      (Spec.survivors sample [] None None
         (Spec.scanned sample disk_ab
            (vaultsToSearch manager_ab
               {| Options.includeContent := None; Options.tags := None;
                  Options.vaults := None; Options.limit := Some (Int (- 1)) |})))
      (result ++ dropped) /\
    StronglySorted Spec.latest_first result /\
    List.length dropped =
      Nat.min (Z.to_nat 1)
        (List.length
           (Spec.survivors sample [] None None
              (Spec.scanned sample disk_ab
                 (vaultsToSearch manager_ab
                    {| Options.includeContent := None; Options.tags := None;
                       Options.vaults := None; Options.limit := Some (Int (- 1)) |})))) /\
    forall kept left,
      In kept result -> In left dropped ->
      (Note.lastModified left <= Note.lastModified kept)%Z.
Proof.
  apply (negative_limit_drops_the_oldest sample manager_ab [] None None None 1 disk_ab).
  lia.
Defined.

(** ** A line of the front-matter block *)

Lemma keyvalue_matches (k0 d : char) (key ws rem : jsstring) :
  is_word k0 = true -> forallb is_word key = true ->
  forallb is_space ws = true ->
  is_space d = false -> is_dot d = true -> forallb is_dot rem = true ->
  exists m,
    match_at false re_keyvalue None 0
             (k0 :: key ++ ch ":" :: ws ++ d :: rem ++ []) = Some m /\
    cap 1 m = k0 :: key /\ cap 2 m = d :: rem.
Proof.
  intros Hk0 Hkey Hws Hd Hdot Hrem.
  eexists. split; [|split].
  - unfold match_at, re_keyvalue, Chr, Plus. cbn [run at_bol]. rewrite Hk0.
    apply many_greedy_stop; [exact Hkey|reflexivity|].
    cbn [run]. rewrite N.eqb_refl.
    apply many_greedy_stop; [exact Hws|cbn [stops]; now rewrite Hd|].
    cbn [run]. rewrite Hdot.
    apply many_greedy_stop; [exact Hrem|reflexivity|].
    cbn [at_eol]. reflexivity.
  - unfold cap. cbn [m_caps capture Nat.eqb].
    replace (1 + List.length key - 0) with (List.length (k0 :: key))
      by (cbn [List.length]; lia).
    apply (firstn_exact (k0 :: key)).
  - unfold cap. cbn [m_caps capture Nat.eqb].
    match goal with
    | |- firstn ?n _ = _ =>
        replace n with (List.length (d :: rem)) by (cbn [List.length]; lia)
    end.
    apply (firstn_exact (d :: rem) []).
Qed.

Lemma subst_quotes_inside (s : jsstring) :
  forall c pos,
    subst false re_quotes [] true true (Some c) pos s 0 = Describe.strip_last_quote s.
Proof.
  induction s as [|x s IH]; intros c pos; [reflexivity|].
  cbn [subst]. unfold match_at, re_quotes. cbn [run at_bol andb].
  destruct (is_quote x) eqn:Ex.
  - destruct s as [|y s].
    + cbn [at_eol m_end app]. cbn [Describe.strip_last_quote]. rewrite Ex.
      replace (S pos - pos - 1) with 0 by lia.
      replace (Nat.eqb (S pos) pos) with false
        by (symmetry; apply Nat.eqb_neq; lia).
      reflexivity.
    + cbn [at_eol andb]. now rewrite IH.
  - rewrite IH. cbn [Describe.strip_last_quote]. rewrite Ex.
    destruct s; reflexivity.
Qed.

Lemma replace_quotes (s : jsstring) :
  replace false true re_quotes [] s = Describe.unquote s.
Proof.
  unfold replace, Describe.unquote. destruct s as [|x s]; [reflexivity|].
  cbn [subst]. unfold match_at, re_quotes. cbn [run at_bol].
  cbn [Describe.strip_first_quote].
  destruct (is_quote x) eqn:Ex.
  - cbn [m_end app]. cbn [Nat.eqb Nat.sub]. apply subst_quotes_inside.
  - rewrite subst_quotes_inside. cbn [Describe.strip_last_quote]. rewrite Ex.
    destruct s; reflexivity.
Qed.

(** X25: a line [key: value] of the front-matter block (a key of
    letters, digits and underscores, a colon, any white space, a value
    that starts with none) sets the key to what [JSON.parse] reads from
    the value, and, where that fails, to the text of the value without a
    quote at its start and without a quote at its end. *)
Theorem keyvalue_line_sets_the_key
        (rt : runtime) (fm : frontmatter) (key ws value : jsstring) :
  key <> [] -> forallb is_word key = true ->
  forallb is_space ws = true ->
  match value with c :: _ => is_space c = false | [] => False end ->
  forallb is_dot value = true ->
  parse_line rt fm (key ++ ch ":" :: ws ++ value) =
  fm_set fm key
         (match JSON_parse rt value with
          | Some v => v
          | None => JStr (Describe.unquote value)
          end).
Proof.
  intros Hne Hkey Hws Hhead Hval.
  destruct key as [|k0 key]; [contradiction|].
  destruct value as [|d rem]; [contradiction|].
  cbn [forallb] in Hkey, Hval.
  apply andb_true_iff in Hkey as [Hk0 Hkey].
  apply andb_true_iff in Hval as [Hdot Hrem].
  destruct (keyvalue_matches k0 d key ws rem Hk0 Hkey Hws Hhead Hdot Hrem)
    as (m & Hm & H1 & H2).
  rewrite app_nil_r in Hm.
  unfold parse_line, exec. rewrite search_unfold.
  cbn [app]. rewrite Hm, H1, H2.
  destruct (JSON_parse rt (d :: rem)); [reflexivity|].
  now rewrite replace_quotes.
Qed.

Lemma keyvalue_line_sets_the_key_witness :
  parse_line sample empty_frontmatter (js "title: 'My note'") =
  fm_set empty_frontmatter (js "title") (JStr (js "My note")) /\
  parse_line sample empty_frontmatter (js "draft:true") =
  fm_set empty_frontmatter (js "draft") (JBool true).
Proof.
  split.
  - apply (keyvalue_line_sets_the_key sample empty_frontmatter
             (js "title") (js " ") (js "'My note'"));
      try reflexivity; discriminate.
  - apply (keyvalue_line_sets_the_key sample empty_frontmatter
             (js "draft") [] (js "true"));
      try reflexivity; discriminate.
Defined.

(** ** What index generation prints *)

(** X26: index generation scans every reachable collection twice, once
    for the topics and once for the statistics: when it returns, it has
    printed what the statistics alone print, two times over. *)
Theorem index_prints_every_error_twice
        (rt : runtime) (m : MultiVaultManager) (fs : filesystem) :
  match fst (generateCrossVaultIndex rt m fs) with
  | Returned idx =>
      snd (generateCrossVaultIndex rt m fs) =
      snd (getVaultStats rt m fs) ++ snd (getVaultStats rt m fs)
  | Thrown _ => True
  end.
Proof.
  pose proof (generateCrossVaultIndex_eq rt m fs) as H.
  destruct (Spec.index_all rt fs (getAllVaults m) []) as [ti|e].
  - destruct H as (stats & ->). cbn [fst snd].
    unfold getVaultStats. now rewrite foldM_stats_eq.
  - destruct H as (-> & _). exact I.
Qed.

(** ** The front-matter block *)

Lemma run_Lit_matches (ml : bool) (R : Type) (s : jsstring) (k : cont R) :
  forall prev pos rest cs,
    run ml (Lit s) prev pos (s ++ rest) cs k =
    k (last_seen s prev) (pos + List.length s) rest cs.
Proof.
  induction s as [|c s IH]; intros prev pos rest cs.
  - cbn [Lit run app List.length last_seen fold_left]. now rewrite Nat.add_0_r.
  - cbn [Lit run app]. rewrite N.eqb_refl, IH.
    cbn [List.length last_seen fold_left]. now rewrite Nat.add_succ_r.
Qed.

(** A lazy run of any characters stops at the first place where what
    follows can match. *)
Lemma many_lazy_first (R : Type) (k : cont R) (tail : jsstring) (r : R)
      (body : jsstring) :
  forall prev pos cs,
    (forall a c b, body = a ++ c :: b ->
                   k (last_seen a prev) (pos + List.length a) (c :: b ++ tail) cs = None) ->
    k (last_seen body prev) (pos + List.length body) tail cs = Some r ->
    many false (fun _ => true) prev pos (body ++ tail) cs k = Some r.
Proof.
  induction body as [|c body IH]; intros prev pos cs Hfail Hk.
  - cbn [app List.length last_seen fold_left] in *. rewrite Nat.add_0_r in Hk.
    destruct tail; cbn [many]; now rewrite Hk.
  - cbn [app many].
    pose proof (Hfail [] c body eq_refl) as H0.
    cbn [List.length last_seen fold_left app] in H0. rewrite Nat.add_0_r in H0.
    rewrite H0. apply IH.
    + intros a x b E. specialize (Hfail (c :: a) x b).
      cbn [app List.length last_seen fold_left] in Hfail.
      rewrite Nat.add_succ_r in Hfail. apply Hfail. now rewrite E.
    + cbn [List.length last_seen fold_left] in Hk.
      now rewrite Nat.add_succ_r in Hk.
Qed.

Lemma includes_suffix (sub a b : jsstring) :
  includes (a ++ b) sub = false -> startsWith sub b = false.
Proof.
  induction a as [|x a IH]; cbn [app]; intros H.
  - destruct b; cbn [includes] in H; now apply orb_false_iff in H as [H _].
  - cbn [includes] in H. apply orb_false_iff in H as [_ H]. now apply IH.
Qed.

(** The closing rule cannot begin inside the block and end in the rule
    that follows it. *)
Lemma no_early_rule (t rest : jsstring) :
  t <> [] -> startsWith (NL :: js "---") t = false ->
  startsWith (NL :: js "---") (t ++ NL :: js "---" ++ rest) = false.
Proof.
  intros Hne H.
  destruct t as [|c1 [|c2 [|c3 [|c4 t]]]]; [contradiction| | | |];
    cbn [startsWith app js] in *;
    repeat match goal with
           | |- context [(?a =? ?b)%N] =>
               let E := fresh "E" in
               destruct (a =? b)%N eqn:E; cbn [andb] in *;
               try (apply N.eqb_eq in E; subst)
           end;
    try reflexivity; try discriminate; try exact H.
Qed.

Lemma frontmatter_matches (body rest : jsstring) :
  includes body (NL :: js "---") = false ->
  exists m,
    match_at false re_frontmatter None 0
             ((js "---" ++ [NL]) ++ body ++ (NL :: js "---") ++ rest) = Some m /\
    cap 1 m = body.
Proof.
  intros Hno. eexists. split.
  - unfold match_at, re_frontmatter. cbn [run at_bol].
    rewrite run_Lit_matches. cbn [run].
    apply many_lazy_first.
    + intros a c b E. apply run_Lit_fails.
      apply (no_early_rule (c :: b) rest); [discriminate|].
      apply (includes_suffix _ a). now rewrite <- E.
    + rewrite run_Lit_matches. reflexivity.
  - unfold cap. cbn [m_caps capture Nat.eqb].
    match goal with
    | |- firstn ?n _ = _ => replace n with (List.length body) by lia
    end.
    apply firstn_exact.
Qed.

(** X27: in a document that begins with the line [---], the front-matter
    block runs to the first line break that is followed by [---]: the
    lines before it are read one by one, and nothing after it is. *)
Theorem frontmatter_block_ends_at_the_first_rule
        (rt : runtime) (body rest : jsstring) :
  includes body (NL :: js "---") = false ->
  extractFrontmatter rt ((js "---" ++ [NL]) ++ body ++ (NL :: js "---") ++ rest) =
  fold_left (parse_line rt) (split NL body) empty_frontmatter.
Proof.
  intros Hno. destruct (frontmatter_matches body rest Hno) as (m & Hm & Hc).
  unfold extractFrontmatter, exec. rewrite search_unfold, Hm, Hc. reflexivity.
Qed.

Lemma frontmatter_block_ends_at_the_first_rule_witness :
  extractFrontmatter sample
    ((js "---" ++ [NL]) ++ js "title: Plan" ++ (NL :: js "---")
     ++ NL :: js "status: late" ++ NL :: js "---") =
  fold_left (parse_line sample) (split NL (js "title: Plan")) empty_frontmatter.
Proof.
  apply (frontmatter_block_ends_at_the_first_rule sample (js "title: Plan")
           (NL :: js "status: late" ++ NL :: js "---")).
  reflexivity.
Defined.

(** ** The search command *)

(** X28: the search command never hands over an empty tag filter or an
    empty collection filter: a flag left out gives no filter, a flag given
    gives at least one name.  So the collections it searches are all
    registered ones without the flag, and with it those whose name is
    among the names given. *)
Theorem command_line_never_sends_an_empty_filter
        (parseInt : jsstring -> jsnumber) (content : bool)
        (tags vaults limit : jsstring) (m : MultiVaultManager) :
  let o := Cli.searchOptions parseInt content tags vaults limit in
  Options.tags o <> Some [] /\
  Options.vaults o <> Some [] /\
  vaultsToSearch m o =
  Spec.candidates m (match Options.vaults o with
                     | Some names => names
                     | None => []
                     end).
Proof.
  cbn zeta. unfold Cli.searchOptions, vaultsToSearch.
  cbn [Options.tags Options.vaults].
  split; [|split].
  - destruct (nonempty tags); [|discriminate].
    intros [= H]. now apply names_nonempty in H.
  - destruct (nonempty vaults); [|discriminate].
    intros [= H]. now apply names_nonempty in H.
  - destruct (nonempty vaults); [|reflexivity].
    pose proof (names_nonempty vaults) as H. unfold Spec.candidates.
    destruct (map trim (split (ch ",") vaults)); [contradiction|reflexivity].
Qed.
